(** * CernVM-FS catalog core: directory entries, catalog SQL marshalling,
      and the entry LRU cache.

    A shallow embedding of
      - cvmfs/dirent.h          (module [Dirent]),
      - cvmfs/catalog_sql.cc    (module [CatalogSql]),
      - cvmfs/src/lru_cache.h   (module [Lru]),
      - cvmfs/src/cvmfs_sync_recursion.h   (module [Recursion]),
    followed by the properties of these definitions.

    Fixed-width unsigned integers are values of [Z] with the wrap-around
    written out ([uint32], [uint64]); SQLite INTEGER values are signed
    64-bit ([int64]).  C strings and short-strings are [list ascii]. *)

From Stdlib Require Import ZArith QArith Lia Ascii String List Bool.
From stdpp Require Import base tactics option list gmap strings.

Local Open Scope Z_scope.

(** ** Machine integers *)

Definition uint32 (z : Z) : Z := z mod 2 ^ 32.
Definition uint64 (z : Z) : Z := z mod 2 ^ 64.

(** Two's-complement reading of the low 64 bits (sqlite3_int64). *)
Definition int64 (z : Z) : Z := (z + 2 ^ 63) mod 2 ^ 64 - 2 ^ 63.

(** Two's-complement reading of the low 32 bits (int). *)
Definition int32 (z : Z) : Z := (z + 2 ^ 31) mod 2 ^ 32 - 2 ^ 31.

Definition in_int64 (z : Z) : Prop := - 2 ^ 63 <= z < 2 ^ 63.

(** Byte strings: the content of a ShortString / std::string / char buffer. *)
Definition bytes := list ascii.
Definition str (s : string) : bytes := list_ascii_of_string s.

(* ================================================================== *)
(** * dirent.h *)
(* ================================================================== *)

Module Dirent.

(** enum SpecialDirents *)
Inductive SpecialDirents : Set :=
| kDirentNormal
| kDirentNegative.

(** A [Catalog*]: the numeric value of the pointer (64-bit address). *)
Definition CatalogPtr := Z.
Definition NULL : CatalogPtr := 0.
(** [(Catalog * )(-1)] *)
Definition catalog_minus_one : CatalogPtr := uint64 (-1).

Definition inode_t := Z.
Definition kInvalidInode : inode_t := 0.

(** class DirectoryEntry, private members in declaration order.
    [linkcount_] is the member that SqlLookup::GetDirent assigns
    (catalog_sql.cc:405).  dirent.h does not declare it and nothing in
    dirent.h reads it: [linkcount()], [hardlink_group()] and
    [GetStatStructure()] work on the packed [hardlinks_]. *)
Record DirectoryEntry : Type := mkDirectoryEntry {
  catalog_ : CatalogPtr;
  name_ : bytes;
  inode_ : inode_t;
  parent_inode_ : inode_t;
  hardlinks_ : Z;               (* uint64_t: group id + linkcount *)
  linkcount_ : Z;
  mode_ : Z;                    (* unsigned int *)
  uid_ : Z;
  gid_ : Z;
  size_ : Z;                    (* uint64_t *)
  mtime_ : Z;                   (* time_t *)
  cached_mtime_ : Z;
  symlink_ : bytes;
  checksum_ : bytes;            (* hash::Any, raw digest; empty = null hash *)
  is_nested_catalog_root_ : bool;
  is_nested_catalog_mountpoint_ : bool
}.

(** [DirectoryEntry()]: every member of the initialiser list is set, the
    class-typed members are default-constructed (empty), and a member
    without initialiser keeps whatever the storage [uninit] held. *)
Definition DirectoryEntry_default (uninit : DirectoryEntry) : DirectoryEntry :=
  {| catalog_ := NULL;
     name_ := [];
     inode_ := kInvalidInode;
     parent_inode_ := kInvalidInode;
     hardlinks_ := 0;
     linkcount_ := linkcount_ uninit;
     mode_ := 0;
     uid_ := 0;
     gid_ := 0;
     size_ := 0;
     mtime_ := 0;
     cached_mtime_ := 0;
     symlink_ := [];
     checksum_ := [];
     is_nested_catalog_root_ := false;
     is_nested_catalog_mountpoint_ := false |}.

(** [explicit DirectoryEntry(SpecialDirents special_type)]: the
    initialiser list holds [catalog_((Catalog * )(-1))] only;
    [special_type] is not read. *)
Definition DirectoryEntry_special (special_type : SpecialDirents)
    (uninit : DirectoryEntry) : DirectoryEntry :=
  {| catalog_ := catalog_minus_one;
     name_ := [];
     inode_ := inode_ uninit;
     parent_inode_ := parent_inode_ uninit;
     hardlinks_ := hardlinks_ uninit;
     linkcount_ := linkcount_ uninit;
     mode_ := mode_ uninit;
     uid_ := uid_ uninit;
     gid_ := gid_ uninit;
     size_ := size_ uninit;
     mtime_ := mtime_ uninit;
     cached_mtime_ := cached_mtime_ uninit;
     symlink_ := [];
     checksum_ := [];
     is_nested_catalog_root_ := is_nested_catalog_root_ uninit;
     is_nested_catalog_mountpoint_ := is_nested_catalog_mountpoint_ uninit |}.

(** Storage filled with zero bytes, as a sample of what a constructor
    may find. *)
Definition zeroed_storage : DirectoryEntry :=
  mkDirectoryEntry 0 [] 0 0 0 0 0 0 0 0 0 0 [] [] false false.

Definition GetSpecial (e : DirectoryEntry) : SpecialDirents :=
  if catalog_ e =? catalog_minus_one then kDirentNegative else kDirentNormal.

Definition IsNestedCatalogRoot (e : DirectoryEntry) : bool :=
  is_nested_catalog_root_ e.
Definition IsNestedCatalogMountpoint (e : DirectoryEntry) : bool :=
  is_nested_catalog_mountpoint_ e.

(** <sys/stat.h> file-type macros (POSIX values, octal 0170000 etc.). *)
Definition S_IFMT : Z := 61440.
Definition S_IFDIR : Z := 16384.
Definition S_IFREG : Z := 32768.
Definition S_IFLNK : Z := 40960.

Definition S_ISREG (m : Z) : bool := Z.land m S_IFMT =? S_IFREG.
Definition S_ISLNK (m : Z) : bool := Z.land m S_IFMT =? S_IFLNK.
Definition S_ISDIR (m : Z) : bool := Z.land m S_IFMT =? S_IFDIR.

Definition IsRegular (e : DirectoryEntry) : bool := S_ISREG (mode_ e).
Definition IsLink (e : DirectoryEntry) : bool := S_ISLNK (mode_ e).
Definition IsDirectory (e : DirectoryEntry) : bool := S_ISDIR (mode_ e).

(** The hardlinks field, [(uint64_t(hardlink_group) << 32) | linkcount],
    of two uint32_t arguments. *)
Definition pack_hardlinks (hardlink_group linkcount : Z) : Z :=
  Z.lor (uint64 (Z.shiftl (uint32 hardlink_group) 32)) (uint32 linkcount).

Definition set_hardlinks (e : DirectoryEntry) (hardlink_group linkcount : Z)
    : DirectoryEntry :=
  {| catalog_ := catalog_ e;
     name_ := name_ e;
     inode_ := inode_ e;
     parent_inode_ := parent_inode_ e;
     hardlinks_ := pack_hardlinks hardlink_group linkcount;
     linkcount_ := linkcount_ e;
     mode_ := mode_ e;
     uid_ := uid_ e;
     gid_ := gid_ e;
     size_ := size_ e;
     mtime_ := mtime_ e;
     cached_mtime_ := cached_mtime_ e;
     symlink_ := symlink_ e;
     checksum_ := checksum_ e;
     is_nested_catalog_root_ := is_nested_catalog_root_ e;
     is_nested_catalog_mountpoint_ := is_nested_catalog_mountpoint_ e |}.

(** [static uint32_t Hardlinks2Linkcount(const uint64_t hardlinks)] *)
Definition Hardlinks2Linkcount (hardlinks : Z) : Z :=
  if hardlinks =? 0 then 1
  else uint32 (Z.shiftr (uint64 (Z.shiftl hardlinks 32)) 32).

(** [static uint32_t Hardlinks2HardlinkGroup(const uint64_t hardlinks)] *)
Definition Hardlinks2HardlinkGroup (hardlinks : Z) : Z :=
  uint32 (Z.shiftr hardlinks 32).

Definition linkcount (e : DirectoryEntry) : Z :=
  Hardlinks2Linkcount (hardlinks_ e).
Definition hardlink_group (e : DirectoryEntry) : Z :=
  Hardlinks2HardlinkGroup (hardlinks_ e).

(** [uint64_t size() const]: a symlink reports the length of its
    target. *)
Definition size (e : DirectoryEntry) : Z :=
  if IsLink e then Z.of_nat (length (symlink_ e)) else size_ e.

(** [struct stat], the members GetStatStructure sets; the others are
    zeroed by memset.  Member types as on LP64 Linux: st_size, st_blksize
    and st_blocks are signed 64-bit, the times are time_t. *)
Record stat : Type := mkStat {
  st_dev : Z;
  st_ino : Z;
  st_mode : Z;
  st_nlink : Z;
  st_uid : Z;
  st_gid : Z;
  st_rdev : Z;
  st_size : Z;
  st_blksize : Z;
  st_blocks : Z;
  st_atime : Z;
  st_mtime : Z;
  st_ctime : Z
}.

(** [struct stat GetStatStructure() const]; [1 + size() / 512] is
    computed in uint64_t. *)
Definition GetStatStructure (e : DirectoryEntry) : stat :=
  {| st_dev := 1;
     st_ino := inode_ e;
     st_mode := mode_ e;
     st_nlink := linkcount e;
     st_uid := uid_ e;
     st_gid := gid_ e;
     st_rdev := 1;
     st_size := int64 (size e);
     st_blksize := 4096;
     st_blocks := int64 (uint64 (1 + size e / 512));
     st_atime := mtime_ e;
     st_mtime := mtime_ e;
     st_ctime := mtime_ e |}.


End Dirent.

(* ================================================================== *)
(** * catalog_sql.cc *)
(* ================================================================== *)

Module CatalogSql.
Import Dirent.

(** Modelled from the spec: the flag constants of catalog_sql.h, which is
    not among the sources (spec section 6.3, "stable on disk"). *)
Definition kFlagDir : Z := 1.
Definition kFlagFile : Z := 2.
Definition kFlagLink : Z := 4.
Definition kFlagDirNestedRoot : Z := 8.
Definition kFlagDirNestedMountpoint : Z := 16.

(** [unsigned SqlDirent::CreateDatabaseFlags(const DirectoryEntry &entry)] *)
Definition CreateDatabaseFlags (entry : DirectoryEntry) : Z :=
  let database_flags := 0 in
  let database_flags :=
    if IsNestedCatalogRoot entry then
      Z.lor database_flags kFlagDirNestedRoot
    else if IsNestedCatalogMountpoint entry then
      Z.lor database_flags kFlagDirNestedMountpoint
    else database_flags in
  let database_flags :=
    if IsDirectory entry then
      Z.lor database_flags kFlagDir
    else if IsLink entry then
      Z.lor database_flags (Z.lor kFlagFile kFlagLink)
    else
      Z.lor database_flags kFlagFile in
  database_flags.

(** ** Symlink expansion *)

Definition NUL : ascii := "000"%char.

(** [*p] for a pointer at offset [i] into the character buffer. *)
Definition peek (buf : bytes) (i : Z) : ascii := nth (Z.to_nat i) buf NUL.

(** The [n] bytes starting at offset [i] (the source of a memcpy). *)
Definition sub_bytes (buf : bytes) (i n : Z) : bytes :=
  firstn (Z.to_nat n) (skipn (Z.to_nat i) buf).

(** What a C function sees of a char array: the bytes before the first NUL. *)
Fixpoint c_str (b : bytes) : bytes :=
  match b with
  | [] => []
  | x :: b' => if Ascii.eqb x NUL then [] else x :: c_str b'
  end.

(** The process environment: [getenv] on a variable name. *)
Definition environment := bytes -> option bytes.

Fixpoint bytes_eqb (a b : bytes) : bool :=
  match a, b with
  | [], [] => true
  | x :: a', y :: b' => Ascii.eqb x y && bytes_eqb a' b'
  | _, _ => false
  end.

(** [getenv] over an [environ] of NAME=value entries: the first entry whose
    name matches. *)
Fixpoint getenv_in (environ : list (bytes * bytes)) (name : bytes)
    : option bytes :=
  match environ with
  | [] => None
  | (n, v) :: environ' =>
      if bytes_eqb n name then Some v else getenv_in environ' name
  end.

(** How a scanning loop ends: on the character it looks for, at offset
    [at_], or behind [cEnd].  A loop whose [fuel] runs out has no outcome
    ([None]); [ExpandSymlink_total] shows that this does not happen. *)
Inductive scan : Set :=
| Found (at_ : Z)
| NotFound.

(** [for (; c <= cEnd; ++c) if ( *c == '$') goto expand_symlink;] *)
Fixpoint find_dollar (fuel : nat) (buf : bytes) (cEnd c : Z) : option scan :=
  match fuel with
  | O => None
  | S fuel' =>
      if c <=? cEnd then
        if Ascii.eqb (peek buf c) "$" then Some (Found c)
        else find_dollar fuel' buf cEnd (c + 1)
      else Some NotFound
  end.

(** [while (rpar <= cEnd) { if ( *rpar == ')') goto ...getenv; rpar++; }] *)
Fixpoint find_rpar (fuel : nat) (buf : bytes) (cEnd rpar : Z) : option scan :=
  match fuel with
  | O => None
  | S fuel' =>
      if rpar <=? cEnd then
        if Ascii.eqb (peek buf rpar) ")" then Some (Found rpar)
        else find_rpar fuel' buf cEnd (rpar + 1)
      else Some NotFound
  end.

(** Number of rounds a loop running from [c] up to and including [cEnd]
    can take, plus the round that leaves it. *)
Definition rounds (cEnd c : Z) : nat := S (Z.to_nat (cEnd - c + 1)).

Section ExpandSymlink.
Variable getenv : environment.

(** The second loop of ExpandSymlink, entered at label [expand_symlink]
    with the [c] the first loop stopped at.  Both [continue] statements
    run the [++c] of the loop header. *)
Fixpoint expand_loop (fuel : nat) (buf : bytes) (cEnd c : Z) (result : bytes)
    : option bytes :=
  match fuel with
  | O => None
  | S fuel' =>
      if c <=? cEnd then
        if Ascii.eqb (peek buf c) "$" && (c <? cEnd - 2)
           && Ascii.eqb (peek buf (c + 1)) "("
        then
          let c := c + 2 in
          match find_rpar (rounds cEnd c) buf cEnd c with
          | None => None
          | Some NotFound =>
              (* right parenthesis missing *)
              let result := result ++ str "$(" in
              expand_loop fuel' buf cEnd (c + 1) result
          | Some (Found rpar) =>
              let environ_var_length := rpar - c in
              let environ_var := sub_bytes buf c environ_var_length ++ [NUL] in
              let environ_value := getenv (c_str environ_var) in
              let result :=
                match environ_value with
                | Some v => result ++ v
                | None => result
                end in
              let c := rpar + 1 in
              expand_loop fuel' buf cEnd (c + 1) result
          end
        else expand_loop fuel' buf cEnd (c + 1) (result ++ [peek buf c])
      else Some result
  end.

(** [void SqlDirent::ExpandSymlink(LinkString *raw_symlink)]: the new
    content of [*raw_symlink].  [GetChars()] points at the characters of
    the string, [past_end] is the byte stored behind the last one
    (shortstring.h is not among the sources): the loops run while
    [c <= cEnd] and so read it. *)
Definition ExpandSymlink (past_end : ascii) (raw_symlink : bytes)
    : option bytes :=
  let buf := raw_symlink ++ [past_end] in
  let c := 0 in
  let cEnd := c + Z.of_nat (length raw_symlink) in
  match find_dollar (rounds cEnd c) buf cEnd c with
  | None => None
  | Some NotFound => Some raw_symlink
  | Some (Found c) => expand_loop (rounds cEnd c) buf cEnd c []
  end.

End ExpandSymlink.

(** ** Rows of the catalog table *)

(** One row of table [catalog] (CREATE TABLE in Database::Create) together
    with its rowid.  INTEGER columns hold sqlite3_int64 values, TEXT and
    BLOB columns byte strings. *)
Record Row : Type := mkRow {
  md5path_1 : Z;
  md5path_2 : Z;
  parent_1 : Z;
  parent_2 : Z;
  inode : Z;                    (* holds the hardlinks field *)
  hash : bytes;
  size : Z;
  mode : Z;
  mtime : Z;
  flags : Z;
  name : bytes;
  symlink : bytes;
  rowid : Z
}.

Definition set_inode (r : Row) (v : Z) : Row :=
  {| md5path_1 := md5path_1 r; md5path_2 := md5path_2 r;
     parent_1 := parent_1 r; parent_2 := parent_2 r;
     inode := v;
     hash := hash r; size := size r; mode := mode r; mtime := mtime r;
     flags := flags r; name := name r; symlink := symlink r;
     rowid := rowid r |}.

(** What GetDirent uses of class Catalog (catalog.h is not among the
    sources): the address of the object, [schema()] and
    [GetMangledInode(row_id, hardlink_group)].  The schema version is the
    number stored under 'schema' in table properties. *)
Record Catalog : Type := mkCatalog {
  this : CatalogPtr;
  schema : Q;
  GetMangledInode : Z -> Z -> inode_t
}.

(** [schema() < 2.0] *)
Definition schema_below_2 (catalog : Catalog) : bool :=
  negb (Qle_bool 2 (schema catalog)).


(** ** SQL expressions on INTEGER values (SQLite) *)

(** [a << b] keeps the low 64 bits, [a >> b] extends the sign. *)
Definition sql_shiftl (a b : Z) : Z := int64 (Z.shiftl a b).
Definition sql_shiftr (a b : Z) : Z := Z.shiftr a b.
(** [a + b] and [a * b]: the exact result.  SQLite stores a result outside
    sqlite3_int64 as a REAL, which these definitions do not cover. *)
Definition sql_add (a b : Z) : Z := a + b.
Definition sql_mul (a b : Z) : Z := a * b.

(** [SELECT inode from catalog WHERE md5path_1 = :md5_1 AND md5path_2 =
    :md5_2] as a scalar subquery: the first row found, or NULL. *)
Fixpoint select_inode (tbl : list Row) (md5_1 md5_2 : Z) : option Z :=
  match tbl with
  | [] => None
  | r :: tbl' =>
      if (md5path_1 r =? md5_1) && (md5path_2 r =? md5_2) then Some (inode r)
      else select_inode tbl' md5_1 md5_2
  end.

(** [CASE (inode << 32) >> 32 WHEN 2 THEN 0 ELSE inode+1*(:delta) END] *)
Definition SqlIncLinkcount_case (inode delta : Z) : Z :=
  if sql_shiftr (sql_shiftl inode 32) 32 =? 2 then 0
  else sql_add inode (sql_mul 1 delta).

(** The statement of SqlIncLinkcount, executed with [:delta] and the two
    halves of the path hash bound: [UPDATE catalog SET inode = CASE ...
    WHERE inode = (SELECT ...)].  A comparison with NULL selects no row. *)
Definition SqlIncLinkcount_Execute (tbl : list Row) (md5_1 md5_2 : Z)
    (delta : Z) : list Row :=
  match select_inode tbl md5_1 md5_2 with
  | None => tbl
  | Some v =>
      map (fun r =>
             if inode r =? v then set_inode r (SqlIncLinkcount_case (inode r) delta)
             else r) tbl
  end.

(** [SELECT max(inode) FROM catalog;]: one result row holding the largest
    value of the column, NULL for an empty table. *)
Definition select_max_inode (tbl : list Row) : option Z :=
  match tbl with
  | [] => None
  | r :: tbl' => Some (fold_left Z.max (map inode tbl') (inode r))
  end.

(** [RetrieveInt64] on a result column: sqlite3_column_int64 gives 0 for
    NULL. *)
Definition RetrieveInt64 (v : option Z) : Z :=
  match v with
  | Some z => z
  | None => 0
  end.

(** [uint32_t SqlMaxHardlinkGroup::GetMaxGroupId() const] after the
    statement fetched its row. *)
Definition GetMaxGroupId (tbl : list Row) : Z :=
  uint32 (Z.shiftr (RetrieveInt64 (select_max_inode tbl)) 32).

(** The hardlink group id and link count a reader decodes from a row
    ([uint64_t hardlinks = RetrieveInt64(1)] in GetDirent). *)
Definition row_hardlink_group (r : Row) : Z :=
  Hardlinks2HardlinkGroup (uint64 (inode r)).
Definition row_linkcount (r : Row) : Z :=
  Hardlinks2Linkcount (uint64 (inode r)).

(** The value BindInt64 stores for a packed hardlinks field. *)
Definition stored_hardlinks (hardlink_group linkcount : Z) : Z :=
  int64 (pack_hardlinks hardlink_group linkcount).

(** ** Statements and their parameters *)

(** A value handed to sqlite3_bind_... *)
Inductive sqlvalue : Type :=
| SqlNull
| SqlInt (z : Z)
| SqlText (b : bytes)
| SqlBlob (b : bytes).

(** The parameters of a prepared statement, by index; SQLite numbers the
    named parameters of a statement from 1 in the order in which they
    first occur in its text, and a parameter never bound is NULL. *)
Abbreviation params := (gmap nat sqlvalue).

(** [hash::Md5] as the two 64-bit halves that BindMd5 stores and
    RetrieveMd5 reads (hash.h is not among the sources). *)
Definition Md5 : Type := Z * Z.

(** The Bind... methods of class Sql (catalog_sql.h is not among the
    sources): each passes its argument, converted to the parameter type
    of the sqlite3_bind_... function of that name, on to the parameter
    of that index. *)
Definition BindInt64 (idx : nat) (v : Z) (ps : params) : params :=
  <[idx := SqlInt (int64 v)]> ps.
Definition BindInt (idx : nat) (v : Z) (ps : params) : params :=
  <[idx := SqlInt (int32 v)]> ps.
Definition BindText (idx : nat) (chars : bytes) (ps : params) : params :=
  <[idx := SqlText chars]> ps.
Definition BindSha1Blob (idx : nat) (h : bytes) (ps : params) : params :=
  <[idx := SqlBlob h]> ps.
Definition BindMd5 (idx1 idx2 : nat) (h : Md5) (ps : params) : params :=
  BindInt64 idx2 h.2 (BindInt64 idx1 h.1 ps).

(** [bool SqlDirentWrite::BindDirentFields(...)] *)
Definition BindDirentFields
    (hash_idx inode_idx size_idx mode_idx mtime_idx flags_idx name_idx
       symlink_idx : nat) (entry : DirectoryEntry) (ps : params) : params :=
  let ps := BindSha1Blob hash_idx (checksum_ entry) ps in
  let ps := BindInt64 inode_idx (inode_ entry) ps in
  let ps := BindInt64 size_idx (size_ entry) ps in
  let ps := BindInt mode_idx (mode_ entry) ps in
  let ps := BindInt64 mtime_idx (mtime_ entry) ps in
  let ps := BindInt flags_idx (CreateDatabaseFlags entry) ps in
  let ps := BindText name_idx (name_ entry) ps in
  BindText symlink_idx (symlink_ entry) ps.

(** Reading a parameter where the statement needs an INTEGER, a TEXT or
    a BLOB; a parameter of another kind is outside this model. *)
Definition int_param (ps : params) (idx : nat) : option Z :=
  match ps !! idx with
  | Some (SqlInt z) => Some z
  | _ => None
  end.
Definition text_param (ps : params) (idx : nat) : option bytes :=
  match ps !! idx with
  | Some (SqlText b) => Some b
  | _ => None
  end.
Definition blob_param (ps : params) (idx : nat) : option bytes :=
  match ps !! idx with
  | Some (SqlBlob b) => Some b
  | _ => None
  end.

(** [(md5path_1 = :md5_1) AND (md5path_2 = :md5_2)] and
    [(parent_1 = :p_1) AND (parent_2 = :p_2)] *)
Definition has_path (md5_1 md5_2 : Z) (r : Row) : bool :=
  (md5path_1 r =? md5_1) && (md5path_2 r =? md5_2).
Definition has_parent (p_1 p_2 : Z) (r : Row) : bool :=
  (parent_1 r =? p_1) && (parent_2 r =? p_2).

(** The rowid SQLite gives a new row: one more than the largest in use,
    1 in an empty table. *)
Definition new_rowid (tbl : list Row) : Z :=
  1 + fold_left Z.max (map rowid tbl) 0.

(** *** SqlDirentInsert *)

(** [INSERT OR IGNORE INTO catalog (md5path_1, md5path_2, parent_1,
    parent_2, hash, inode, size, mode, mtime, flags, name, symlink) VALUES
    (:md5_1, :md5_2, :p_1, :p_2, :hash, :ino, :size, :mode, :mtime,
    :flags, :name, :symlink);] with parameters 1 to 12.  A row whose
    primary key (md5path_1, md5path_2) is in the table already is
    ignored. *)
Definition SqlDirentInsert_Execute (ps : params) (tbl : list Row)
    : option (list Row) :=
  md5_1 ← int_param ps 1%nat;
  md5_2 ← int_param ps 2%nat;
  p_1 ← int_param ps 3%nat;
  p_2 ← int_param ps 4%nat;
  hash ← blob_param ps 5%nat;
  ino ← int_param ps 6%nat;
  size ← int_param ps 7%nat;
  mode ← int_param ps 8%nat;
  mtime ← int_param ps 9%nat;
  flags ← int_param ps 10%nat;
  name ← text_param ps 11%nat;
  symlink ← text_param ps 12%nat;
  if existsb (has_path md5_1 md5_2) tbl then Some tbl
  else
    Some (tbl ++ [mkRow md5_1 md5_2 p_1 p_2 ino hash size mode mtime flags
                        name symlink (new_rowid tbl)]).

Definition SqlDirentInsert_BindPathHash (h : Md5) : params -> params :=
  BindMd5 1 2 h.
Definition SqlDirentInsert_BindParentPathHash (h : Md5) : params -> params :=
  BindMd5 3 4 h.
Definition SqlDirentInsert_BindDirent (entry : DirectoryEntry)
    : params -> params :=
  BindDirentFields 5 6 7 8 9 10 11 12 entry.

(** *** SqlDirentUpdate *)

(** [UPDATE catalog SET hash = :hash, size = :size, mode = :mode, mtime =
    :mtime, flags = :flags, name = :name, symlink = :symlink, inode =
    :inode WHERE (md5path_1 = :md5_1) AND (md5path_2 = :md5_2);] with
    parameters 1 to 10. *)
Definition SqlDirentUpdate_Execute (ps : params) (tbl : list Row)
    : option (list Row) :=
  hash ← blob_param ps 1%nat;
  size ← int_param ps 2%nat;
  mode ← int_param ps 3%nat;
  mtime ← int_param ps 4%nat;
  flags ← int_param ps 5%nat;
  name ← text_param ps 6%nat;
  symlink ← text_param ps 7%nat;
  ino ← int_param ps 8%nat;
  md5_1 ← int_param ps 9%nat;
  md5_2 ← int_param ps 10%nat;
  Some (map (fun r =>
               if has_path md5_1 md5_2 r then
                 mkRow (md5path_1 r) (md5path_2 r) (parent_1 r) (parent_2 r)
                       ino hash size mode mtime flags name symlink (rowid r)
               else r) tbl).

Definition SqlDirentUpdate_BindPathHash (h : Md5) : params -> params :=
  BindMd5 9 10 h.
Definition SqlDirentUpdate_BindDirent (entry : DirectoryEntry)
    : params -> params :=
  BindDirentFields 1 8 2 3 4 5 6 7 entry.

(** *** SqlDirentTouch *)

Definition set_mtime (r : Row) (v : Z) : Row :=
  mkRow (md5path_1 r) (md5path_2 r) (parent_1 r) (parent_2 r) (inode r)
        (hash r) (size r) (mode r) v (flags r) (name r) (symlink r) (rowid r).

(** [UPDATE catalog SET mtime = :mtime WHERE (md5path_1 = :md5_1) AND
    (md5path_2 = :md5_2);] with parameters 1 to 3. *)
Definition SqlDirentTouch_Execute (ps : params) (tbl : list Row)
    : option (list Row) :=
  mtime ← int_param ps 1%nat;
  md5_1 ← int_param ps 2%nat;
  md5_2 ← int_param ps 3%nat;
  Some (map (fun r => if has_path md5_1 md5_2 r then set_mtime r mtime else r)
            tbl).

Definition SqlDirentTouch_BindPathHash (h : Md5) : params -> params :=
  BindMd5 2 3 h.
Definition SqlDirentTouch_BindTimestamp (timestamp : Z) : params -> params :=
  BindInt64 1 timestamp.

(** *** SqlDirentUnlink *)

(** [DELETE FROM catalog WHERE (md5path_1 = :md5_1) AND (md5path_2 =
    :md5_2);] *)
Definition SqlDirentUnlink_Execute (ps : params) (tbl : list Row)
    : option (list Row) :=
  md5_1 ← int_param ps 1%nat;
  md5_2 ← int_param ps 2%nat;
  Some (List.filter (fun r => negb (has_path md5_1 md5_2 r)) tbl).

Definition SqlDirentUnlink_BindPathHash (h : Md5) : params -> params :=
  BindMd5 1 2 h.

(** *** The lookups *)

(** [SELECT ... FROM catalog WHERE (md5path_1 = :md5_1) AND (md5path_2 =
    :md5_2);]: the rows FetchRow steps through. *)
Definition SqlLookupPathHash_rows (ps : params) (tbl : list Row)
    : option (list Row) :=
  md5_1 ← int_param ps 1%nat;
  md5_2 ← int_param ps 2%nat;
  Some (List.filter (has_path md5_1 md5_2) tbl).

Definition SqlLookupPathHash_BindPathHash (h : Md5) : params -> params :=
  BindMd5 1 2 h.

(** [SELECT ... FROM catalog WHERE (parent_1 = :p_1) AND (parent_2 =
    :p_2);] *)
Definition SqlListing_rows (ps : params) (tbl : list Row)
    : option (list Row) :=
  p_1 ← int_param ps 1%nat;
  p_2 ← int_param ps 2%nat;
  Some (List.filter (has_parent p_1 p_2) tbl).

Definition SqlListing_BindPathHash (h : Md5) : params -> params :=
  BindMd5 1 2 h.

(** [SELECT ... FROM catalog WHERE rowid = :rowid;] *)
Definition SqlLookupInode_rows (ps : params) (tbl : list Row)
    : option (list Row) :=
  id ← int_param ps 1%nat;
  Some (List.filter (fun r => rowid r =? id) tbl).

Definition SqlLookupInode_BindRowId (inode : Z) : params -> params :=
  BindInt64 1 inode.

(** [hash::Md5 SqlLookup::GetPathHash()] and [GetParentPathHash()] on a
    fetched row: RetrieveMd5 on columns 8, 9 and 10, 11. *)
Definition GetPathHash (r : Row) : Md5 := (md5path_1 r, md5path_2 r).
Definition GetParentPathHash (r : Row) : Md5 := (parent_1 r, parent_2 r).

(** *** SqlIncLinkcount with its parameters *)

(** [:delta] is parameter 1, the path hash parameters 2 and 3. *)
Definition SqlIncLinkcount_BindPathHash (h : Md5) : params -> params :=
  BindMd5 2 3 h.
Definition SqlIncLinkcount_BindDelta (delta : Z) : params -> params :=
  BindInt 1 delta.

Definition SqlIncLinkcount_run (ps : params) (tbl : list Row)
    : option (list Row) :=
  delta ← int_param ps 1%nat;
  md5_1 ← int_param ps 2%nat;
  md5_2 ← int_param ps 3%nat;
  Some (SqlIncLinkcount_Execute tbl md5_1 md5_2 delta).

(** The primary key of table catalog: no two rows have the same path
    hash. *)
Definition keys_unique (tbl : list Row) : Prop :=
  NoDup (map GetPathHash tbl).

(** The two halves of an MD5 are sqlite3_int64 values. *)
Definition valid_md5 (h : Md5) : Prop := in_int64 h.1 /\ in_int64 h.2.

(** *** Statements bound and executed *)

(** A statement used the way Database::Create uses its SqlDirentInsert
    (catalog_sql.cc:172-175): every parameter is bound, then the
    statement is executed. *)
Definition insert_dirent (h p : Md5) (e : DirectoryEntry) (tbl : list Row)
    : option (list Row) :=
  SqlDirentInsert_Execute
    (SqlDirentInsert_BindDirent e
       (SqlDirentInsert_BindParentPathHash p
          (SqlDirentInsert_BindPathHash h ∅))) tbl.

Definition update_dirent (h : Md5) (e : DirectoryEntry) (tbl : list Row)
    : option (list Row) :=
  SqlDirentUpdate_Execute
    (SqlDirentUpdate_BindDirent e (SqlDirentUpdate_BindPathHash h ∅)) tbl.

Definition touch_path (h : Md5) (timestamp : Z) (tbl : list Row)
    : option (list Row) :=
  SqlDirentTouch_Execute
    (SqlDirentTouch_BindTimestamp timestamp (SqlDirentTouch_BindPathHash h ∅))
    tbl.

Definition unlink_path (h : Md5) (tbl : list Row) : option (list Row) :=
  SqlDirentUnlink_Execute (SqlDirentUnlink_BindPathHash h ∅) tbl.

Definition lookup_path (h : Md5) (tbl : list Row) : option (list Row) :=
  SqlLookupPathHash_rows (SqlLookupPathHash_BindPathHash h ∅) tbl.

Definition listing (h : Md5) (tbl : list Row) : option (list Row) :=
  SqlListing_rows (SqlListing_BindPathHash h ∅) tbl.

Definition lookup_rowid (id : Z) (tbl : list Row) : option (list Row) :=
  SqlLookupInode_rows (SqlLookupInode_BindRowId id ∅) tbl.

Definition inc_linkcount (h : Md5) (delta : Z) (tbl : list Row)
    : option (list Row) :=
  SqlIncLinkcount_run
    (SqlIncLinkcount_BindDelta delta (SqlIncLinkcount_BindPathHash h ∅)) tbl.

(** The row that holds the members of an entry, each in the column
    BindDirentFields and the INSERT statement name for it. *)
Definition row_of_entry (h p : Md5) (e : DirectoryEntry) (id : Z) : Row :=
  {| md5path_1 := h.1; md5path_2 := h.2;
     parent_1 := p.1; parent_2 := p.2;
     inode := int64 (inode_ e);
     hash := checksum_ e;
     size := int64 (size_ e);
     mode := int32 (mode_ e);
     mtime := int64 (mtime_ e);
     flags := int32 (CreateDatabaseFlags e);
     name := name_ e;
     symlink := symlink_ e;
     rowid := id |}.

(** The members of a row of which an UPDATE or a touch leaves the first
    five alone. *)
Definition same_place (r r' : Row) : Prop :=
  GetPathHash r' = GetPathHash r /\ GetParentPathHash r' = GetParentPathHash r /\
  rowid r' = rowid r.

(** ** Sample data *)

(** A row with path hash [(k, 0)] directly below the root, holding [v] in
    column inode. *)
Definition sample_row (k v : Z) : Row :=
  {| md5path_1 := k; md5path_2 := 0; parent_1 := 0; parent_2 := 0;
     inode := v; hash := []; size := 0; mode := S_IFREG; mtime := 0;
     flags := kFlagFile; name := []; symlink := []; rowid := k |}.



(** An environment with FOO=bar and ARCH=x86 and nothing else. *)
Definition sample_environ : list (bytes * bytes) :=
  [(str "FOO", str "bar"); (str "ARCH", str "x86")].

End CatalogSql.

(* ================================================================== *)
(** * lru_cache.h *)
(* ================================================================== *)

Module Lru.

(** Addresses of list entries created with [new]. *)
Abbreviation addr := nat.

(** An assertion that does not hold aborts the program: no result. *)
Definition assert (b : bool) : option unit := if b then Some () else None.

Section LruCache.
Context {Key : Type} `{Countable Key} {Value : Type}.

(** [new]: the address of the object created, given the addresses in
    use. *)
Variable alloc : gset addr -> addr.

(** class ListEntry<T> with its two subclasses: a ListEntryContent<T>
    holds [mContent], the ListEntryHead<T> holds none. *)
Record ListEntry : Type := mkListEntry {
  next : addr;
  prev : addr;
  mContent : option Key
}.

Abbreviation heap := (gmap addr ListEntry).

Definition set_next (this n : addr) (h : heap) : option heap :=
  e ← h !! this;
  Some (<[this := mkListEntry n (prev e) (mContent e)]> h).

Definition set_prev (this p : addr) (h : heap) : option heap :=
  e ← h !! this;
  Some (<[this := mkListEntry (next e) p (mContent e)]> h).

(** [ListEntry()]: a new entry is lonely. *)
Definition new_ListEntryContent (content : Key) (h : heap) : addr * heap :=
  let this := alloc (dom h) in
  (this, <[this := mkListEntry this this (Some content)]> h).

Definition new_ListEntryHead (h : heap) : addr * heap :=
  let this := alloc (dom h) in
  (this, <[this := mkListEntry this this None]> h).

(** virtual [isListHead] *)
Definition isListHead (this : addr) (h : heap) : option bool :=
  e ← h !! this;
  Some (match mContent e with None => true | Some _ => false end).

Definition isLonely (this : addr) (h : heap) : option bool :=
  e ← h !! this;
  Some ((next e =? this)%nat && (prev e =? this)%nat).

Definition getContent (this : addr) (h : heap) : option Key :=
  e ← h !! this;
  mContent e.

(** [ListEntry::insertAsPredecessor(ListEntryContent<T> *entry)] *)
Definition insertAsPredecessor (this entry : addr) (h : heap) : option heap :=
  l ← isLonely entry h; assert l;;
  hd ← isListHead entry h; assert (negb hd);;
  (* entry->next = this; entry->prev = this->prev; *)
  h ← set_next entry this h;
  t ← h !! this;
  h ← set_prev entry (prev t) h;
  (* this->prev->next = entry; this->prev = entry; *)
  t ← h !! this;
  h ← set_next (prev t) entry h;
  h ← set_prev this entry h;
  l ← isLonely entry h; assert (negb l);;
  Some h.

(** virtual [removeFromList]: ListEntryContent takes itself out of its
    list, ListEntryHead asserts false. *)
Definition removeFromList (this : addr) (h : heap) : option heap :=
  hd ← isListHead this h;
  if (hd : bool) then
    assert false;; Some h
  else
    l ← isLonely this h; assert (negb l);;
    (* this->prev->next = this->next; *)
    t ← h !! this;
    h ← set_next (prev t) (next t) h;
    (* this->next->prev = this->prev; *)
    t ← h !! this;
    h ← set_prev (next t) (prev t) h;
    (* this->next = this; this->prev = this; *)
    h ← set_next this this h;
    h ← set_prev this this h;
    l ← isLonely this h; assert l;;
    Some h.

(** [ListEntryHead::isEmpty] *)
Definition list_isEmpty (this : addr) (h : heap) : option bool :=
  isLonely this h.

(** [ListEntryHead::push_back(T content)] *)
Definition push_back (this : addr) (content : Key) (h : heap)
    : option (addr * heap) :=
  let '(newEntry, h) := new_ListEntryContent content h in
  h ← insertAsPredecessor this newEntry h;
  Some (newEntry, h).

(** [ListEntryHead::pop(ListEntry<T> *poppedEntry)] *)
Definition pop (poppedEntry : addr) (h : heap) : option (Key * heap) :=
  hd ← isListHead poppedEntry h; assert (negb hd);;
  let popped := poppedEntry in
  h ← removeFromList popped h;
  res ← getContent popped h;
  (* delete popped; *)
  let h := delete popped h in
  Some (res, h).

(** [ListEntryHead::pop_front()] *)
Definition pop_front (this : addr) (h : heap) : option (Key * heap) :=
  e ← list_isEmpty this h; assert (negb e);;
  t ← h !! this;
  pop (next t) h.

(** [ListEntryHead::moveToBack(ListEntryContent<T> *entry)] *)
Definition moveToBack (this entry : addr) (h : heap) : option heap :=
  l ← isLonely entry h; assert (negb l);;
  h ← removeFromList entry h;
  insertAsPredecessor this entry h.

(** [ListEntry::insertAsSuccessor(ListEntryContent<T> *entry)] *)
Definition insertAsSuccessor (this entry : addr) (h : heap) : option heap :=
  l ← isLonely entry h; assert l;;
  (* entry->next = this->next; entry->prev = this; *)
  t ← h !! this;
  h ← set_next entry (next t) h;
  h ← set_prev entry this h;
  (* this->next->prev = entry; this->next = entry; *)
  t ← h !! this;
  h ← set_prev (next t) entry h;
  h ← set_next this entry h;
  l ← isLonely entry h; assert (negb l);;
  Some h.

(** [ListEntryHead::push_front(T content)] *)
Definition push_front (this : addr) (content : Key) (h : heap)
    : option (addr * heap) :=
  let '(newEntry, h) := new_ListEntryContent content h in
  h ← insertAsSuccessor this newEntry h;
  Some (newEntry, h).

(** [ListEntryHead::pop_back()] *)
Definition pop_back (this : addr) (h : heap) : option (Key * heap) :=
  e ← list_isEmpty this h; assert (negb e);;
  t ← h !! this;
  pop (prev t) h.

(** [ListEntryHead::moveToFront(ListEntryContent<T> *entry)] *)
Definition moveToFront (this entry : addr) (h : heap) : option heap :=
  l ← isLonely entry h; assert (negb l);;
  h ← removeFromList entry h;
  insertAsSuccessor this entry h.

(** The loop of [ListEntryHead::clear()]: every round deletes the entry
    it stands on, so [fuel] above the number of entries is never used
    up. *)
Fixpoint clear_loop (fuel : nat) (entry : addr) (h : heap) : option heap :=
  match fuel with
  | O => None
  | S fuel' =>
      hd ← isListHead entry h;
      if negb (hd : bool) then
        let entryToDelete := entry in
        e ← h !! entry;
        let entry := next e in
        let h := delete entryToDelete h in
        clear_loop fuel' entry h
      else Some h
  end.

(** [ListEntryHead::clear()] *)
Definition clear (this : addr) (h : heap) : option heap :=
  t ← h !! this;
  h ← clear_loop (S (size h)) (next t) h;
  h ← set_next this this h;
  set_prev this this h.

(** [virtual ~ListEntryHead()], called by [delete] on the head: the list
    is cleared, then the head itself is freed. *)
Definition delete_ListEntryHead (this : addr) (h : heap) : option heap :=
  h ← clear this h;
  Some (delete this h).

(** [CacheEntry]: the list entry of the key and the value. *)
Record CacheEntry : Type := mkCacheEntry {
  listEntry : addr;
  value : Value
}.

(** class LruCache<Key, Value>; [entries] is the store the list entries
    live in. *)
Record LruCache : Type := mkLruCache {
  mCurrentCacheSize : Z;        (* unsigned int *)
  mMaxCacheSize : Z;            (* unsigned int *)
  mLruList : addr;
  mCache : gmap Key CacheEntry;
  entries : gmap addr ListEntry
}.

Definition with_entries (c : LruCache) (h : heap) : LruCache :=
  mkLruCache (mCurrentCacheSize c) (mMaxCacheSize c) (mLruList c) (mCache c) h.
Definition with_mCache (c : LruCache) (m : gmap Key CacheEntry) : LruCache :=
  mkLruCache (mCurrentCacheSize c) (mMaxCacheSize c) (mLruList c) m (entries c).
Definition with_mCurrentCacheSize (c : LruCache) (n : Z) : LruCache :=
  mkLruCache n (mMaxCacheSize c) (mLruList c) (mCache c) (entries c).
Definition with_mMaxCacheSize (c : LruCache) (n : Z) : LruCache :=
  mkLruCache (mCurrentCacheSize c) n (mLruList c) (mCache c) (entries c).

(** [LruCache(const unsigned int maxCacheSize)] *)
Definition LruCache_new (maxCacheSize : Z) : option LruCache :=
  assert (0 <? maxCacheSize);;
  let '(head, h) := new_ListEntryHead ∅ in
  Some (mkLruCache 0 maxCacheSize head ∅ h).

Definition isFull (c : LruCache) : bool :=
  mMaxCacheSize c <=? mCurrentCacheSize c.
Definition isEmpty (c : LruCache) : bool :=
  mCurrentCacheSize c =? 0.
Definition getNumberOfEntries (c : LruCache) : Z := mCurrentCacheSize c.

(** [lookupCache(key, entry)]: the found CacheEntry is copied out. *)
Definition lookupCache (key : Key) (c : LruCache) : option CacheEntry :=
  mCache c !! key.

(** [insertNewEntry(key, value)] *)
Definition insertNewEntry (key : Key) (v : Value) (c : LruCache)
    : option LruCache :=
  assert (negb (isFull c));;
  '(newEntry, h) ← push_back (mLruList c) key (entries c);
  let c := with_entries c h in
  let entry := mkCacheEntry newEntry v in
  let c := with_mCache c (<[key := entry]> (mCache c)) in
  Some (with_mCurrentCacheSize c (uint32 (mCurrentCacheSize c + 1))).

(** [updateExistingEntry(key, entry)] *)
Definition updateExistingEntry (key : Key) (entry : CacheEntry) (c : LruCache)
    : LruCache :=
  with_mCache c (<[key := entry]> (mCache c)).

(** [touchEntry(entry)] *)
Definition touchEntry (entry : CacheEntry) (c : LruCache) : option LruCache :=
  h ← moveToBack (mLruList c) (listEntry entry) (entries c);
  Some (with_entries c h).

(** [deleteOldestEntry()] *)
Definition deleteOldestEntry (c : LruCache) : option LruCache :=
  assert (negb (isEmpty c));;
  '(keyToDelete, h) ← pop_front (mLruList c) (entries c);
  let c := with_entries c h in
  let c := with_mCache c (delete keyToDelete (mCache c)) in
  Some (with_mCurrentCacheSize c (uint32 (mCurrentCacheSize c - 1))).

(** [virtual bool insert(const Key key, const Value value)] *)
Definition insert (key : Key) (v : Value) (c : LruCache)
    : option (bool * LruCache) :=
  match lookupCache key c with
  | Some entry =>
      let entry := mkCacheEntry (listEntry entry) v in
      let c := updateExistingEntry key entry c in
      c ← touchEntry entry c;
      Some (true, c)
  | None =>
      c ← (if isFull c then deleteOldestEntry c else Some c);
      c ← insertNewEntry key v c;
      Some (true, c)
  end.

(** [virtual bool lookup(const Key key, Value &value)]: the value written
    to the out-parameter on a hit, [None] for the return value false. *)
Definition lookup (key : Key) (c : LruCache)
    : option (option Value * LruCache) :=
  match lookupCache key c with
  | Some entry =>
      c ← touchEntry entry c;
      Some (Some (value entry), c)
  | None => Some (None, c)
  end.

(** [void drop()] *)
Definition drop (c : LruCache) : option LruCache :=
  let c := with_mCurrentCacheSize c 0 in
  h ← clear (mLruList c) (entries c);
  let c := with_entries c h in
  Some (with_mCache c ∅).

(** The loop of [resize]: every round takes one off [mCurrentCacheSize]. *)
Fixpoint resize_loop (fuel : nat) (newSize : Z) (c : LruCache)
    : option LruCache :=
  match fuel with
  | O => None
  | S fuel' =>
      if newSize <? mCurrentCacheSize c then
        c ← deleteOldestEntry c;
        resize_loop fuel' newSize c
      else Some c
  end.

(** [void resize(const unsigned int newSize)] *)
Definition resize (newSize : Z) (c : LruCache) : option LruCache :=
  assert (0 <? newSize);;
  c ← resize_loop (S (Z.to_nat (mCurrentCacheSize c))) newSize c;
  Some (with_mMaxCacheSize c newSize).

(** [virtual ~LruCache()]: [delete mLruList]; what is left of the store
    of list entries. *)
Definition LruCache_delete (c : LruCache) : option heap :=
  delete_ListEntryHead (mLruList c) (entries c).

(** The calls a client makes on a cache. *)
Inductive call : Type :=
| Insert (key : Key) (v : Value)
| Lookup (key : Key)
| Drop
| Resize (newSize : Z).

Definition run_call (o : call) (c : LruCache) : option LruCache :=
  match o with
  | Insert key v => snd <$> insert key v c
  | Lookup key => snd <$> lookup key c
  | Drop => drop c
  | Resize newSize => resize newSize c
  end.

Fixpoint run (calls : list call) (c : LruCache) : option LruCache :=
  match calls with
  | [] => Some c
  | o :: calls' => c ← run_call o c; run calls' c
  end.

(** ** The list a cache stands for *)

(** The members of a list entry, read off the store. *)
Definition next_of (h : heap) (a : addr) : option addr := next <$> h !! a.
Definition prev_of (h : heap) (a : addr) : option addr := prev <$> h !! a.
Definition content_of (h : heap) (a : addr) : option (option Key) :=
  mContent <$> h !! a.

(** [a'] follows [a]. *)
Definition linked (h : heap) (a a' : addr) : Prop :=
  next_of h a = Some a' /\ prev_of h a' = Some a.

(** The entries reached from [head] by [next], front to back, are the
    content entries [xs] (address and key), all distinct; the last one
    leads back to [head], and [prev] runs the other way round. *)
Definition ring (h : heap) (head : addr) (xs : list (addr * Key)) : Prop :=
  NoDup (head :: xs.*1) /\
  Forall2 (linked h) (head :: xs.*1) (xs.*1 ++ [head]) /\
  content_of h head = Some None /\
  Forall (fun x => content_of h x.1 = Some (Some x.2)) xs.

(** A cache holds the entries [ys] (address of the list entry, key,
    value), least recently used first: the list is made of their
    entries, the map binds exactly their keys, and the counter is their
    number, within the maximum. *)
Definition represents (c : LruCache) (ys : list (addr * Key * Value)) : Prop :=
  ring (entries c) (mLruList c) (ys.*1) /\
  NoDup (ys.*1.*2) /\
  (forall k a v, mCache c !! k = Some (mkCacheEntry a v) <-> (a, k, v) ∈ ys) /\
  mCurrentCacheSize c = Z.of_nat (length ys) /\
  mCurrentCacheSize c <= mMaxCacheSize c /\
  0 < mMaxCacheSize c < 2 ^ 32.

(** The store holds the head of the list and one list entry for each
    entry the cache counts, and nothing else. *)
Definition store_ok (c : LruCache) : Prop :=
  size (entries c) = S (Z.to_nat (mCurrentCacheSize c)).

End LruCache.

End Lru.

(* ================================================================== *)
(** * The entry cache as the specification describes it *)
(* ================================================================== *)

(** The cache of section 4.4 of the specification, written after its
    words: a bounded sequence of key-value pairs, least recently used
    first. *)
Module LruSpec.

Section Spec.
Context {Key : Type} `{EqDecision Key} {Value : Type}.

Record cache : Type := mkCache {
  items : list (Key * Value);
  capacity : Z
}.

Definition empty (capacity : Z) : cache := mkCache [] capacity.

Fixpoint find (k : Key) (l : list (Key * Value)) : option Value :=
  match l with
  | [] => None
  | (k', v) :: l' => if decide (k' = k) then Some v else find k l'
  end.

Fixpoint remove (k : Key) (l : list (Key * Value)) : list (Key * Value) :=
  match l with
  | [] => []
  | (k', v) :: l' =>
      if decide (k' = k) then remove k l' else (k', v) :: remove k l'
  end.

(** Promote to most recently used, with value [v]. *)
Definition promote (k : Key) (v : Value) (l : list (Key * Value))
    : list (Key * Value) :=
  remove k l ++ [(k, v)].

(** "Lookup on hit promotes the entry to most-recently-used." *)
Definition lookup (k : Key) (s : cache) : option Value * cache :=
  match find k (items s) with
  | Some v => (Some v, mkCache (promote k v (items s)) (capacity s))
  | None => (None, s)
  end.

(** "Insert on an existing key updates the value and promotes.
    Insert on a new key when full evicts the least-recently-used entry
    first." *)
Definition insert (k : Key) (v : Value) (s : cache) : cache :=
  match find k (items s) with
  | Some _ => mkCache (promote k v (items s)) (capacity s)
  | None =>
      if capacity s <=? Z.of_nat (length (items s)) then
        mkCache (tail (items s) ++ [(k, v)]) (capacity s)
      else mkCache (items s ++ [(k, v)]) (capacity s)
  end.

(** "Drop() (empty)" *)
Definition drop (s : cache) : cache := mkCache [] (capacity s).

(** "Resize(new_capacity) (evicts least-recently-used entries until size
    fits)" *)
Definition resize (new_capacity : Z) (s : cache) : cache :=
  mkCache
    (skipn (length (items s) - Z.to_nat new_capacity)%nat (items s))
    new_capacity.

Definition run_call (o : Lru.call) (s : cache) : cache :=
  match o with
  | Lru.Insert k v => insert k v s
  | Lru.Lookup k => snd (lookup k s)
  | Lru.Drop => drop s
  | Lru.Resize n => resize n s
  end.

Definition run (calls : list Lru.call) (s : cache) : cache :=
  fold_left (fun s o => run_call o s) calls s.

End Spec.

End LruSpec.

(** The key-value pairs of the entries of a cache, and what it means for
    a cache of lru_cache.h to hold the content of one of [LruSpec]. *)
Definition pairs_of {Key Value : Type} (ys : list (nat * Key * Value))
    : list (Key * Value) :=
  (fun y => (y.1.2, y.2)) <$> ys.

Definition refines {Key : Type} `{Countable Key} {Value : Type}
    (c : Lru.LruCache (Key := Key) (Value := Value))
    (s : LruSpec.cache (Key := Key) (Value := Value)) : Prop :=
  exists ys, Lru.represents c ys /\
             pairs_of ys = LruSpec.items s /\
             Lru.mMaxCacheSize c = LruSpec.capacity s.

(** Calls within the interface: a cache is resized to a positive size
    that an unsigned int holds. *)
Definition call_ok {Key Value : Type} (o : Lru.call (Key := Key) (Value := Value))
    : Prop :=
  match o with
  | Lru.Resize newSize => 0 < newSize < 2 ^ 32
  | _ => True
  end.

(** The states of a cache a client can bring about: made by the
    constructor with a maximum above 0, then used through calls within
    the interface. *)
Definition reachable {Key : Type} `{Countable Key} {Value : Type}
    (alloc : gset nat -> nat)
    (c : Lru.LruCache (Key := Key) (Value := Value)) : Prop :=
  exists (maxCacheSize : Z) (calls : list Lru.call) (c0 : Lru.LruCache),
    0 < maxCacheSize < 2 ^ 32 /\
    Forall call_ok calls /\
    Lru.LruCache_new alloc maxCacheSize = Some c0 /\
    Lru.run alloc calls c0 = Some c.

(** The value the map of a cache holds for a key. *)
Definition cached {Key : Type} `{Countable Key} {Value : Type}
    (c : Lru.LruCache (Key := Key) (Value := Value)) (k : Key) : option Value :=
  Lru.value <$> Lru.mCache c !! k.

(** The calls that insert the pairs of a list, one after the other. *)
Definition inserts {Key Value : Type} (kvs : list (Key * Value))
    : list (Lru.call (Key := Key) (Value := Value)) :=
  map (fun kv => Lru.Insert kv.1 kv.2) kvs.

(** A list of lru_cache.h with two entries: the head at address 0, then
    the entries at 1 and 2 with the keys 7 and 8. *)
Definition sample_list : gmap nat (Lru.ListEntry (Key := Z)) :=
  {[ 0%nat := Lru.mkListEntry 1 2 None;
     1%nat := Lru.mkListEntry 2 0 (Some 7);
     2%nat := Lru.mkListEntry 0 1 (Some 8) ]}.

(* ================================================================== *)
(** * cvmfs/src/cvmfs_sync_recursion.h *)
(* ================================================================== *)

Module Recursion.

(** [std::string::find_last_of(char)]: the offset of the last occurrence
    of the character, [None] for [npos]. *)
Fixpoint find_last_of (c : ascii) (s : bytes) : option nat :=
  match s with
  | [] => None
  | x :: s' =>
      match find_last_of c s' with
      | Some i => Some (S i)
      | None => if Ascii.eqb x c then Some 0%nat else None
      end
  end.

(** [std::string::substr(pos, len)], [len = None] for the default [npos]:
    what is left behind [pos], [len] characters of it at most;
    [std::out_of_range] is thrown ([None]) if [pos] is behind the end. *)
Definition substr (s : bytes) (pos : nat) (len : option nat) : option bytes :=
  if (pos <=? length s)%nat then
    Some (match len with
          | Some n => firstn n (skipn pos s)
          | None => skipn pos s
          end)
  else None.

(** [d_type] of a [dirent]: the three kinds the switch of [DoRecursion]
    has a case for, and every other kind. *)
Inductive d_type : Type := DT_DIR | DT_REG | DT_LNK | DT_other.

(** [DIR *]: what [opendir] gives for a path.  [NULL] when it fails; else
    the stream of the entries [readdir] returns, in that order, and
    whether [closedir] returns 0.  A [dirent] has its [d_name], its
    [d_type], and with it goes what [opendir] gives for that name below
    the path. *)
Inductive DIR : Type :=
| NULL
| stream (entries : list dirent) (closedir : bool)
with dirent : Type :=
| mkDirent (d_name : bytes) (type : d_type) (below : DIR).

Section RecursionEngine.
(** The state of the delegate [T *delegate_], on which the callbacks
    work. *)
Context {T : Type}.

Definition VoidCallback : Type := bytes -> bytes -> T -> T.
Definition BoolCallback : Type := bytes -> bytes -> T -> bool * T.

(** class RecursionEngine<T>; a callback that is NULL is [None]. *)
Record RecursionEngine : Type := mkRecursionEngine {
  relative_to_directory_ : bytes;
  recurse_ : bool;
  ignored_files_ : gset bytes;
  enteringDirectory : option VoidCallback;
  leavingDirectory : option VoidCallback;
  foundDirectory : option BoolCallback;
  foundDirectoryAfterRecursion : option VoidCallback;
  foundRegularFile : option VoidCallback;
  foundSymlink : option VoidCallback
}.

(** [Init()] *)
Definition Init (e : RecursionEngine) : RecursionEngine :=
  mkRecursionEngine
    (relative_to_directory_ e) (recurse_ e)
    ({[ str ".." ]} ∪ ({[ str "." ]} ∪ ignored_files_ e))
    (enteringDirectory e) (leavingDirectory e) (foundDirectory e)
    (foundDirectoryAfterRecursion e) (foundRegularFile e) (foundSymlink e).

(** [RecursionEngine(delegate, relativeToDirectory, recurse,
    ignoredFiles)] *)
Definition RecursionEngine_new (relativeToDirectory : bytes) (recurse : bool)
    (ignoredFiles : gset bytes) : RecursionEngine :=
  Init (mkRecursionEngine relativeToDirectory recurse ignoredFiles
          None None None None None None).

(** [GetRelativePath(absolute_path)]; [rel_dir_len] is an unsigned
    int. *)
Definition GetRelativePath (e : RecursionEngine) (absolute_path : bytes)
    : option bytes :=
  let rel_dir_len := uint32 (Z.of_nat (length (relative_to_directory_ e))) in
  if Z.of_nat (length absolute_path) <=? rel_dir_len then Some []
  else if 1 <? rel_dir_len then
    substr absolute_path (Z.to_nat (uint32 (rel_dir_len + 1))) None
  else if rel_dir_len =? 0 then Some absolute_path
  else if bool_decide (relative_to_directory_ e = str "/") then
    substr absolute_path 1 None
  else Some [].

(** [CutPathIntoParentAndFileName(path, parent_path, file_name)]: the
    two out-parameters. *)
Definition CutPathIntoParentAndFileName (path : bytes)
    : option (bytes * bytes) :=
  match find_last_of "/"%char path with
  | Some idx =>
      parent_path ← substr path 0 (Some idx);
      file_name ← substr path (idx + 1) None;
      Some (parent_path, file_name)
  | None => Some ([], path)
  end.

(** The two overloads of [Notify]. *)
Definition Notify_bool (e : RecursionEngine) (callback : option BoolCallback)
    (parent_path entry_name : bytes) (s : T) : option (bool * T) :=
  match callback with
  | None => Some (true, s)
  | Some f =>
      relative_path ← GetRelativePath e parent_path;
      Some (f relative_path entry_name s)
  end.

Definition Notify (e : RecursionEngine) (callback : option VoidCallback)
    (parent_path entry_name : bytes) (s : T) : option T :=
  match callback with
  | None => Some s
  | Some f =>
      relative_path ← GetRelativePath e parent_path;
      Some (f relative_path entry_name s)
  end.

(** The [while ((dit = portableReaddir(dip)) != NULL)] loop of
    [DoRecursion] over the entries of the open directory [path];
    [recursion below d_name] is [DoRecursion(path, dit->d_name)]. *)
Section ReaddirLoop.
Variable e : RecursionEngine.
Variable path : bytes.
Variable recursion : DIR -> bytes -> T -> option T.

Fixpoint readdir_loop (entries : list dirent) (s : T) : option T :=
  match entries with
  | [] => Some s
  | mkDirent d_name ty below :: entries' =>
      if decide (d_name ∈ ignored_files_ e) then readdir_loop entries' s
      else
        s ← match ty with
            | DT_DIR =>
                '(go, s) ← Notify_bool e (foundDirectory e) path d_name s;
                s ← (if (go : bool) && recurse_ e
                     then recursion below d_name s
                     else Some s);
                Notify e (foundDirectoryAfterRecursion e) path d_name s
            | DT_REG => Notify e (foundRegularFile e) path d_name s
            | DT_LNK => Notify e (foundSymlink e) path d_name s
            | DT_other => Some s
            end;
        readdir_loop entries' s
  end.

End ReaddirLoop.

(** [DoRecursion(parent_path, dir_name)]; [dip] is what
    [opendir(path.c_str())] gives. *)
Fixpoint DoRecursion (e : RecursionEngine) (dip : DIR)
    (parent_path dir_name : bytes) (s : T) {struct dip} : option T :=
  let path := parent_path ++ str "/" ++ dir_name in
  match dip with
  | NULL => Some s
  | stream entries closedir =>
      s ← Notify e (enteringDirectory e) parent_path dir_name s;
      s ← readdir_loop e path
            (fun below d_name s => DoRecursion e below path d_name s)
            entries s;
      if (closedir : bool)
      then Notify e (leavingDirectory e) parent_path dir_name s
      else Some s
  end.

Definition is_set {A : Type} (callback : option A) : bool :=
  match callback with Some _ => true | None => false end.

(** [Recurse(dir_path)]; [dip] is what [opendir] gives for the path made
    of the two parts of [dir_path]. *)
Definition Recurse (e : RecursionEngine) (dip : DIR) (dir_path : bytes)
    (s : T) : option T :=
  Lru.assert (is_set (enteringDirectory e) || is_set (leavingDirectory e) ||
              is_set (foundRegularFile e) || is_set (foundDirectory e) ||
              is_set (foundSymlink e));;
  '(parent_path, dir_name) ← CutPathIntoParentAndFileName dir_path;
  below ← (if (length (relative_to_directory_ e) =? 0)%nat then Some true
           else
             prefix ← substr dir_path 0
                        (Some (length (relative_to_directory_ e)));
             Some (bool_decide (prefix = relative_to_directory_ e)));
  Lru.assert below;;
  DoRecursion e dip parent_path dir_name s.

(** The part of a directory tree the engine looks at: the entries whose
    name is not among the ignored ones, and below an entry what
    [opendir] gives if the entry is a directory and the engine is to
    recurse. *)
Fixpoint visited_entries (e : RecursionEngine) (visited : DIR -> DIR)
    (entries : list dirent) : list dirent :=
  match entries with
  | [] => []
  | mkDirent d_name ty below :: entries' =>
      if decide (d_name ∈ ignored_files_ e)
      then visited_entries e visited entries'
      else mkDirent d_name ty
             match ty with
             | DT_DIR => if recurse_ e then visited below else NULL
             | _ => NULL
             end :: visited_entries e visited entries'
  end.

Fixpoint visited (e : RecursionEngine) (dip : DIR) : DIR :=
  match dip with
  | NULL => NULL
  | stream entries closedir =>
      stream (visited_entries e (visited e) entries) closedir
  end.

End RecursionEngine.

End Recursion.

(** A delegate that counts the calls of its callbacks, in an engine
    relative to /srv that ignores the name .cvmfscatalog, and a directory
    tree for it. *)
Definition sample_engine : Recursion.RecursionEngine (T := nat) :=
  let e := Recursion.RecursionEngine_new (T := nat) (str "/srv") true
             {[ str ".cvmfscatalog" ]} in
  Recursion.mkRecursionEngine
    (Recursion.relative_to_directory_ e) (Recursion.recurse_ e)
    (Recursion.ignored_files_ e)
    (Some (fun _ _ n => S n)) None None None None None.

Definition sample_tree : Recursion.DIR :=
  Recursion.stream
    [Recursion.mkDirent (str ".") Recursion.DT_DIR Recursion.NULL;
     Recursion.mkDirent (str "..") Recursion.DT_DIR Recursion.NULL;
     Recursion.mkDirent (str ".cvmfscatalog") Recursion.DT_REG Recursion.NULL;
     Recursion.mkDirent (str "bin") Recursion.DT_DIR
       (Recursion.stream
          [Recursion.mkDirent (str "tool") Recursion.DT_REG Recursion.NULL]
          true)]
    true.

(* ================================================================== *)
(** * Properties of dirent.h *)
(* ================================================================== *)

Section DirentFacts.
Import Dirent.

Lemma uint64_small z : 0 <= z < 2 ^ 64 -> uint64 z = z.
Proof. intros Hz. unfold uint64. apply Z.mod_small. exact Hz. Qed.

Lemma uint32_small z : 0 <= z < 2 ^ 32 -> uint32 z = z.
Proof. intros Hz. unfold uint32. apply Z.mod_small. exact Hz. Qed.

(** For 32-bit arguments the packed field is [g * 2^32 + n]: the two
    halves do not overlap. *)
Lemma pack_hardlinks_add g n :
  0 <= g < 2 ^ 32 -> 0 <= n < 2 ^ 32 ->
  pack_hardlinks g n = g * 2 ^ 32 + n.
Proof.
  intros Hg Hn. unfold pack_hardlinks.
  rewrite (uint32_small g), (uint32_small n) by lia.
  rewrite Z.shiftl_mul_pow2 by lia.
  rewrite uint64_small by lia.
  rewrite <- Z.lxor_lor, <- Z.add_nocarry_lxor; trivial.
  all: apply Z.bits_inj'; intros i Hi; rewrite Z.land_spec, Z.bits_0.
  all: destruct (Z.lt_ge_cases i 32) as [Hlt | Hge].
  all: try (rewrite Z.mul_pow2_bits_low by lia; reflexivity).
  all: rewrite (Z.bits_above_log2 n i), andb_false_r; trivial.
  all: try lia.
  all: destruct (Z.eq_dec n 0) as [-> | Hn0]; [simpl; lia |].
  all: apply Z.log2_lt_pow2; try lia.
  all: apply Z.lt_le_trans with (2 ^ 32); try lia.
  all: apply Z.pow_le_mono_r; lia.
Qed.

(** The arguments are taken as uint32_t. *)
Lemma pack_hardlinks_uint32 g n :
  pack_hardlinks g n = uint32 g * 2 ^ 32 + uint32 n.
Proof.
  assert (Hg : 0 <= uint32 g < 2 ^ 32) by (apply Z.mod_pos_bound; lia).
  assert (Hn : 0 <= uint32 n < 2 ^ 32) by (apply Z.mod_pos_bound; lia).
  rewrite <- (pack_hardlinks_add (uint32 g) (uint32 n) Hg Hn).
  unfold pack_hardlinks. rewrite !(uint32_small (uint32 _)) by assumption.
  reflexivity.
Qed.

Lemma pack_hardlinks_range g n :
  0 <= g < 2 ^ 32 -> 0 <= n < 2 ^ 32 -> 0 <= pack_hardlinks g n < 2 ^ 64.
Proof. intros Hg Hn. rewrite pack_hardlinks_add by assumption. lia. Qed.

Lemma Hardlinks2HardlinkGroup_pack g n :
  0 <= g < 2 ^ 32 -> 0 <= n < 2 ^ 32 ->
  Hardlinks2HardlinkGroup (pack_hardlinks g n) = g.
Proof.
  intros Hg Hn. unfold Hardlinks2HardlinkGroup.
  rewrite pack_hardlinks_add by assumption.
  rewrite Z.shiftr_div_pow2 by lia.
  rewrite Z.div_add_l by lia.
  rewrite (Z.div_small n) by lia.
  rewrite Z.add_0_r. apply uint32_small; lia.
Qed.

Lemma low32_pack g n :
  0 <= g < 2 ^ 32 -> 0 <= n < 2 ^ 32 ->
  uint32 (Z.shiftr (uint64 (Z.shiftl (pack_hardlinks g n) 32)) 32) = n.
Proof.
  intros Hg Hn. rewrite pack_hardlinks_add by assumption.
  rewrite Z.shiftl_mul_pow2 by lia. unfold uint64.
  replace ((g * 2 ^ 32 + n) * 2 ^ 32) with (n * 2 ^ 32 + g * 2 ^ 64) by lia.
  rewrite Z.mod_add by lia.
  rewrite Z.mod_small by lia.
  rewrite Z.shiftr_div_pow2 by lia.
  rewrite Z.div_mul by lia.
  apply uint32_small; lia.
Qed.

Lemma Hardlinks2Linkcount_pack g n :
  0 <= g < 2 ^ 32 -> 0 <= n < 2 ^ 32 -> (g, n) <> (0, 0) ->
  Hardlinks2Linkcount (pack_hardlinks g n) = n.
Proof.
  intros Hg Hn Hne. unfold Hardlinks2Linkcount.
  destruct (Z.eqb_spec (pack_hardlinks g n) 0) as [H0 | _].
  - rewrite pack_hardlinks_add in H0 by assumption.
    assert (g = 0) by lia. assert (n = 0) by lia. congruence.
  - apply low32_pack; assumption.
Qed.

(** C4: the hardlinks field keeps the group id in the high and the link
    count in the low 32 bits.  For 32-bit [g] and [n], an entry on which
    [set_hardlinks g n] was called reports hardlink group [g], and link
    count [n] unless both are 0; the raw value 0 decodes to group 0, link
    count 1. *)
Theorem hardlinks_field_roundtrip (e : DirectoryEntry) (g n : Z) :
  0 <= g < 2 ^ 32 -> 0 <= n < 2 ^ 32 ->
  hardlink_group (set_hardlinks e g n) = g /\
  Hardlinks2HardlinkGroup (hardlinks_ (set_hardlinks e g n)) = g /\
  ((g, n) <> (0, 0) -> linkcount (set_hardlinks e g n) = n) /\
  Hardlinks2HardlinkGroup 0 = 0 /\
  Hardlinks2Linkcount 0 = 1.
Proof.
  intros Hg Hn. unfold hardlink_group, linkcount. simpl.
  repeat split.
  - apply Hardlinks2HardlinkGroup_pack; assumption.
  - apply Hardlinks2HardlinkGroup_pack; assumption.
  - intros Hne. apply Hardlinks2Linkcount_pack; assumption.
Qed.

Lemma hardlinks_field_roundtrip_witness :
  hardlink_group (set_hardlinks zeroed_storage 7 3) = 7 /\
  linkcount (set_hardlinks zeroed_storage 7 3) = 3.
Proof.
  destruct (hardlinks_field_roundtrip zeroed_storage 7 3)
    as (Hg & _ & Hn & _); [lia | lia |].
  split; [exact Hg | apply Hn; discriminate].
Defined.

(** C10: the constructor taking a SpecialDirents yields an entry whose
    [GetSpecial] is [kDirentNegative] whatever the argument is, also for
    [kDirentNormal]; a default-constructed entry has [GetSpecial] equal to
    [kDirentNormal]. *)
Theorem special_constructor_is_negative :
  (forall (special_type : SpecialDirents) (uninit : DirectoryEntry),
      GetSpecial (DirectoryEntry_special special_type uninit) = kDirentNegative) /\
  (forall uninit : DirectoryEntry,
      GetSpecial (DirectoryEntry_special kDirentNormal uninit) = kDirentNegative) /\
  (forall uninit : DirectoryEntry,
      GetSpecial (DirectoryEntry_default uninit) = kDirentNormal).
Proof.
  repeat split; intros; reflexivity.
Qed.

End DirentFacts.

(* ================================================================== *)
(** * Properties of catalog_sql.cc *)
(* ================================================================== *)

Section FlagsFacts.
Import Dirent CatalogSql.

(** The three type bits of the flags value. *)
Lemma type_bits_of_flags (e : DirectoryEntry) :
  Z.land (CreateDatabaseFlags e) (Z.lor kFlagDir (Z.lor kFlagFile kFlagLink)) =
  if IsDirectory e then kFlagDir
  else if IsLink e then Z.lor kFlagFile kFlagLink
  else kFlagFile.
Proof.
  unfold CreateDatabaseFlags.
  destruct (IsNestedCatalogRoot e), (IsNestedCatalogMountpoint e),
    (IsDirectory e), (IsLink e); reflexivity.
Qed.

Lemma nested_bits_of_flags (e : DirectoryEntry) :
  Z.land (CreateDatabaseFlags e) kFlagDirNestedRoot = 0 \/
  Z.land (CreateDatabaseFlags e) kFlagDirNestedMountpoint = 0.
Proof.
  unfold CreateDatabaseFlags.
  destruct (IsNestedCatalogRoot e), (IsNestedCatalogMountpoint e),
    (IsDirectory e), (IsLink e); (left; reflexivity) || (right; reflexivity).
Qed.

(** C8: the flags value made for a row never holds both
    [kFlagDirNestedRoot] and [kFlagDirNestedMountpoint], whatever the two
    markers of the entry are, and its type bits are [kFlagDir] for a
    directory, [kFlagFile | kFlagLink] for a symlink and [kFlagFile] alone
    otherwise. *)
Theorem database_flags_exclusive (e : DirectoryEntry) :
  ~ (Z.land (CreateDatabaseFlags e) kFlagDirNestedRoot <> 0 /\
     Z.land (CreateDatabaseFlags e) kFlagDirNestedMountpoint <> 0) /\
  Z.land (CreateDatabaseFlags e) (Z.lor kFlagDir (Z.lor kFlagFile kFlagLink)) =
    (if IsDirectory e then kFlagDir
     else if IsLink e then Z.lor kFlagFile kFlagLink
     else kFlagFile).
Proof.
  split.
  - intros [Hr Hm]. destruct (nested_bits_of_flags e); contradiction.
  - apply type_bits_of_flags.
Qed.

End FlagsFacts.

Section ExpandSymlinkFacts.
Import Dirent CatalogSql.






(** C1: on the target "$(unterminated" the expansion writes "$(" and then
    goes on behind the character that follows it: the result is
    "$(nterminated" followed by the byte stored behind the target, and
    differs from the target.  (When that byte is a right parenthesis the
    whole of "unterminated" is taken for a variable name.) *)
Theorem unterminated_variable_drops_a_character :
  forall (getenv : environment) (past_end : ascii),
    ExpandSymlink getenv past_end (str "$(unterminated") =
      (if Ascii.eqb past_end ")" then
         Some (match getenv (str "unterminated") with
               | Some v => v
               | None => []
               end)
       else Some (str "$(nterminated" ++ [past_end])) /\
    ExpandSymlink getenv NUL (str "$(unterminated") <>
      Some (str "$(unterminated").
Proof.
  intros getenv past_end. split.
  - destruct past_end as [[] [] [] [] [] [] [] []]; vm_compute;
      try reflexivity; destruct (getenv _); reflexivity.
  - vm_compute. discriminate.
Qed.

(** C5: with FOO=bar and ARCH=x86 in the environment, "$(FOO)" expands to
    "bar" and "$(MISSING)" to the empty string; but on "/opt/$(ARCH)/lib"
    the characters before the first '$' and the character behind the ')'
    are lost and the byte stored behind the target is appended: the result
    is "x86lib" and that byte, not "/opt/x86/lib". *)
Theorem expansion_keeps_only_the_variable :
  forall past_end : ascii,
    ExpandSymlink (getenv_in sample_environ) past_end (str "$(FOO)") =
      Some (str "bar") /\
    ExpandSymlink (getenv_in sample_environ) past_end (str "$(MISSING)") =
      Some [] /\
    ExpandSymlink (getenv_in sample_environ) past_end (str "/opt/$(ARCH)/lib") =
      Some (str "x86lib" ++ [past_end]) /\
    ExpandSymlink (getenv_in sample_environ) past_end (str "/opt/$(ARCH)/lib") <>
      Some (str "/opt/x86/lib").
Proof.
  intros past_end.
  destruct past_end as [[] [] [] [] [] [] [] []];
    (split; [| split; [| split]]); vm_compute; (reflexivity || discriminate).
Qed.

End ExpandSymlinkFacts.

Section ExpandSymlinkShapes.
Import Dirent CatalogSql.

Lemma peek_middle (pre : bytes) (x : ascii) (rest : bytes) :
  peek (pre ++ x :: rest) (Z.of_nat (length pre)) = x.
Proof. unfold peek. rewrite Nat2Z.id. apply nth_middle. Qed.

Lemma find_dollar_none (past_end : ascii) :
  past_end <> "$"%char ->
  forall (suf pre : bytes) (fuel : nat),
    List.Forall (fun ch => ch <> "$"%char) suf ->
    (length suf + 1 < fuel)%nat ->
    find_dollar fuel (pre ++ suf ++ [past_end])
      (Z.of_nat (length pre + length suf)) (Z.of_nat (length pre)) = Some NotFound.
Proof.
  intros Hpe. induction suf as [| x suf IH]; intros pre fuel Hsuf Hfuel.
  - destruct fuel as [| [| fuel]]; [simpl in Hfuel; lia .. |].
    cbn [find_dollar app]. rewrite peek_middle.
    replace (Z.of_nat (length pre) <=? Z.of_nat (length pre + length []))
      with true by (symmetry; apply Z.leb_le; simpl; lia).
    replace (Ascii.eqb past_end "$") with false
      by (symmetry; apply Ascii.eqb_neq; exact Hpe).
    replace (Z.of_nat (length pre) + 1 <=? Z.of_nat (length pre + length []))
      with false by (symmetry; apply Z.leb_gt; simpl; lia).
    reflexivity.
  - destruct fuel as [| fuel]; [lia |].
    apply List.Forall_cons_iff in Hsuf as [Hx Hsuf].
    cbn [find_dollar]. change ((x :: suf) ++ [past_end]) with (x :: suf ++ [past_end]).
    rewrite peek_middle.
    replace (Z.of_nat (length pre) <=? Z.of_nat (length pre + length (x :: suf)))
      with true by (symmetry; apply Z.leb_le; lia).
    replace (Ascii.eqb x "$") with false
      by (symmetry; apply Ascii.eqb_neq; exact Hx).
    specialize (IH (pre ++ [x]) fuel Hsuf).
    rewrite <- app_assoc, length_app in IH. simpl in IH.
    replace (Z.of_nat (length pre) + 1) with (Z.of_nat (length pre + 1)) by lia.
    replace (length pre + length (x :: suf))%nat
      with (length pre + 1 + length suf)%nat by (simpl; lia).
    apply IH. simpl in Hfuel. lia.
Qed.

(** A target without '$' is left as it is, provided the byte stored
    behind it is not a '$' either. *)
Lemma ExpandSymlink_plain (getenv : environment) (past_end : ascii)
    (raw_symlink : bytes) :
  List.Forall (fun ch => ch <> "$"%char) raw_symlink ->
  past_end <> "$"%char ->
  ExpandSymlink getenv past_end raw_symlink = Some raw_symlink.
Proof.
  intros Hs Hpe. unfold ExpandSymlink. cbv zeta.
  change (0 + Z.of_nat (length raw_symlink)) with (Z.of_nat (length raw_symlink)).
  pose proof (find_dollar_none past_end Hpe raw_symlink []
                (rounds (Z.of_nat (length raw_symlink)) 0) Hs) as Hfind.
  simpl app in Hfind. simpl length in Hfind. simpl Nat.add in Hfind.
  change (Z.of_nat 0) with 0 in Hfind.
  rewrite Hfind; [reflexivity |].
  unfold rounds. lia.
Qed.

Lemma find_rpar_skip (cEnd : Z) (rest : bytes) :
  forall (var pre : bytes) (fuel : nat),
    List.Forall (fun ch => ch <> ")"%char) var ->
    Z.of_nat (length pre + length var) <= cEnd ->
    (length var < fuel)%nat ->
    find_rpar fuel (pre ++ var ++ ")"%char :: rest) cEnd (Z.of_nat (length pre)) =
      Some (Found (Z.of_nat (length pre + length var))).
Proof.
  induction var as [| x var IH]; intros pre fuel Hvar Hend Hfuel.
  - destruct fuel as [| fuel]; [simpl in Hfuel; lia |].
    cbn [find_rpar app]. rewrite peek_middle.
    replace (Z.of_nat (length pre) <=? cEnd) with true
      by (symmetry; apply Z.leb_le; simpl in Hend; lia).
    simpl. rewrite Nat.add_0_r. reflexivity.
  - destruct fuel as [| fuel]; [lia |].
    apply List.Forall_cons_iff in Hvar as [Hx Hvar].
    cbn [find_rpar]. change ((x :: var) ++ ")"%char :: rest)
      with (x :: var ++ ")"%char :: rest).
    rewrite peek_middle.
    replace (Z.of_nat (length pre) <=? cEnd) with true
      by (symmetry; apply Z.leb_le; simpl in Hend; lia).
    replace (Ascii.eqb x ")") with false
      by (symmetry; apply Ascii.eqb_neq; exact Hx).
    specialize (IH (pre ++ [x]) fuel Hvar).
    rewrite <- app_assoc, length_app in IH. simpl in IH.
    replace (Z.of_nat (length pre) + 1) with (Z.of_nat (length pre + 1)) by lia.
    replace (length pre + length (x :: var))%nat
      with (length pre + 1 + length var)%nat by (simpl; lia).
    apply IH; simpl in *; lia.
Qed.

(** A target that is one variable reference, "$(" VAR ")", expands to the
    value of VAR, and to the empty string when VAR is unset. *)
Lemma ExpandSymlink_single_variable (getenv : environment) (past_end : ascii)
    (var : bytes) :
  List.Forall (fun ch => ch <> ")"%char) var ->
  ExpandSymlink getenv past_end (str "$(" ++ var ++ str ")") =
    Some (match getenv (c_str (var ++ [NUL])) with
          | Some v => v
          | None => []
          end).
Proof.
  intros Hvar. unfold ExpandSymlink. cbv zeta.
  set (cEnd := 0 + Z.of_nat (length (str "$(" ++ var ++ str ")"))).
  assert (HcEnd : cEnd = Z.of_nat (length var) + 3).
  { unfold cEnd. rewrite !length_app. simpl. lia. }
  unfold rounds at 1. cbn [find_dollar].
  replace (0 <=? cEnd) with true by (symmetry; apply Z.leb_le; lia).
  change (peek ((str "$(" ++ var ++ str ")") ++ [past_end]) 0) with "$"%char.
  cbn [Ascii.eqb Bool.eqb]. unfold rounds at 1. cbn [expand_loop].
  replace (0 <=? cEnd) with true by (symmetry; apply Z.leb_le; lia).
  change (peek ((str "$(" ++ var ++ str ")") ++ [past_end]) 0) with "$"%char.
  change (peek ((str "$(" ++ var ++ str ")") ++ [past_end]) (0 + 1)) with "("%char.
  replace (0 <? cEnd - 2) with true by (symmetry; apply Z.ltb_lt; lia).
  cbn [Ascii.eqb Bool.eqb andb].
  change ((str "$(" ++ var ++ str ")") ++ [past_end])
    with (str "$(" ++ (var ++ str ")") ++ [past_end]).
  rewrite <- (app_assoc var).
  change (str ")" ++ [past_end]) with (")"%char :: [past_end]).
  change (0 + 2) with (Z.of_nat (length (str "$("))).
  rewrite (find_rpar_skip cEnd [past_end] var (str "$(")); trivial.
  2:{ simpl length. lia. }
  2:{ unfold rounds. simpl length. lia. }
  replace (Z.of_nat (length (str "$(") + length var) - Z.of_nat (length (str "$(")))
    with (Z.of_nat (length var)) by lia.
  assert (Hsub : sub_bytes (str "$(" ++ var ++ [")"%char; past_end])
                   (Z.of_nat (length (str "$("))) (Z.of_nat (length var)) = var).
  { unfold sub_bytes. rewrite !Nat2Z.id.
    change (skipn (length (str "$(")) (str "$(" ++ var ++ [")"%char; past_end]))
      with (var ++ [")"%char; past_end]).
    apply take_app_length. }
  rewrite Hsub.
  destruct (Z.to_nat (cEnd - 0 + 1)) as [| fuel] eqn:Hfuel; [lia |].
  cbn [expand_loop].
  replace (Z.of_nat (length (str "$(") + length var) + 1 + 1 <=? cEnd)
    with false by (symmetry; apply Z.leb_gt; simpl length; lia).
  destruct (getenv _); reflexivity.
Qed.


Lemma find_rpar_none (past_end : ascii) :
  past_end <> ")"%char ->
  forall (suf pre : bytes) (fuel : nat),
    List.Forall (fun ch => ch <> ")"%char) suf ->
    (length suf + 1 < fuel)%nat ->
    find_rpar fuel (pre ++ suf ++ [past_end])
      (Z.of_nat (length pre + length suf)) (Z.of_nat (length pre)) = Some NotFound.
Proof.
  intros Hpe. induction suf as [| x suf IH]; intros pre fuel Hsuf Hfuel.
  - destruct fuel as [| [| fuel]]; [simpl in Hfuel; lia .. |].
    cbn [find_rpar app]. rewrite peek_middle.
    replace (Z.of_nat (length pre) <=? Z.of_nat (length pre + length []))
      with true by (symmetry; apply Z.leb_le; simpl; lia).
    replace (Ascii.eqb past_end ")") with false
      by (symmetry; apply Ascii.eqb_neq; exact Hpe).
    replace (Z.of_nat (length pre) + 1 <=? Z.of_nat (length pre + length []))
      with false by (symmetry; apply Z.leb_gt; simpl; lia).
    reflexivity.
  - destruct fuel as [| fuel]; [lia |].
    apply List.Forall_cons_iff in Hsuf as [Hx Hsuf].
    cbn [find_rpar]. change ((x :: suf) ++ [past_end]) with (x :: suf ++ [past_end]).
    rewrite peek_middle.
    replace (Z.of_nat (length pre) <=? Z.of_nat (length pre + length (x :: suf)))
      with true by (symmetry; apply Z.leb_le; lia).
    replace (Ascii.eqb x ")") with false
      by (symmetry; apply Ascii.eqb_neq; exact Hx).
    specialize (IH (pre ++ [x]) fuel Hsuf).
    rewrite <- app_assoc, length_app in IH. simpl in IH.
    replace (Z.of_nat (length pre) + 1) with (Z.of_nat (length pre + 1)) by lia.
    replace (length pre + length (x :: suf))%nat
      with (length pre + 1 + length suf)%nat by (simpl; lia).
    apply IH. simpl in Hfuel. lia.
Qed.

(** Where no '$' stands, the second loop copies: every character up to
    the end, and the byte stored behind it. *)
Lemma expand_loop_copy (getenv : environment) (past_end : ascii) :
  past_end <> "$"%char ->
  forall (suf pre result : bytes) (fuel : nat),
    List.Forall (fun ch => ch <> "$"%char) suf ->
    (length suf + 1 < fuel)%nat ->
    expand_loop getenv fuel (pre ++ suf ++ [past_end])
      (Z.of_nat (length pre + length suf)) (Z.of_nat (length pre)) result =
      Some (result ++ suf ++ [past_end]).
Proof.
  intros Hpe. induction suf as [| x suf IH]; intros pre result fuel Hsuf Hfuel.
  - destruct fuel as [| [| fuel]]; [simpl in Hfuel; lia .. |].
    cbn [expand_loop app]. rewrite peek_middle.
    replace (Z.of_nat (length pre) <=? Z.of_nat (length pre + length []))
      with true by (symmetry; apply Z.leb_le; simpl; lia).
    replace (Ascii.eqb past_end "$") with false
      by (symmetry; apply Ascii.eqb_neq; exact Hpe).
    cbn [andb].
    replace (Z.of_nat (length pre) + 1 <=? Z.of_nat (length pre + length []))
      with false by (symmetry; apply Z.leb_gt; simpl; lia).
    reflexivity.
  - destruct fuel as [| fuel]; [lia |].
    apply List.Forall_cons_iff in Hsuf as [Hx Hsuf].
    cbn [expand_loop]. change ((x :: suf) ++ [past_end]) with (x :: suf ++ [past_end]).
    rewrite peek_middle.
    replace (Z.of_nat (length pre) <=? Z.of_nat (length pre + length (x :: suf)))
      with true by (symmetry; apply Z.leb_le; lia).
    replace (Ascii.eqb x "$") with false
      by (symmetry; apply Ascii.eqb_neq; exact Hx).
    cbn [andb].
    specialize (IH (pre ++ [x]) (result ++ [x]) fuel Hsuf).
    rewrite <- !app_assoc, length_app in IH. simpl in IH.
    replace (Z.of_nat (length pre) + 1) with (Z.of_nat (length pre + 1)) by lia.
    replace (length pre + length (x :: suf))%nat
      with (length pre + 1 + length suf)%nat by (simpl; lia).
    apply IH. simpl in Hfuel. lia.
Qed.

(** A target "$(" followed by characters among which there is no ')' and
    no further '$' loses the first of these characters and gains the byte
    stored behind it (when that byte is none of the two either). *)
Lemma ExpandSymlink_unterminated (getenv : environment) (past_end x : ascii)
    (rest : bytes) :
  List.Forall (fun ch => ch <> ")"%char) (x :: rest) ->
  List.Forall (fun ch => ch <> "$"%char) rest ->
  past_end <> ")"%char -> past_end <> "$"%char ->
  ExpandSymlink getenv past_end (str "$(" ++ x :: rest) =
    Some (str "$(" ++ rest ++ [past_end]).
Proof.
  intros Hrpar Hdollar Hpe1 Hpe2. unfold ExpandSymlink. cbv zeta.
  set (cEnd := 0 + Z.of_nat (length (str "$(" ++ x :: rest))).
  assert (HcEnd : cEnd = Z.of_nat (length rest) + 3).
  { unfold cEnd. rewrite !length_app. simpl. lia. }
  unfold rounds at 1. cbn [find_dollar].
  replace (0 <=? cEnd) with true by (symmetry; apply Z.leb_le; lia).
  change (peek ((str "$(" ++ x :: rest) ++ [past_end]) 0) with "$"%char.
  cbn [Ascii.eqb Bool.eqb].
  destruct (rounds cEnd 0) as [| fuel] eqn:Hfuel; [discriminate |].
  assert (Hf : (length rest + 1 < fuel)%nat).
  { unfold rounds in Hfuel. lia. }
  cbn [expand_loop].
  replace (0 <=? cEnd) with true by (symmetry; apply Z.leb_le; lia).
  change (peek ((str "$(" ++ x :: rest) ++ [past_end]) 0) with "$"%char.
  change (peek ((str "$(" ++ x :: rest) ++ [past_end]) (0 + 1)) with "("%char.
  replace (0 <? cEnd - 2) with true by (symmetry; apply Z.ltb_lt; lia).
  cbn [Ascii.eqb Bool.eqb andb].
  change ((str "$(" ++ x :: rest) ++ [past_end])
    with (str "$(" ++ (x :: rest) ++ [past_end]).
  replace cEnd with (Z.of_nat (length (str "$(") + length (x :: rest)))
    by (simpl length; lia).
  change (0 + 2) with (Z.of_nat (length (str "$("))).
  rewrite (find_rpar_none past_end Hpe1 (x :: rest) (str "$(")); trivial.
  2:{ unfold rounds. simpl length. lia. }
  change (str "$(" ++ (x :: rest) ++ [past_end])
    with ((str "$(" ++ [x]) ++ rest ++ [past_end]).
  replace (Z.of_nat (length (str "$(")) + 1)
    with (Z.of_nat (length (str "$(" ++ [x]))) by (simpl length; lia).
  replace (length (str "$(") + length (x :: rest))%nat
    with (length (str "$(" ++ [x]) + length rest)%nat by (simpl length; lia).
  apply (expand_loop_copy getenv past_end Hpe2 rest); assumption.
Qed.

End ExpandSymlinkShapes.

Section GetDirentFacts.
Import Dirent CatalogSql.

Lemma schema_below_2_spec (catalog : Catalog) :
  schema_below_2 catalog = true <-> (schema catalog < 2)%Q.
Proof.
  unfold schema_below_2. rewrite negb_true_iff.
  split.
  - intros Hb. apply Qnot_le_lt. intros Hle.
    apply Qle_bool_iff in Hle. congruence.
  - intros Hlt. destruct (Qle_bool 2 (schema catalog)) eqn:Hb; [| reflexivity].
    apply Qle_bool_iff in Hb. exfalso. exact (Qlt_not_le _ _ Hlt Hb).
Qed.


End GetDirentFacts.

Section HardlinkStatementFacts.
Import Dirent CatalogSql.

Lemma int64_add_multiple z m : int64 (z + m * 2 ^ 64) = int64 z.
Proof.
  unfold int64. replace (z + m * 2 ^ 64 + 2 ^ 63) with (z + 2 ^ 63 + m * 2 ^ 64) by lia.
  rewrite Z.mod_add by lia. reflexivity.
Qed.

Lemma int64_small z : - 2 ^ 63 <= z < 2 ^ 63 -> int64 z = z.
Proof. intros Hz. unfold int64. rewrite Z.mod_small by lia. lia. Qed.

Lemma int64_multiple z : exists q, int64 z = z + q * 2 ^ 64.
Proof.
  unfold int64. exists (- ((z + 2 ^ 63) / 2 ^ 64)).
  pose proof (Z.div_mod (z + 2 ^ 63) (2 ^ 64) ltac:(lia)). lia.
Qed.

(** The CASE of the statement sees link count 2 in every stored field
    whose low half is 2, and yields 0 whatever delta is. *)
Lemma SqlIncLinkcount_case_at_two (g delta : Z) :
  SqlIncLinkcount_case (stored_hardlinks g 2) delta = 0.
Proof.
  unfold SqlIncLinkcount_case, stored_hardlinks, sql_shiftl, sql_shiftr.
  assert (Hg : 0 <= uint32 g < 2 ^ 32) by (apply Z.mod_pos_bound; lia).
  rewrite pack_hardlinks_uint32. change (uint32 2) with 2.
  destruct (int64_multiple (uint32 g * 2 ^ 32 + 2)) as [q ->].
  rewrite Z.shiftl_mul_pow2 by lia.
  replace ((uint32 g * 2 ^ 32 + 2 + q * 2 ^ 64) * 2 ^ 32)
    with (2 ^ 33 + (uint32 g + q * 2 ^ 32) * 2 ^ 64) by lia.
  rewrite int64_add_multiple, int64_small by lia.
  reflexivity.
Qed.

(** C2: the CASE of the statement of SqlIncLinkcount yields 0 for every
    field with link count 2 and every delta, also a positive one.  Take
    two rows of hardlink group 5 with link count 2, and an ordinary row.
    Executed with delta = +1 on the first row, the statement of
    SqlIncLinkcount stores 0 in both rows of the group: they come out with
    group 0 and link count 1 instead of group 5 and link count 3.  With
    delta = -1 the same happens, as intended for a decrement from 2; on a
    group with link count 3, delta = -1 and delta = +1 give link counts 2
    and 4 and keep the group. *)
Theorem increment_at_two_clears_group :
  (forall g delta : Z, SqlIncLinkcount_case (stored_hardlinks g 2) delta = 0) /\
  let two := [sample_row 1 (stored_hardlinks 5 2);
              sample_row 2 (stored_hardlinks 5 2);
              sample_row 3 0] in
  let three := [sample_row 1 (stored_hardlinks 5 3);
                sample_row 2 (stored_hardlinks 5 3);
                sample_row 4 (stored_hardlinks 5 3)] in
  let decoded tbl := map (fun r => (row_hardlink_group r, row_linkcount r)) tbl in
  decoded two = [(5, 2); (5, 2); (0, 1)] /\
  decoded (SqlIncLinkcount_Execute two 1 0 1) = [(0, 1); (0, 1); (0, 1)] /\
  decoded (SqlIncLinkcount_Execute two 1 0 (-1)) = [(0, 1); (0, 1); (0, 1)] /\
  decoded (SqlIncLinkcount_Execute three 1 0 (-1)) = [(5, 2); (5, 2); (5, 2)] /\
  decoded (SqlIncLinkcount_Execute three 1 0 1) = [(5, 4); (5, 4); (5, 4)].
Proof.
  split; [exact SqlIncLinkcount_case_at_two |].
  cbv zeta. repeat split; vm_compute; reflexivity.
Qed.

Lemma fold_left_max_ge (l : list Z) :
  forall a, a <= fold_left Z.max l a /\
            Forall (fun x => x <= fold_left Z.max l a) l.
Proof.
  induction l as [| x l IH]; intros a; simpl.
  - split; [lia | constructor].
  - destruct (IH (Z.max a x)) as [Hm Hall]. split; [lia |].
    constructor; [lia | exact Hall].
Qed.

Lemma fold_left_max_in (l : list Z) :
  forall a, fold_left Z.max l a = a \/ In (fold_left Z.max l a) l.
Proof.
  induction l as [| x l IH]; intros a; simpl; [auto |].
  destruct (IH (Z.max a x)) as [Heq | Hin]; [| auto].
  destruct (Z.max_spec a x) as [[_ Hm] | [_ Hm]]; rewrite Hm in *; auto.
Qed.

(** The row SELECT max(inode) reports. *)
Lemma select_max_inode_spec (tbl : list Row) :
  tbl <> [] ->
  exists m, select_max_inode tbl = Some m /\
            (exists r, In r tbl /\ inode r = m) /\
            (forall r, In r tbl -> inode r <= m).
Proof.
  destruct tbl as [| r0 tbl]; [congruence |]. intros _. simpl.
  eexists. split; [reflexivity |].
  destruct (fold_left_max_ge (map inode tbl) (inode r0)) as [H0 Hall].
  split.
  - destruct (fold_left_max_in (map inode tbl) (inode r0)) as [Heq | Hin].
    + exists r0. auto.
    + apply in_map_iff in Hin. destruct Hin as (r & Hr & Hin). exists r. auto.
  - intros r [<- | Hin]; [exact H0 |].
    rewrite List.Forall_forall in Hall. apply Hall. apply in_map. exact Hin.
Qed.

Lemma group_of_nonnegative v :
  0 <= v < 2 ^ 63 ->
  Hardlinks2HardlinkGroup (uint64 v) = v / 2 ^ 32 /\ 0 <= v / 2 ^ 32 < 2 ^ 31.
Proof.
  intros Hv. unfold Hardlinks2HardlinkGroup.
  rewrite uint64_small by lia. rewrite Z.shiftr_div_pow2 by lia.
  assert (0 <= v / 2 ^ 32 < 2 ^ 31).
  { split; [apply Z.div_pos; lia |]. apply Z.div_lt_upper_bound; lia. }
  split; [apply uint32_small; lia | assumption].
Qed.

(** Where the signed comparison of max(inode) does no harm: when every
    value of column inode is non-negative, that is when every hardlink
    group id is below 2^31, GetMaxGroupId on a non-empty table is the
    largest hardlink group id of the table, and that number plus one is
    a 32-bit value above the group id of every row. *)
Theorem max_group_id_of_nonnegative_rows (tbl : list Row) :
  tbl <> [] ->
  Forall (fun r => 0 <= inode r < 2 ^ 63) tbl ->
  (exists r, In r tbl /\ row_hardlink_group r = GetMaxGroupId tbl) /\
  (forall r, In r tbl -> row_hardlink_group r <= GetMaxGroupId tbl) /\
  (forall r, In r tbl -> row_hardlink_group r < GetMaxGroupId tbl + 1) /\
  GetMaxGroupId tbl + 1 < 2 ^ 32.
Proof.
  intros Hne Hall. rewrite List.Forall_forall in Hall.
  destruct (select_max_inode_spec tbl Hne) as (m & Hm & (rm & Hrm & Hmv) & Hle).
  assert (Hgm : GetMaxGroupId tbl = m / 2 ^ 32 /\ 0 <= m / 2 ^ 32 < 2 ^ 31).
  { unfold GetMaxGroupId. rewrite Hm. simpl RetrieveInt64.
    pose proof (Hall rm Hrm) as Hr. rewrite Hmv in Hr.
    destruct (group_of_nonnegative m Hr) as [Hg Hb].
    unfold Hardlinks2HardlinkGroup in Hg. rewrite uint64_small in Hg by lia.
    auto. }
  destruct Hgm as [Hgm Hb].
  assert (Hrow : forall r, In r tbl -> row_hardlink_group r <= GetMaxGroupId tbl).
  { intros r Hr. unfold row_hardlink_group.
    destruct (group_of_nonnegative (inode r) (Hall r Hr)) as [-> _].
    rewrite Hgm. apply Z.div_le_mono; [lia | apply Hle; exact Hr]. }
  split; [| split; [exact Hrow | split]].
  - exists rm. split; [exact Hrm |]. unfold row_hardlink_group.
    destruct (group_of_nonnegative (inode rm) (Hall rm Hrm)) as [-> _].
    rewrite Hgm, Hmv. reflexivity.
  - intros r Hr. specialize (Hrow r Hr). lia.
  - lia.
Qed.

Lemma max_group_id_of_nonnegative_rows_witness :
  let tbl := [sample_row 1 (stored_hardlinks 7 2);
              sample_row 2 (stored_hardlinks 9 3);
              sample_row 3 0] in
  GetMaxGroupId tbl = 9 /\
  (forall r, In r tbl -> row_hardlink_group r < GetMaxGroupId tbl + 1).
Proof.
  cbv zeta. split; [vm_compute; reflexivity |].
  apply (max_group_id_of_nonnegative_rows
           [sample_row 1 (stored_hardlinks 7 2);
            sample_row 2 (stored_hardlinks 9 3);
            sample_row 3 0]).
  - discriminate.
  - repeat constructor; vm_compute; congruence.
Defined.

(** C6: a table with a row of hardlink group 2^31 and a row of hardlink
    group 1, both of link count 2.  The group id 2^31 is stored as a
    negative INTEGER, so max(inode) is the value of the row of group 1
    and GetMaxGroupId is 1, although the largest group id of the table
    is 2^31: the next group id 1 + 1 is not above every group id of the
    table. *)
Theorem max_group_id_misses_large_groups :
  let tbl := [sample_row 1 (stored_hardlinks (2 ^ 31) 2);
              sample_row 2 (stored_hardlinks 1 2)] in
  Forall (fun r => in_int64 (inode r)) tbl /\
  map row_hardlink_group tbl = [2 ^ 31; 1] /\
  map row_linkcount tbl = [2; 2] /\
  select_max_inode tbl = Some (stored_hardlinks 1 2) /\
  GetMaxGroupId tbl = 1 /\
  fold_left Z.max (map row_hardlink_group tbl) 0 = 2 ^ 31 /\
  ~ (forall r, In r tbl -> row_hardlink_group r < GetMaxGroupId tbl + 1).
Proof.
  cbv zeta. split; [| split; [| split; [| split; [| split; [| split]]]]].
  - repeat constructor; vm_compute; congruence.
  - vm_compute. reflexivity.
  - vm_compute. reflexivity.
  - vm_compute. reflexivity.
  - vm_compute. reflexivity.
  - vm_compute. reflexivity.
  - intros Hall.
    specialize (Hall (sample_row 1 (stored_hardlinks (2 ^ 31) 2)) (or_introl eq_refl)).
    vm_compute in Hall. discriminate.
Qed.

End HardlinkStatementFacts.

(* ================================================================== *)
(** * Properties of lru_cache.h *)
(* ================================================================== *)

Section ListEntryFacts.
Context {Key : Type} `{Countable Key}.
Import Lru.

Implicit Types (h : gmap nat (ListEntry (Key := Key))) (a p n : nat).

(** Reading the members of an entry. *)
Lemma next_of_Some h a n :
  next_of h a = Some n -> exists e, h !! a = Some e /\ next e = n.
Proof. unfold next_of. intros Hn. apply fmap_Some in Hn as (e & He & ->). eauto. Qed.

Lemma prev_of_Some h a p :
  prev_of h a = Some p -> exists e, h !! a = Some e /\ prev e = p.
Proof. unfold prev_of. intros Hp. apply fmap_Some in Hp as (e & He & ->). eauto. Qed.

Lemma content_of_Some h a c :
  content_of h a = Some c -> exists e, h !! a = Some e /\ mContent e = c.
Proof. unfold content_of. intros Hc. apply fmap_Some in Hc as (e & He & ->). eauto. Qed.

Lemma isLonely_spec h a n p :
  next_of h a = Some n -> prev_of h a = Some p ->
  isLonely a h = Some ((n =? a)%nat && (p =? a)%nat).
Proof.
  intros Hn Hp. apply next_of_Some in Hn as (e & He & <-).
  apply prev_of_Some in Hp as (e' & He' & <-).
  unfold isLonely. rewrite He. simpl. congruence.
Qed.

Lemma isListHead_spec h a c :
  content_of h a = Some c ->
  isListHead a h = Some (match c with None => true | Some _ => false end).
Proof.
  intros Hc. apply content_of_Some in Hc as (e & He & <-).
  unfold isListHead. rewrite He. reflexivity.
Qed.

Lemma getContent_spec h a c :
  content_of h a = Some c -> getContent a h = c.
Proof.
  intros Hc. apply content_of_Some in Hc as (e & He & <-).
  unfold getContent. rewrite He. reflexivity.
Qed.

(** Writing one member leaves the others, and the other entries, alone. *)
Lemma set_next_spec h p n :
  is_Some (h !! p) ->
  exists h', set_next p n h = Some h' /\
    (forall a, next_of h' a = if decide (a = p) then Some n else next_of h a) /\
    (forall a, prev_of h' a = prev_of h a) /\
    (forall a, content_of h' a = content_of h a).
Proof.
  intros [e He]. unfold set_next. rewrite He. simpl.
  eexists. split; [reflexivity |].
  unfold next_of, prev_of, content_of.
  repeat split; intros a; rewrite lookup_insert;
    repeat case_decide; subst; try congruence; rewrite ?He; reflexivity.
Qed.

Lemma set_prev_spec h p n :
  is_Some (h !! p) ->
  exists h', set_prev p n h = Some h' /\
    (forall a, next_of h' a = next_of h a) /\
    (forall a, prev_of h' a = if decide (a = p) then Some n else prev_of h a) /\
    (forall a, content_of h' a = content_of h a).
Proof.
  intros [e He]. unfold set_prev. rewrite He. simpl.
  eexists. split; [reflexivity |].
  unfold next_of, prev_of, content_of.
  repeat split; intros a; rewrite lookup_insert;
    repeat case_decide; subst; try congruence; rewrite ?He; reflexivity.
Qed.

Lemma next_of_is_Some h a n : next_of h a = Some n -> is_Some (h !! a).
Proof. intros Hn. apply next_of_Some in Hn as (e & He & _). eauto. Qed.

Lemma prev_of_is_Some h a p : prev_of h a = Some p -> is_Some (h !! a).
Proof. intros Hp. apply prev_of_Some in Hp as (e & He & _). eauto. Qed.

End ListEntryFacts.

Section RingFacts.
Context {Key : Type} `{Countable Key}.
Import Lru.

Implicit Types (h : gmap nat (ListEntry (Key := Key))) (a p n head : nat).
Implicit Types (xs : list (nat * Key)).

Lemma Forall2_impl_elem {A B : Type} (P Q : A -> B -> Prop) (l : list A) (k : list B) :
  Forall2 P l k ->
  (forall x y, x ∈ l -> y ∈ k -> P x y -> Q x y) ->
  Forall2 Q l k.
Proof.
  induction 1 as [| x y l k Hxy Hlk IH]; intros Himp; constructor.
  - apply Himp; [left | left | exact Hxy].
  - apply IH. intros x' y' Hx' Hy'. apply Himp; right; assumption.
Qed.

Lemma snoc_exists {A : Type} (l : list A) :
  forall x : A, exists l' z, x :: l = l' ++ [z].
Proof.
  induction l as [| y l IH]; intros x.
  - exists [], x. reflexivity.
  - destruct (IH y) as (l' & z & Heq). exists (x :: l'), z.
    rewrite Heq. reflexivity.
Qed.

Lemma linked_preserved h h' a a' :
  next_of h' a = next_of h a -> prev_of h' a' = prev_of h a' ->
  linked h a a' -> linked h' a a'.
Proof. unfold linked. intros -> ->. trivial. Qed.

(** A list depends on the entries it is made of only. *)
Lemma ring_ext h h' head xs :
  (forall a, a ∈ head :: xs.*1 -> h' !! a = h !! a) ->
  ring h head xs -> ring h' head xs.
Proof.
  intros Hsame (Hnd & Hlinks & Hhead & Hcont).
  assert (Hn : forall a, a ∈ head :: xs.*1 -> next_of h' a = next_of h a).
  { intros a Ha. unfold next_of. rewrite Hsame; trivial. }
  assert (Hp : forall a, a ∈ head :: xs.*1 -> prev_of h' a = prev_of h a).
  { intros a Ha. unfold prev_of. rewrite Hsame; trivial. }
  assert (Hc : forall a, a ∈ head :: xs.*1 -> content_of h' a = content_of h a).
  { intros a Ha. unfold content_of. rewrite Hsame; trivial. }
  split; [exact Hnd |]. split; [| split].
  - eapply Forall2_impl_elem; [exact Hlinks |].
    intros a a' Ha Ha'. apply linked_preserved; [apply Hn; exact Ha |].
    apply Hp. apply elem_of_app in Ha' as [Ha' | Ha']; [right; exact Ha' |].
    apply list_elem_of_singleton in Ha'. subst a'. left.
  - rewrite Hc; [exact Hhead | left].
  - rewrite Forall_forall in *. intros x Hx. rewrite Hc; [apply Hcont; exact Hx |].
    right. apply list_elem_of_fmap. eauto.
Qed.

(** The entries of a list are in the store. *)
Lemma ring_in_store h head xs a :
  ring h head xs -> a ∈ head :: xs.*1 -> is_Some (h !! a).
Proof.
  intros (_ & _ & Hhead & Hcont) Ha.
  apply elem_of_cons in Ha as [-> | Ha].
  - apply content_of_Some in Hhead as (e & He & _). eauto.
  - apply list_elem_of_fmap in Ha as (x & -> & Hx).
    rewrite Forall_forall in Hcont. specialize (Hcont x Hx).
    apply content_of_Some in Hcont as (e & He & _). eauto.
Qed.

(** Entering a lonely content entry in front of the head puts it last. *)
Lemma insertAsPredecessor_ring h head xs x k :
  ring h head xs ->
  x ∉ head :: xs.*1 ->
  h !! x = Some (mkListEntry x x (Some k)) ->
  exists h', insertAsPredecessor head x h = Some h' /\
             ring h' head (xs ++ [(x, k)]).
Proof.
  intros (Hnd & Hlinks & Hhead & Hcont) Hx Hhx.
  destruct (snoc_exists (xs.*1) head) as (l' & b & Hsnoc).
  rewrite Hsnoc in Hlinks, Hnd.
  apply Forall2_app_inv in Hlinks as [Hl' Hb].
  2:{ apply (f_equal length) in Hsnoc. rewrite length_app in Hsnoc.
      simpl in Hsnoc. lia. }
  apply Forall2_cons_1 in Hb as [[HbH HHb] _].
  assert (Hxl' : x ∉ l' ++ [b]) by (rewrite <- Hsnoc; exact Hx).
  assert (HxH : x <> head) by (intros ->; apply Hx; left).
  assert (Hxb : x <> b).
  { intros ->. apply Hxl'. apply elem_of_app. right. left. }
  unfold insertAsPredecessor.
  rewrite (isLonely_spec h x x x) by (unfold next_of, prev_of; rewrite Hhx; reflexivity).
  rewrite !Nat.eqb_refl. simpl.
  rewrite (isListHead_spec h x (Some k)) by (unfold content_of; rewrite Hhx; reflexivity).
  simpl.
  destruct (set_next_spec h x head) as (h1 & -> & Hn1 & Hp1 & Hc1); [eauto |].
  simpl.
  assert (HpH1 : prev_of h1 head = Some b) by (rewrite Hp1; exact HHb).
  destruct (prev_of_Some _ _ _ HpH1) as (t1 & -> & Ht1). simpl. rewrite Ht1.
  destruct (set_prev_spec h1 x b) as (h2 & -> & Hn2 & Hp2 & Hc2).
  { apply (next_of_is_Some h1 x head). rewrite Hn1. rewrite decide_True; trivial. }
  simpl.
  assert (HpH2 : prev_of h2 head = Some b).
  { rewrite Hp2, decide_False by congruence. exact HpH1. }
  destruct (prev_of_Some _ _ _ HpH2) as (t2 & -> & Ht2). simpl. rewrite Ht2.
  destruct (set_next_spec h2 b x) as (h3 & -> & Hn3 & Hp3 & Hc3).
  { apply (next_of_is_Some h2 b head). rewrite Hn2, Hn1, decide_False by congruence.
    exact HbH. }
  simpl.
  destruct (set_prev_spec h3 head x) as (h4 & -> & Hn4 & Hp4 & Hc4).
  { apply (prev_of_is_Some h3 head b). rewrite Hp3. exact HpH2. }
  simpl.
  assert (Hnext : forall a, next_of h4 a =
            if decide (a = b) then Some x
            else if decide (a = x) then Some head else next_of h a).
  { intros a. rewrite Hn4, Hn3, Hn2, Hn1. reflexivity. }
  assert (Hprev : forall a, prev_of h4 a =
            if decide (a = head) then Some x
            else if decide (a = x) then Some b else prev_of h a).
  { intros a. rewrite Hp4, Hp3, Hp2, Hp1. reflexivity. }
  assert (Hcontent : forall a, content_of h4 a = content_of h a).
  { intros a. rewrite Hc4, Hc3, Hc2, Hc1. reflexivity. }
  rewrite (isLonely_spec h4 x head b).
  2:{ rewrite Hnext, decide_False, decide_True by congruence. reflexivity. }
  2:{ rewrite Hprev, decide_False, decide_True by congruence. reflexivity. }
  replace (head =? x)%nat with false by (symmetry; apply Nat.eqb_neq; congruence).
  simpl. eexists. split; [reflexivity |].
  split; [| split; [| split]].
  - rewrite fmap_app. simpl. rewrite app_comm_cons.
    apply NoDup_app. rewrite Hsnoc. split; [exact Hnd |].
    split; [| apply NoDup_singleton].
    intros a Ha Ha'. apply list_elem_of_singleton in Ha'. subst a. contradiction.
  - rewrite fmap_app. simpl. rewrite app_comm_cons, Hsnoc.
    rewrite <- !app_assoc. simpl.
    apply Forall2_app.
    + eapply Forall2_impl_elem; [exact Hl' |].
      intros a a' Ha Ha' Hlk.
      assert (a <> b).
      { intros ->. apply NoDup_app in Hnd as (_ & Hd & _). apply (Hd b Ha). left. }
      assert (a <> x).
      { intros ->. apply Hxl'. apply elem_of_app. left. exact Ha. }
      assert (a' <> head).
      { intros ->. rewrite <- Hsnoc in Hnd. apply NoDup_cons in Hnd as [Hd _].
        contradiction. }
      assert (a' <> x) by (intros ->; apply Hx; right; exact Ha').
      apply (linked_preserved h); [| | exact Hlk].
      * rewrite Hnext, !decide_False by assumption. reflexivity.
      * rewrite Hprev, !decide_False by assumption. reflexivity.
    + repeat constructor.
      * rewrite Hnext, decide_True; trivial.
      * rewrite Hprev, decide_False, decide_True by congruence. reflexivity.
      * rewrite Hnext, decide_False, decide_True by congruence. reflexivity.
      * rewrite Hprev, decide_True; trivial.
  - rewrite Hcontent. exact Hhead.
  - apply Forall_app. split.
    + eapply Forall_impl; [exact Hcont |]. intros y Hy. simpl in *.
      rewrite Hcontent. exact Hy.
    + constructor; [| constructor]. simpl. rewrite Hcontent.
      unfold content_of. rewrite Hhx. reflexivity.
Qed.


Lemma entry_of_members h a n p (c : option Key) :
  next_of h a = Some n -> prev_of h a = Some p -> content_of h a = Some c ->
  h !! a = Some (mkListEntry n p c).
Proof.
  intros Hn Hp Hc. apply next_of_Some in Hn as (e & He & <-).
  apply prev_of_Some in Hp as (e' & He' & <-).
  apply content_of_Some in Hc as (e'' & He'' & <-).
  rewrite He in He', He''. injection He' as <-. injection He'' as <-.
  rewrite He. destruct e; reflexivity.
Qed.

(** The neighbours of a content entry of a list: the links of the list
    split around it. *)
Lemma ring_links_split h head (l1 l2 : list nat) x :
  Forall2 (linked h) (head :: l1 ++ x :: l2) ((l1 ++ x :: l2) ++ [head]) ->
  exists l1' p s l2',
    head :: l1 = l1' ++ [p] /\ l2 ++ [head] = s :: l2' /\
    Forall2 (linked h) l1' l1 /\ linked h p x /\ linked h x s /\
    Forall2 (linked h) l2 l2'.
Proof.
  intros Hlinks.
  destruct (snoc_exists l1 head) as (l1' & p & Hsnoc).
  assert (Hhd : exists s l2', l2 ++ [head] = s :: l2').
  { destruct l2 as [| c l2]; simpl; eauto. }
  destruct Hhd as (s & l2' & Hhd).
  exists l1', p, s, l2'. split; [exact Hsnoc |]. split; [exact Hhd |].
  rewrite app_comm_cons, Hsnoc in Hlinks.
  rewrite <- !app_assoc in Hlinks. simpl in Hlinks. rewrite Hhd in Hlinks.
  apply Forall2_app_inv in Hlinks as [Hl1 Hrest].
  2:{ apply (f_equal length) in Hsnoc. rewrite length_app in Hsnoc.
      simpl in Hsnoc. lia. }
  apply Forall2_cons_1 in Hrest as [Hpx Hrest].
  apply Forall2_cons_1 in Hrest as [Hxs Hrest].
  auto.
Qed.

Lemma ring_links_join h head (l1 l2 l1' l2' : list nat) p s :
  head :: l1 = l1' ++ [p] -> l2 ++ [head] = s :: l2' ->
  Forall2 (linked h) l1' l1 -> linked h p s -> Forall2 (linked h) l2 l2' ->
  Forall2 (linked h) (head :: l1 ++ l2) ((l1 ++ l2) ++ [head]).
Proof.
  intros Hsnoc Hhd Hl1 Hps Hl2.
  rewrite app_comm_cons, Hsnoc. rewrite <- !app_assoc. rewrite Hhd. simpl.
  apply Forall2_app; [exact Hl1 |]. constructor; assumption.
Qed.

(** Taking a content entry out of its list leaves the list of the others
    and the entry lonely. *)
Lemma removeFromList_ring h head xs1 x k xs2 :
  ring h head (xs1 ++ (x, k) :: xs2) ->
  exists h', removeFromList x h = Some h' /\
             ring h' head (xs1 ++ xs2) /\
             h' !! x = Some (mkListEntry x x (Some k)).
Proof.
  intros (Hnd & Hlinks & Hhead & Hcont).
  rewrite fmap_app, fmap_cons in Hnd, Hlinks. cbn [fst] in Hnd, Hlinks.
  remember (xs1.*1) as l1 eqn:El1. remember (xs2.*1) as l2 eqn:El2.
  destruct (ring_links_split _ _ _ _ _ Hlinks)
    as (l1' & p & s & l2' & Hsnoc & Hhd & Hl1 & [Hpx Hxp] & [Hxs Hsx] & Hl2).
  (* what the entries being distinct gives *)
  pose proof Hnd as Hnd'. rewrite app_comm_cons, Hsnoc in Hnd'.
  apply NoDup_cons in Hnd as [HheadA HndA].
  apply NoDup_app in HndA as (Hnd1 & Hd1 & Hndx).
  apply NoDup_cons in Hndx as [Hx2 Hnd2].
  rewrite <- app_assoc in Hnd'. simpl in Hnd'.
  apply NoDup_app in Hnd' as (Hnd1' & Hd1' & Hndp).
  apply NoDup_cons in Hndp as [Hp2 _].
  assert (Hxhead : x <> head).
  { intros ->. apply HheadA. apply elem_of_app. right. left. }
  assert (Hpx' : p <> x).
  { intros ->. apply Hp2. left. }
  assert (Hs : s ∈ l2 ++ [head]) by (rewrite Hhd; left).
  assert (Hsx' : s <> x).
  { intros ->. apply elem_of_app in Hs as [Hs | Hs]; [contradiction |].
    apply list_elem_of_singleton in Hs. congruence. }
  assert (Hnd2h : NoDup (s :: l2')).
  { rewrite <- Hhd. apply NoDup_app. split; [exact Hnd2 |].
    split; [| apply NoDup_singleton].
    intros a Ha Ha'. apply list_elem_of_singleton in Ha'. subst a.
    apply HheadA. apply elem_of_app. right. right. exact Ha. }
  (* the run *)
  assert (Hcx : content_of h x = Some (Some k)).
  { rewrite Forall_app, Forall_cons in Hcont. apply Hcont. }
  unfold removeFromList.
  rewrite (isListHead_spec h x (Some k) Hcx). simpl.
  rewrite (isLonely_spec h x s p Hxs Hxp).
  replace (p =? x)%nat with false by (symmetry; apply Nat.eqb_neq; congruence).
  rewrite andb_false_r. simpl.
  destruct (next_of_Some _ _ _ Hxs) as (t & Ht & Hts).
  destruct (prev_of_Some _ _ _ Hxp) as (t' & Ht' & Htp).
  rewrite Ht in Ht'. injection Ht' as <-.
  rewrite Ht. simpl. rewrite Hts, Htp.
  destruct (set_next_spec h p s) as (h1 & -> & Hn1 & Hp1 & Hc1).
  { eapply next_of_is_Some; exact Hpx. }
  simpl.
  assert (Ht1 : h1 !! x = Some (mkListEntry s p (Some k))).
  { apply entry_of_members.
    - rewrite Hn1, decide_False by congruence. exact Hxs.
    - rewrite Hp1. exact Hxp.
    - rewrite Hc1. exact Hcx. }
  rewrite Ht1. simpl.
  destruct (set_prev_spec h1 s p) as (h2 & -> & Hn2 & Hp2' & Hc2).
  { apply (prev_of_is_Some h1 s x). rewrite Hp1. exact Hsx. }
  simpl.
  destruct (set_next_spec h2 x x) as (h3 & -> & Hn3 & Hp3 & Hc3).
  { apply (next_of_is_Some h2 x s). rewrite Hn2, Hn1, decide_False by congruence.
    exact Hxs. }
  simpl.
  destruct (set_prev_spec h3 x x) as (h4 & -> & Hn4 & Hp4 & Hc4).
  { apply (next_of_is_Some h3 x x). rewrite Hn3, decide_True; trivial. }
  simpl.
  assert (Hnext : forall a, next_of h4 a =
            if decide (a = x) then Some x
            else if decide (a = p) then Some s else next_of h a).
  { intros a. rewrite Hn4, Hn3, Hn2, Hn1. reflexivity. }
  assert (Hprev : forall a, prev_of h4 a =
            if decide (a = x) then Some x
            else if decide (a = s) then Some p else prev_of h a).
  { intros a. rewrite Hp4, Hp3, Hp2', Hp1. reflexivity. }
  assert (Hcontent : forall a, content_of h4 a = content_of h a).
  { intros a. rewrite Hc4, Hc3, Hc2, Hc1. reflexivity. }
  rewrite (isLonely_spec h4 x x x).
  2:{ rewrite Hnext, decide_True; trivial. }
  2:{ rewrite Hprev, decide_True; trivial. }
  rewrite Nat.eqb_refl. simpl. eexists. split; [reflexivity |].
  split; [| apply entry_of_members].
  - split; [| split; [| split]].
    + rewrite fmap_app, <- El1, <- El2. apply NoDup_cons. split.
      * intros Hin. apply HheadA. apply elem_of_app in Hin as [Hin | Hin];
          apply elem_of_app; [left | right; right]; exact Hin.
      * apply NoDup_app. split; [exact Hnd1 |]. split; [| exact Hnd2].
        intros a Ha Ha'. apply (Hd1 a Ha). right. exact Ha'.
    + rewrite fmap_app, <- El1, <- El2.
      apply (ring_links_join h4 head l1 l2 l1' l2' p s Hsnoc Hhd).
      * eapply Forall2_impl_elem; [exact Hl1 |].
        intros a a' Ha Ha' Hlk.
        assert (a <> x /\ a <> p) as [? ?].
        { split; intros ->; apply (Hd1' _ Ha); [right; left | left]. }
        assert (a' <> x).
        { intros ->. apply (Hd1 x Ha'). left. }
        assert (a' <> s).
        { intros ->. apply elem_of_app in Hs as [Hs | Hs].
          - apply (Hd1 s Ha'). right. exact Hs.
          - apply list_elem_of_singleton in Hs. subst s.
            apply HheadA. apply elem_of_app. left. exact Ha'. }
        apply (linked_preserved h); [| | exact Hlk].
        -- rewrite Hnext, !decide_False by assumption. reflexivity.
        -- rewrite Hprev, !decide_False by assumption. reflexivity.
      * split.
        -- rewrite Hnext, decide_False, decide_True by congruence. reflexivity.
        -- rewrite Hprev, decide_False, decide_True by congruence. reflexivity.
      * eapply Forall2_impl_elem; [exact Hl2 |].
        intros a a' Ha Ha' Hlk.
        assert (a <> x) by (intros ->; contradiction).
        assert (a <> p).
        { intros ->. apply Hp2. right. exact Ha. }
        assert (a' <> s).
        { intros ->. apply NoDup_cons in Hnd2h as [Hd _]. contradiction. }
        assert (a' <> x).
        { intros ->. assert (Hin : x ∈ l2 ++ [head]) by (rewrite Hhd; right; exact Ha').
          apply elem_of_app in Hin as [Hin | Hin]; [contradiction |].
          apply list_elem_of_singleton in Hin. congruence. }
        apply (linked_preserved h); [| | exact Hlk].
        -- rewrite Hnext, !decide_False by assumption. reflexivity.
        -- rewrite Hprev, !decide_False by assumption. reflexivity.
    + rewrite Hcontent. exact Hhead.
    + rewrite Forall_app, Forall_cons in Hcont. destruct Hcont as (Hc1' & _ & Hc2').
      apply Forall_app. split; (eapply Forall_impl; [eassumption |]);
        intros y Hy; simpl in *; rewrite Hcontent; exact Hy.
  - rewrite Hnext, decide_True; trivial.
  - rewrite Hprev, decide_True; trivial.
  - rewrite Hcontent. exact Hcx.
Qed.


(** A content entry that is in a list is not lonely. *)
Lemma content_entry_not_lonely h head xs1 x k xs2 :
  ring h head (xs1 ++ (x, k) :: xs2) -> isLonely x h = Some false.
Proof.
  intros (Hnd & Hlinks & _ & _).
  rewrite fmap_app, fmap_cons in Hnd, Hlinks. cbn [fst] in Hnd, Hlinks.
  destruct (ring_links_split _ _ _ _ _ Hlinks)
    as (l1' & p & s & l2' & Hsnoc & Hhd & Hl1 & [Hpx Hxp] & [Hxs Hsx] & Hl2).
  rewrite app_comm_cons, Hsnoc, <- app_assoc in Hnd. simpl in Hnd.
  apply NoDup_app in Hnd as (_ & _ & Hndp).
  apply NoDup_cons in Hndp as [Hp2 _].
  rewrite (isLonely_spec h x s p Hxs Hxp).
  replace (p =? x)%nat with false; [rewrite andb_false_r; reflexivity |].
  symmetry. apply Nat.eqb_neq. intros ->. apply Hp2. left.
Qed.

(** [moveToBack] makes the entry the last of the list. *)
Lemma moveToBack_ring h head xs1 x k xs2 :
  ring h head (xs1 ++ (x, k) :: xs2) ->
  exists h', moveToBack head x h = Some h' /\
             ring h' head (xs1 ++ xs2 ++ [(x, k)]).
Proof.
  intros Hring. unfold moveToBack.
  rewrite (content_entry_not_lonely _ _ _ _ _ _ Hring). simpl.
  destruct (removeFromList_ring _ _ _ _ _ _ Hring) as (h1 & -> & Hring1 & Hx1).
  simpl. rewrite app_assoc.
  apply insertAsPredecessor_ring; [exact Hring1 | | exact Hx1].
  destruct Hring as (Hnd & _). rewrite fmap_app, fmap_cons in Hnd.
  cbn [fst] in Hnd. rewrite fmap_app.
  apply NoDup_cons in Hnd as [Hhead Hnd].
  apply NoDup_app in Hnd as (_ & Hd & Hndx).
  apply NoDup_cons in Hndx as [Hx2 _].
  intros Hin. apply elem_of_cons in Hin as [-> | Hin].
  - apply Hhead. apply elem_of_app. right. left.
  - apply elem_of_app in Hin as [Hin | Hin]; [| contradiction].
    apply (Hd x Hin). left.
Qed.

(** [pop_front] returns the key of the first entry and deletes the
    entry. *)
Lemma pop_front_ring h head x k xs :
  ring h head ((x, k) :: xs) ->
  exists h', pop_front head h = Some (k, h') /\ ring h' head xs.
Proof.
  intros Hring.
  pose proof Hring as (Hnd & Hlinks & Hhead & Hcont).
  rewrite fmap_cons in Hnd, Hlinks. cbn [fst] in Hnd, Hlinks.
  apply Forall2_cons_1 in Hlinks as [[Hhx Hxh] Hlinks].
  apply NoDup_cons in Hnd as [Hhd Hnd].
  assert (Hne : x <> head).
  { intros ->. apply Hhd. left. }
  destruct (ring_in_store h head ((x, k) :: xs) head Hring) as [e He]; [left |].
  assert (Hp : exists p, prev_of h head = Some p).
  { unfold prev_of. rewrite He. eauto. }
  destruct Hp as [p Hp].
  unfold pop_front, list_isEmpty.
  rewrite (isLonely_spec h head x p Hhx Hp).
  replace (x =? head)%nat with false by (symmetry; apply Nat.eqb_neq; exact Hne).
  simpl. destruct (next_of_Some _ _ _ Hhx) as (t & -> & Ht). simpl. rewrite Ht.
  unfold pop.
  assert (Hcx : content_of h x = Some (Some k)).
  { apply Forall_cons in Hcont. apply Hcont. }
  rewrite (isListHead_spec h x (Some k) Hcx). simpl.
  destruct (removeFromList_ring h head [] x k xs Hring) as (h1 & -> & Hring1 & Hx1).
  simpl. rewrite (getContent_spec h1 x (Some k)).
  2:{ unfold content_of. rewrite Hx1. reflexivity. }
  simpl. eexists. split; [reflexivity |].
  eapply ring_ext; [| exact Hring1].
  intros a Ha. simpl in Ha. apply lookup_delete_ne.
  intros ->. apply elem_of_cons in Ha as [Ha | Ha]; [congruence |].
  apply NoDup_cons in Hnd as [Hx _]. contradiction.
Qed.

Lemma next_of_delete h x a : a <> x -> next_of (delete x h) a = next_of h a.
Proof. intros Hne. unfold next_of. rewrite lookup_delete_ne by congruence. reflexivity. Qed.

Lemma content_of_delete h x a :
  a <> x -> content_of (delete x h) a = content_of h a.
Proof. intros Hne. unfold content_of. rewrite lookup_delete_ne by congruence. reflexivity. Qed.

(** The loop of [clear], started on the first of the entries [b :: l]
    that lead to the head, deletes them and stops at the head. *)
Lemma clear_loop_spec head :
  forall (l : list nat) b h fuel,
    Forall2 (fun a a' => next_of h a = Some a') (b :: l) (l ++ [head]) ->
    Forall (fun a => exists k, content_of h a = Some (Some k)) (b :: l) ->
    content_of h head = Some None ->
    NoDup (head :: b :: l) ->
    (S (length l) < fuel)%nat ->
    exists h', clear_loop fuel b h = Some h' /\ h' !! head = h !! head.
Proof.
  induction l as [| c l IH]; intros b h fuel Hnext Hcont Hhead Hnd Hfuel.
  - destruct fuel as [| [| fuel]]; [simpl in Hfuel; lia .. |].
    apply Forall2_cons_1 in Hnext as [Hb _].
    apply Forall_cons in Hcont as [[k Hk] _].
    apply NoDup_cons in Hnd as [Hhb _].
    assert (Hne : head <> b) by (intros ->; apply Hhb; left).
    cbn [clear_loop]. rewrite (isListHead_spec h b (Some k) Hk). simpl.
    destruct (next_of_Some _ _ _ Hb) as (e & -> & He). simpl. rewrite He.
    rewrite (isListHead_spec (delete b h) head None).
    2:{ rewrite content_of_delete by exact Hne. exact Hhead. }
    simpl. eexists. split; [reflexivity |]. apply lookup_delete_ne. congruence.
  - destruct fuel as [| fuel]; [lia |].
    simpl in Hnext. apply Forall2_cons_1 in Hnext as [Hb Hnext].
    apply Forall_cons in Hcont as [[k Hk] Hcont].
    pose proof Hnd as Hnd'.
    apply NoDup_cons in Hnd as [Hhb Hnd].
    apply NoDup_cons in Hnd as [Hb' Hnd].
    assert (Hne : head <> b) by (intros ->; apply Hhb; left).
    cbn [clear_loop]. rewrite (isListHead_spec h b (Some k) Hk). simpl.
    destruct (next_of_Some _ _ _ Hb) as (e & -> & He). simpl. rewrite He.
    destruct (IH c (delete b h) fuel) as (h' & Hrun & Hsame).
    + eapply Forall2_impl_elem; [exact Hnext |].
      intros a a' Ha _ Hn. simpl in *. rewrite next_of_delete; [exact Hn |].
      intros ->. contradiction.
    + apply Forall_forall. intros a Ha. rewrite Forall_forall in Hcont.
      destruct (Hcont a Ha) as [k' Hk']. exists k'.
      rewrite content_of_delete; [exact Hk' |]. intros ->. contradiction.
    + rewrite content_of_delete by exact Hne. exact Hhead.
    + apply NoDup_cons. split; [| exact Hnd].
      intros Hin. apply Hhb. right. exact Hin.
    + simpl in Hfuel. lia.
    + exists h'. split; [exact Hrun |]. rewrite Hsame.
      apply lookup_delete_ne. congruence.
Qed.

(** Distinct entries of a store are no more than the store holds. *)
Lemma length_le_size h (l : list nat) :
  NoDup l -> (forall a, a ∈ l -> is_Some (h !! a)) -> (length l <= size h)%nat.
Proof.
  intros Hnd Hin.
  rewrite <- (size_list_to_set (C := gset nat) l Hnd).
  rewrite <- size_dom. apply subseteq_size.
  intros a Ha. apply elem_of_list_to_set in Ha. apply elem_of_dom. auto.
Qed.

(** [clear] leaves the empty list. *)
Lemma clear_ring h head xs :
  ring h head xs -> exists h', clear head h = Some h' /\ ring h' head [].
Proof.
  intros Hring.
  pose proof Hring as (Hnd & Hlinks & Hhead & Hcont).
  assert (Hsize : (length (head :: xs.*1) <= size h)%nat).
  { apply length_le_size; [exact Hnd |]. intros a. apply ring_in_store. exact Hring. }
  simpl in Hsize.
  unfold clear.
  assert (Hloop : exists f h1, next_of h head = Some f /\
            clear_loop (S (size h)) f h = Some h1 /\ h1 !! head = h !! head).
  { destruct xs as [| [b k] xs].
    - simpl in Hlinks. apply Forall2_cons_1 in Hlinks as [[Hn _] _].
      exists head, h. split; [exact Hn |]. split; [| reflexivity].
      cbn [clear_loop]. rewrite (isListHead_spec h head None Hhead). reflexivity.
    - rewrite fmap_cons in Hlinks, Hnd, Hsize. cbn [fst] in Hlinks, Hnd, Hsize.
      simpl in Hlinks. apply Forall2_cons_1 in Hlinks as [[Hn _] Hlinks].
      destruct (clear_loop_spec head (xs.*1) b h (S (size h))) as (h1 & Hrun & Hsame).
      + eapply Forall2_impl; [exact Hlinks |]. intros a a' [Hl _]. exact Hl.
      + apply Forall_forall. intros a Ha.
        change (b :: xs.*1) with (((b, k) :: xs).*1) in Ha.
        apply list_elem_of_fmap in Ha as (y & -> & Hy).
        exists y.2. rewrite Forall_forall in Hcont. apply Hcont. exact Hy.
      + exact Hhead.
      + exact Hnd.
      + simpl in Hsize. lia.
      + exists b, h1. auto. }
  destruct Hloop as (f & h1 & Hf & Hrun & Hsame).
  destruct (next_of_Some _ _ _ Hf) as (t & Ht & Htf).
  rewrite Ht. cbn -[clear_loop]. rewrite Htf, Hrun. simpl.
  destruct (set_next_spec h1 head head) as (h2 & -> & Hn2 & Hp2 & Hc2).
  { rewrite Hsame, Ht. eauto. }
  simpl.
  destruct (set_prev_spec h2 head head) as (h3 & -> & Hn3 & Hp3 & Hc3).
  { apply (next_of_is_Some h2 head head). rewrite Hn2, decide_True; trivial. }
  eexists. split; [reflexivity |].
  split; [| split; [| split]].
  - simpl. apply NoDup_singleton.
  - simpl. constructor; [| constructor]. split.
    + rewrite Hn3, Hn2, decide_True; trivial.
    + rewrite Hp3, decide_True; trivial.
  - rewrite Hc3, Hc2. unfold content_of. rewrite Hsame. exact Hhead.
  - constructor.
Qed.

End RingFacts.

Section AllocFacts.
Context {Key : Type} `{Countable Key}.
Import Lru.
Variable alloc : gset nat -> nat.
Hypothesis alloc_fresh : forall X : gset nat, alloc X ∉ X.

Implicit Types (h : gmap nat (ListEntry (Key := Key))).

(** [push_back] appends a new entry holding the key. *)
Lemma push_back_ring h head (xs : list (nat * Key)) k :
  ring h head xs ->
  exists x h', push_back alloc head k h = Some (x, h') /\
               ring h' head (xs ++ [(x, k)]) /\
               x ∉ head :: xs.*1.
Proof.
  intros Hring. unfold push_back, new_ListEntryContent.
  set (x := alloc (dom h)).
  assert (Hx : x ∉ head :: xs.*1).
  { intros Hin. apply (ring_in_store h head xs x Hring) in Hin.
    apply elem_of_dom in Hin. exact (alloc_fresh _ Hin). }
  destruct (insertAsPredecessor_ring
              (<[x := mkListEntry x x (Some k)]> h) head xs x k)
    as (h' & Hrun & Hring').
  - eapply ring_ext; [| exact Hring]. intros a Ha.
    apply lookup_insert_ne. intros ->. contradiction.
  - exact Hx.
  - apply lookup_insert_eq.
  - rewrite Hrun. simpl. eauto.
Qed.

End AllocFacts.

Section CacheFacts.
Context {Key : Type} `{Countable Key} {Value : Type}.
Import Lru.
Variable alloc : gset nat -> nat.
Hypothesis alloc_fresh : forall X : gset nat, alloc X ∉ X.

Implicit Types (c : LruCache (Key := Key) (Value := Value)).
Implicit Types (ys : list (nat * Key * Value)) (k : Key) (v : Value) (a x : nat).

Lemma key_of_entry ys a k v : (a, k, v) ∈ ys -> k ∈ ys.*1.*2.
Proof.
  intros Hin. apply list_elem_of_fmap. exists (a, k). split; [reflexivity |].
  apply list_elem_of_fmap. exists (a, k, v). split; [reflexivity | exact Hin].
Qed.

Lemma entry_of_key ys k : k ∈ ys.*1.*2 -> exists a v, (a, k, v) ∈ ys.
Proof.
  intros Hin. apply list_elem_of_fmap in Hin as ([a k'] & -> & Hin).
  apply list_elem_of_fmap in Hin as ([[a' k''] v] & [= <- <-] & Hin).
  eauto.
Qed.

(** A key the map does not bind is the key of no entry, and conversely. *)
Lemma represents_lookup_None c ys k :
  represents c ys -> (mCache c !! k = None <-> k ∉ ys.*1.*2).
Proof.
  intros (_ & _ & Hmap & _). split.
  - intros Hnone Hin. apply entry_of_key in Hin as (a & v & Hin).
    apply Hmap in Hin. congruence.
  - intros Hnotin. destruct (mCache c !! k) as [[a v] |] eqn:Hk; [| reflexivity].
    exfalso. apply Hnotin. apply (key_of_entry ys a k v). apply Hmap. exact Hk.
Qed.

Lemma represents_lookup_Some c ys k a v :
  represents c ys -> mCache c !! k = Some (mkCacheEntry a v) ->
  exists ys1 ys2, ys = ys1 ++ (a, k, v) :: ys2.
Proof.
  intros (_ & _ & Hmap & _) Hk. apply Hmap in Hk.
  apply list_elem_of_split in Hk. exact Hk.
Qed.

(** The constructor makes an empty cache. *)
Lemma LruCache_new_represents (maxCacheSize : Z) :
  0 < maxCacheSize < 2 ^ 32 ->
  exists c, LruCache_new alloc maxCacheSize = Some c /\
            represents c [] /\ mMaxCacheSize c = maxCacheSize.
Proof.
  intros Hmax. unfold LruCache_new, new_ListEntryHead.
  replace (0 <? maxCacheSize) with true by (symmetry; apply Z.ltb_lt; lia).
  simpl. eexists. split; [reflexivity |]. split; [| reflexivity].
  set (head := alloc (dom (∅ : gmap nat (ListEntry (Key := Key))))).
  split; [| split; [| split; [| split; [| split]]]]; simpl.
  - split; [apply NoDup_singleton |]. split; [| split].
    + constructor; [| constructor].
      unfold linked, next_of, prev_of. rewrite lookup_insert_eq. auto.
    + unfold content_of. rewrite lookup_insert_eq. reflexivity.
    + constructor.
  - constructor.
  - intros k a v. rewrite lookup_empty. split; [discriminate |].
    intros Hin. apply elem_of_nil in Hin. contradiction.
  - reflexivity.
  - lia.
  - exact Hmax.
Qed.

(** [insertNewEntry], for a key that is not in a cache that is not full,
    adds the pair as the most recently used. *)
Lemma insertNewEntry_represents c ys k v :
  represents c ys -> k ∉ ys.*1.*2 ->
  mCurrentCacheSize c < mMaxCacheSize c ->
  exists x c', insertNewEntry alloc k v c = Some c' /\
               represents c' (ys ++ [(x, k, v)]) /\
               mMaxCacheSize c' = mMaxCacheSize c.
Proof.
  intros (Hring & Hnd & Hmap & Hsize & Hle & Hmax) Hk Hroom.
  unfold insertNewEntry, isFull.
  replace (mMaxCacheSize c <=? mCurrentCacheSize c) with false
    by (symmetry; apply Z.leb_gt; exact Hroom).
  simpl.
  destruct (push_back_ring alloc alloc_fresh (entries c) (mLruList c) (ys.*1) k Hring)
    as (x & h' & -> & Hring' & Hx).
  simpl. exists x. eexists. split; [reflexivity |]. split; [| reflexivity].
  assert (Hu : uint32 (mCurrentCacheSize c + 1) = mCurrentCacheSize c + 1).
  { apply Z.mod_small. lia. }
  split; [| split; [| split; [| split; [| split]]]]; simpl.
  - rewrite fmap_app. exact Hring'.
  - rewrite !fmap_app. simpl. apply NoDup_app. split; [exact Hnd |].
    split; [| apply NoDup_singleton].
    intros k' Hk' Hk''. apply list_elem_of_singleton in Hk''. subst k'.
    contradiction.
  - intros k' a v'. rewrite elem_of_app, list_elem_of_singleton.
    destruct (decide (k' = k)) as [-> | Hne].
    + rewrite lookup_insert_eq. split.
      * intros [= <- <-]. right. reflexivity.
      * intros [Hin | [= -> ->]]; [| reflexivity].
        exfalso. apply Hk. exact (key_of_entry _ _ _ _ Hin).
    + rewrite lookup_insert_ne by congruence. rewrite Hmap. split.
      * auto.
      * intros [Hin | [= _ Heq _]]; [exact Hin | congruence].
  - rewrite Hu, length_app. simpl. lia.
  - rewrite Hu. lia.
  - exact Hmax.
Qed.

(** [deleteOldestEntry] drops the least recently used pair. *)
Lemma deleteOldestEntry_represents c y ys :
  represents c (y :: ys) ->
  exists c', deleteOldestEntry c = Some c' /\ represents c' ys /\
             mMaxCacheSize c' = mMaxCacheSize c.
Proof.
  destruct y as [[x k] v].
  intros (Hring & Hnd & Hmap & Hsize & Hle & Hmax).
  unfold deleteOldestEntry, isEmpty.
  simpl in Hsize.
  replace (mCurrentCacheSize c =? 0) with false by (symmetry; apply Z.eqb_neq; lia).
  simpl.
  rewrite fmap_cons in Hring. cbn [fst] in Hring.
  destruct (pop_front_ring (entries c) (mLruList c) x k (ys.*1) Hring)
    as (h' & -> & Hring').
  simpl. eexists. split; [reflexivity |]. split; [| reflexivity].
  assert (Hu : uint32 (mCurrentCacheSize c - 1) = mCurrentCacheSize c - 1).
  { apply Z.mod_small. lia. }
  rewrite !fmap_cons in Hnd. cbn [fst snd] in Hnd.
  apply NoDup_cons in Hnd as [Hk Hnd].
  split; [| split; [| split; [| split; [| split]]]]; simpl.
  - exact Hring'.
  - exact Hnd.
  - intros k' a v'. destruct (decide (k' = k)) as [-> | Hne].
    + rewrite lookup_delete_eq. split; [discriminate |].
      intros Hin. exfalso. apply Hk. exact (key_of_entry _ _ _ _ Hin).
    + rewrite lookup_delete_ne by congruence. rewrite Hmap.
      rewrite elem_of_cons. split; [| auto].
      intros [[= _ Heq _] | Hin]; [congruence | exact Hin].
  - rewrite Hu. lia.
  - rewrite Hu. lia.
  - exact Hmax.
Qed.

(** [updateExistingEntry] replaces the value where the pair stands. *)
Lemma updateExistingEntry_represents c ys1 a k v0 ys2 v :
  represents c (ys1 ++ (a, k, v0) :: ys2) ->
  represents (updateExistingEntry k (mkCacheEntry a v) c)
             (ys1 ++ (a, k, v) :: ys2).
Proof.
  intros (Hring & Hnd & Hmap & Hsize & Hle & Hmax).
  split; [| split; [| split; [| split; [| split]]]]; simpl.
  - rewrite fmap_app, fmap_cons in *. exact Hring.
  - rewrite !fmap_app, !fmap_cons in *. exact Hnd.
  - intros k' a' v'. destruct (decide (k' = k)) as [-> | Hne].
    + rewrite lookup_insert_eq. split.
      * intros [= <- <-]. apply elem_of_app. right. left.
      * intros Hin.
        assert (Hin0 : (a', k, v') ∈ ys1 ++ (a, k, v) :: ys2) by exact Hin.
        rewrite !fmap_app, !fmap_cons in Hnd. cbn [fst snd] in Hnd.
        apply NoDup_app in Hnd as (_ & Hd & Hndk).
        apply NoDup_cons in Hndk as [Hk2 _].
        apply elem_of_app in Hin as [Hin | Hin].
        -- exfalso. apply (Hd k); [exact (key_of_entry _ _ _ _ Hin) | left].
        -- apply elem_of_cons in Hin as [[= -> ->] | Hin]; [reflexivity |].
           exfalso. apply Hk2. exact (key_of_entry _ _ _ _ Hin).
    + rewrite lookup_insert_ne by congruence. rewrite Hmap.
      rewrite !elem_of_app, !elem_of_cons.
      split; (intros [Hin | [[= _ Heq _] | Hin]]; [auto | congruence | auto]).
  - rewrite Hsize, !length_app. reflexivity.
  - exact Hle.
  - exact Hmax.
Qed.

(** [touchEntry] promotes the pair to most recently used. *)
Lemma touchEntry_represents c ys1 a k v ys2 v' :
  represents c (ys1 ++ (a, k, v) :: ys2) ->
  exists c', touchEntry (mkCacheEntry a v') c = Some c' /\
             represents c' (ys1 ++ ys2 ++ [(a, k, v)]) /\
             mMaxCacheSize c' = mMaxCacheSize c.
Proof.
  intros (Hring & Hnd & Hmap & Hsize & Hle & Hmax).
  unfold touchEntry. simpl.
  rewrite fmap_app, fmap_cons in Hring. cbn [fst] in Hring.
  destruct (moveToBack_ring (entries c) (mLruList c) (ys1.*1) a k (ys2.*1) Hring)
    as (h' & -> & Hring').
  simpl. eexists. split; [reflexivity |]. split; [| reflexivity].
  assert (Hperm : ys1 ++ ys2 ++ [(a, k, v)] ≡ₚ ys1 ++ (a, k, v) :: ys2).
  { apply Permutation_app_head. rewrite Permutation_app_comm. reflexivity. }
  split; [| split; [| split; [| split; [| split]]]]; simpl.
  - rewrite !fmap_app. exact Hring'.
  - rewrite Hperm. exact Hnd.
  - intros k' a' v''. rewrite Hperm. apply Hmap.
  - rewrite Hperm. exact Hsize.
  - exact Hle.
  - exact Hmax.
Qed.

(** [drop] empties the cache. *)
Lemma drop_represents c ys :
  represents c ys ->
  exists c', drop c = Some c' /\ represents c' [] /\
             mMaxCacheSize c' = mMaxCacheSize c.
Proof.
  intros (Hring & Hnd & Hmap & Hsize & Hle & Hmax).
  unfold drop. simpl.
  destruct (clear_ring (entries c) (mLruList c) (ys.*1) Hring) as (h' & -> & Hring').
  simpl. eexists. split; [reflexivity |]. split; [| reflexivity].
  split; [| split; [| split; [| split; [| split]]]]; simpl.
  - exact Hring'.
  - constructor.
  - intros k a v. rewrite lookup_empty. split; [discriminate |].
    intros Hin. apply elem_of_nil in Hin. contradiction.
  - reflexivity.
  - lia.
  - exact Hmax.
Qed.

(** The loop of [resize] drops least recently used pairs until no more
    than [newSize] are left. *)
Lemma resize_loop_represents (newSize : Z) :
  0 <= newSize ->
  forall ys c fuel,
    represents c ys -> (length ys < fuel)%nat ->
    exists c', resize_loop fuel newSize c = Some c' /\
               represents c' (skipn (length ys - Z.to_nat newSize) ys) /\
               mMaxCacheSize c' = mMaxCacheSize c.
Proof.
  intros Hnew. induction ys as [| y ys IH]; intros c fuel Hrep Hfuel.
  - destruct fuel as [| fuel]; [lia |]. cbn [resize_loop].
    pose proof Hrep as (_ & _ & _ & Hsize & _). simpl in Hsize.
    replace (newSize <? mCurrentCacheSize c) with false
      by (symmetry; apply Z.ltb_ge; lia).
    exists c. auto.
  - destruct fuel as [| fuel]; [lia |]. cbn [resize_loop].
    pose proof Hrep as (_ & _ & _ & Hsize & _).
    destruct (Z.ltb_spec newSize (mCurrentCacheSize c)) as [Hlt | Hge].
    + destruct (deleteOldestEntry_represents c y ys Hrep) as (c1 & -> & Hrep1 & Hmax1).
      simpl. destruct (IH c1 fuel Hrep1) as (c' & Hrun & Hrep' & Hmax').
      { simpl in Hfuel. lia. }
      exists c'. split; [exact Hrun |]. split; [| congruence].
      cbn [length] in Hsize |- *.
      replace (S (length ys) - Z.to_nat newSize)%nat
        with (S (length ys - Z.to_nat newSize)) by lia.
      exact Hrep'.
    + exists c. split; [reflexivity |]. split; [| reflexivity].
      cbn [length] in Hsize |- *.
      replace (S (length ys) - Z.to_nat newSize)%nat with O by lia.
      exact Hrep.
Qed.

(** [resize] adopts the new maximum once the pairs fit. *)
Lemma resize_represents c ys (newSize : Z) :
  0 < newSize < 2 ^ 32 ->
  represents c ys ->
  exists c', resize newSize c = Some c' /\
             represents c' (skipn (length ys - Z.to_nat newSize) ys) /\
             mMaxCacheSize c' = newSize.
Proof.
  intros Hnew Hrep. unfold resize.
  replace (0 <? newSize) with true by (symmetry; apply Z.ltb_lt; lia).
  cbn -[resize_loop].
  pose proof Hrep as (_ & _ & _ & Hsize & _).
  destruct (resize_loop_represents newSize ltac:(lia) ys c
              (S (Z.to_nat (mCurrentCacheSize c))) Hrep)
    as (c' & -> & (Hring & Hnd & Hmap & Hsize' & Hle & Hmax) & _).
  { lia. }
  simpl. eexists. split; [reflexivity |]. split; [| reflexivity].
  split; [| split; [| split; [| split; [| split]]]]; simpl; trivial.
  rewrite Hsize', length_skipn. lia.
Qed.

End CacheFacts.

Section RefinementFacts.
Context {Key : Type} `{Countable Key} {Value : Type}.
Import Lru.
Variable alloc : gset nat -> nat.
Hypothesis alloc_fresh : forall X : gset nat, alloc X ∉ X.

Implicit Types (c : LruCache (Key := Key) (Value := Value)).
Implicit Types (s : LruSpec.cache (Key := Key) (Value := Value)).
Implicit Types (ys : list (nat * Key * Value)) (k : Key) (v : Value) (a x : nat).

Lemma pairs_of_app ys1 ys2 : pairs_of (ys1 ++ ys2) = pairs_of ys1 ++ pairs_of ys2.
Proof. unfold pairs_of. apply fmap_app. Qed.

Lemma length_pairs_of ys : length (pairs_of ys) = length ys.
Proof. unfold pairs_of. apply length_fmap. Qed.

Lemma find_pairs_of_notin ys k :
  k ∉ ys.*1.*2 -> LruSpec.find k (pairs_of ys) = None.
Proof.
  induction ys as [| [[a k'] v] ys IH]; intros Hk; [reflexivity |].
  rewrite !fmap_cons in Hk. cbn [fst snd] in Hk.
  apply not_elem_of_cons in Hk as [Hne Hk].
  simpl. rewrite decide_False by congruence. apply IH. exact Hk.
Qed.

Lemma remove_pairs_of_notin ys k :
  k ∉ ys.*1.*2 -> LruSpec.remove k (pairs_of ys) = pairs_of ys.
Proof.
  induction ys as [| [[a k'] v] ys IH]; intros Hk; [reflexivity |].
  rewrite !fmap_cons in Hk. cbn [fst snd] in Hk.
  apply not_elem_of_cons in Hk as [Hne Hk].
  simpl. rewrite decide_False by congruence. f_equal. apply IH. exact Hk.
Qed.

Lemma find_pairs_of_split ys1 a k v ys2 :
  NoDup ((ys1 ++ (a, k, v) :: ys2).*1.*2) ->
  LruSpec.find k (pairs_of (ys1 ++ (a, k, v) :: ys2)) = Some v.
Proof.
  induction ys1 as [| [[a' k'] v'] ys1 IH]; intros Hnd.
  - simpl. rewrite decide_True; trivial.
  - simpl in Hnd. apply NoDup_cons in Hnd as [Hk' Hnd].
    simpl. rewrite decide_False; [apply IH; exact Hnd |].
    intros ->. apply Hk'. apply (key_of_entry _ a k v).
    apply elem_of_app. right. left.
Qed.

Lemma remove_pairs_of_split ys1 a k v ys2 :
  NoDup ((ys1 ++ (a, k, v) :: ys2).*1.*2) ->
  LruSpec.remove k (pairs_of (ys1 ++ (a, k, v) :: ys2)) = pairs_of (ys1 ++ ys2).
Proof.
  induction ys1 as [| [[a' k'] v'] ys1 IH]; intros Hnd.
  - simpl in *. apply NoDup_cons in Hnd as [Hk _].
    rewrite decide_True by trivial. apply remove_pairs_of_notin. exact Hk.
  - simpl in Hnd. apply NoDup_cons in Hnd as [Hk' Hnd].
    simpl. rewrite decide_False; [f_equal; apply IH; exact Hnd |].
    intros ->. apply Hk'. apply (key_of_entry _ a k v).
    apply elem_of_app. right. left.
Qed.

(** The constructor refines the empty cache. *)
Lemma LruCache_new_refines (maxCacheSize : Z) :
  0 < maxCacheSize < 2 ^ 32 ->
  exists c, LruCache_new alloc maxCacheSize = Some c /\
            refines c (LruSpec.empty maxCacheSize).
Proof.
  intros Hmax.
  destruct (LruCache_new_represents (Key := Key) (Value := Value)
              alloc maxCacheSize Hmax) as (c & Hnew & Hrep & Hcap).
  exists c. split; [exact Hnew |]. exists []. auto.
Qed.

(** [insert] returns true and refines the insertion of the
    specification. *)
Lemma insert_refines c s k v :
  refines c s ->
  exists c', insert alloc k v c = Some (true, c') /\
             refines c' (LruSpec.insert k v s).
Proof.
  intros (ys & Hrep & Hpairs & Hcap).
  unfold insert, lookupCache, LruSpec.insert. rewrite <- Hpairs, <- Hcap.
  destruct (mCache c !! k) as [[a v0] |] eqn:Hk.
  - destruct (represents_lookup_Some c ys k a v0 Hrep Hk) as (ys1 & ys2 & ->).
    pose proof Hrep as (_ & Hnd & _).
    rewrite (find_pairs_of_split _ _ _ _ _ Hnd). simpl.
    pose proof (updateExistingEntry_represents c ys1 a k v0 ys2 v Hrep) as Hrep1.
    destruct (touchEntry_represents _ ys1 a k v ys2 v Hrep1) as (c' & -> & Hrep' & Hmax').
    simpl. exists c'. split; [reflexivity |].
    exists (ys1 ++ ys2 ++ [(a, k, v)]). split; [exact Hrep' |]. split; [| exact Hmax'].
    unfold LruSpec.promote. simpl.
    rewrite (remove_pairs_of_split _ _ _ _ _ Hnd).
    rewrite app_assoc, pairs_of_app. reflexivity.
  - apply (represents_lookup_None c ys k Hrep) in Hk.
    rewrite (find_pairs_of_notin ys k Hk). rewrite length_pairs_of.
    pose proof Hrep as (_ & Hnd & _ & Hsize & Hle & Hmax).
    unfold isFull. rewrite Hsize.
    destruct (Z.leb_spec (mMaxCacheSize c) (Z.of_nat (length ys))) as [Hfull | Hroom].
    + destruct ys as [| y ys]; [simpl in Hfull; lia |].
      destruct (deleteOldestEntry_represents c y ys Hrep) as (c1 & -> & Hrep1 & Hmax1).
      cbn -[insertNewEntry].
      pose proof Hrep1 as (_ & _ & _ & Hsize1 & _).
      destruct (insertNewEntry_represents alloc alloc_fresh c1 ys k v Hrep1)
        as (x & c' & -> & Hrep' & Hmax').
      { rewrite !fmap_cons in Hk. apply not_elem_of_cons in Hk as [_ Hk]. exact Hk. }
      { rewrite Hsize1, Hmax1. simpl length in *. lia. }
      simpl. exists c'. split; [reflexivity |].
      exists (ys ++ [(x, k, v)]). split; [exact Hrep' |]. split; [| simpl; congruence].
      simpl. rewrite pairs_of_app. reflexivity.
    + cbn -[insertNewEntry].
      destruct (insertNewEntry_represents alloc alloc_fresh c ys k v Hrep Hk)
        as (x & c' & -> & Hrep' & Hmax').
      { lia. }
      simpl. exists c'. split; [reflexivity |].
      exists (ys ++ [(x, k, v)]). split; [exact Hrep' |]. split; [| simpl; congruence].
      simpl. rewrite pairs_of_app. reflexivity.
Qed.

(** [lookup] finds what the specification finds and promotes alike. *)
Lemma lookup_refines c s k :
  refines c s ->
  exists c', lookup k c = Some (fst (LruSpec.lookup k s), c') /\
             refines c' (snd (LruSpec.lookup k s)).
Proof.
  intros (ys & Hrep & Hpairs & Hcap).
  unfold lookup, lookupCache, LruSpec.lookup. rewrite <- Hpairs.
  destruct (mCache c !! k) as [[a v0] |] eqn:Hk.
  - destruct (represents_lookup_Some c ys k a v0 Hrep Hk) as (ys1 & ys2 & ->).
    pose proof Hrep as (_ & Hnd & _).
    rewrite (find_pairs_of_split _ _ _ _ _ Hnd). simpl.
    destruct (touchEntry_represents c ys1 a k v0 ys2 v0 Hrep) as (c' & -> & Hrep' & Hmax').
    simpl. exists c'. split; [reflexivity |].
    exists (ys1 ++ ys2 ++ [(a, k, v0)]). split; [exact Hrep' |]. split; [| simpl; congruence].
    unfold LruSpec.promote. simpl.
    rewrite (remove_pairs_of_split _ _ _ _ _ Hnd).
    rewrite app_assoc, pairs_of_app. reflexivity.
  - apply (represents_lookup_None c ys k Hrep) in Hk.
    rewrite (find_pairs_of_notin ys k Hk). simpl.
    exists c. split; [reflexivity |]. exists ys. auto.
Qed.

Lemma drop_refines c s :
  refines c s -> exists c', drop c = Some c' /\ refines c' (LruSpec.drop s).
Proof.
  intros (ys & Hrep & Hpairs & Hcap).
  destruct (drop_represents c ys Hrep) as (c' & Hrun & Hrep' & Hmax').
  exists c'. split; [exact Hrun |]. exists []. split; [exact Hrep' |].
  split; [reflexivity | simpl; congruence].
Qed.

Lemma resize_refines c s (newSize : Z) :
  0 < newSize < 2 ^ 32 -> refines c s ->
  exists c', resize newSize c = Some c' /\ refines c' (LruSpec.resize newSize s).
Proof.
  intros Hnew (ys & Hrep & Hpairs & Hcap).
  destruct (resize_represents c ys newSize Hnew Hrep) as (c' & Hrun & Hrep' & Hmax').
  exists c'. split; [exact Hrun |].
  exists (skipn (length ys - Z.to_nat newSize) ys). split; [exact Hrep' |].
  split; [| exact Hmax'].
  unfold LruSpec.resize. simpl. rewrite <- Hpairs, length_pairs_of.
  unfold pairs_of. apply fmap_drop.
Qed.

Lemma run_call_refines c s (o : call) :
  call_ok o -> refines c s ->
  exists c', run_call alloc o c = Some c' /\ refines c' (LruSpec.run_call o s).
Proof.
  intros Hok Href. destruct o as [k v | k | | n]; simpl in *.
  - destruct (insert_refines c s k v Href) as (c' & -> & Href'). simpl. eauto.
  - destruct (lookup_refines c s k Href) as (c' & -> & Href'). simpl. eauto.
  - apply drop_refines. exact Href.
  - apply resize_refines; assumption.
Qed.

(** Every run of calls returns, in a state that refines the run of the
    specification. *)
Lemma run_refines (calls : list call) :
  Forall call_ok calls ->
  forall c s, refines c s ->
    exists c', run alloc calls c = Some c' /\ refines c' (LruSpec.run calls s).
Proof.
  induction 1 as [| o calls Hok _ IH]; intros c s Href.
  - exists c. auto.
  - destruct (run_call_refines c s o Hok Href) as (c1 & Hrun1 & Href1).
    destruct (IH c1 _ Href1) as (c' & Hrun & Href').
    exists c'. split; [| exact Href']. simpl. rewrite Hrun1. exact Hrun.
Qed.

(** In a cache that refines one of the specification, map and counter
    hold as many entries as the specification has pairs, no more than
    the maximum. *)
Lemma refines_size c s :
  refines c s ->
  Z.of_nat (size (mCache c)) = getNumberOfEntries c /\
  getNumberOfEntries c = Z.of_nat (length (LruSpec.items s)) /\
  getNumberOfEntries c <= mMaxCacheSize c.
Proof.
  intros (ys & (Hring & Hnd & Hmap & Hsize & Hle & Hmax) & Hpairs & Hcap).
  unfold getNumberOfEntries. rewrite <- Hpairs, length_pairs_of.
  split; [| split; [exact Hsize | exact Hle]].
  rewrite Hsize. f_equal.
  rewrite <- size_dom.
  assert (Hdom : dom (mCache c) = list_to_set (ys.*1.*2)).
  { apply set_eq. intros k. rewrite elem_of_dom, elem_of_list_to_set. split.
    - intros [[a v] Hk]. apply Hmap in Hk. exact (key_of_entry _ _ _ _ Hk).
    - intros Hk. apply entry_of_key in Hk as (a & v & Hin). apply Hmap in Hin. eauto. }
  rewrite Hdom, (size_list_to_set _ Hnd), !length_fmap. reflexivity.
Qed.

End RefinementFacts.

Section CacheTheorems.
Context {Key : Type} `{Countable Key} {Value : Type}.
Import Lru.
Variable alloc : gset nat -> nat.
Hypothesis alloc_fresh : forall X : gset nat, alloc X ∉ X.

(** C9: a cache made with a maximum above 0 and used through insert,
    lookup, drop and resize (to sizes above 0) always returns, and the
    entries it stores, counted in the map or by the counter, are never
    more than the maximum.  In every state so reached, an insert of a new
    key into the full cache deletes the oldest entry, one entry, and then
    enters the new one, so that the count stays; and a resize leaves the
    smaller of the count and the new size, which becomes the maximum. *)
Theorem entries_never_exceed_capacity
    (maxCacheSize : Z) (calls : list (call (Key := Key) (Value := Value))) :
  0 < maxCacheSize < 2 ^ 32 ->
  Forall call_ok calls ->
  exists c0 c,
    LruCache_new alloc maxCacheSize = Some c0 /\
    run alloc calls c0 = Some c /\
    Z.of_nat (size (mCache c)) = getNumberOfEntries c /\
    getNumberOfEntries c <= mMaxCacheSize c /\
    (forall k v, isFull c = true -> mCache c !! k = None ->
       exists c1 c',
         deleteOldestEntry c = Some c1 /\
         getNumberOfEntries c1 = getNumberOfEntries c - 1 /\
         insertNewEntry alloc k v c1 = Some c' /\
         insert alloc k v c = Some (true, c') /\
         getNumberOfEntries c' = getNumberOfEntries c /\
         getNumberOfEntries c' <= mMaxCacheSize c') /\
    (forall newSize, 0 < newSize < 2 ^ 32 ->
       exists c',
         resize newSize c = Some c' /\
         mMaxCacheSize c' = newSize /\
         getNumberOfEntries c' = Z.min (getNumberOfEntries c) newSize).
Proof.
  intros Hmax Hcalls.
  destruct (LruCache_new_refines (Key := Key) (Value := Value)
              alloc maxCacheSize Hmax) as (c0 & Hnew & Href0).
  destruct (run_refines alloc alloc_fresh calls Hcalls c0 _ Href0) as (c & Hrun & Href).
  exists c0, c. split; [exact Hnew |]. split; [exact Hrun |].
  destruct (refines_size c _ Href) as (Hmap & _ & Hle).
  split; [exact Hmap |]. split; [exact Hle |].
  destruct Href as (ys & Hrep & _ & _).
  pose proof Hrep as (_ & _ & _ & Hsize & _ & Hpos).
  unfold getNumberOfEntries in *. split.
  - intros k v Hfull Hk. unfold isFull in Hfull. apply Z.leb_le in Hfull.
    destruct ys as [| y ys]; [simpl in Hsize; lia |].
    destruct (deleteOldestEntry_represents c y ys Hrep) as (c1 & Hdel & Hrep1 & Hmax1).
    pose proof Hrep1 as (_ & _ & _ & Hsize1 & _).
    apply (represents_lookup_None c _ k Hrep) in Hk.
    destruct (insertNewEntry_represents alloc alloc_fresh c1 ys k v Hrep1)
      as (x & c' & Hins & Hrep' & Hmax').
    { rewrite !fmap_cons in Hk. apply not_elem_of_cons in Hk as [_ Hk]. exact Hk. }
    { rewrite Hsize1, Hmax1. simpl length in *. lia. }
    pose proof Hrep' as (_ & _ & _ & Hsize' & Hle' & _).
    exists c1, c'. split; [exact Hdel |].
    split; [rewrite Hsize1, Hsize; simpl length; lia |].
    split; [exact Hins |]. split; [| split; [| exact Hle']].
    + unfold insert, lookupCache.
      rewrite (proj2 (represents_lookup_None c _ k Hrep) Hk).
      unfold isFull.
      replace (mMaxCacheSize c <=? mCurrentCacheSize c) with true
        by (symmetry; apply Z.leb_le; exact Hfull).
      rewrite Hdel. cbn -[insertNewEntry]. rewrite Hins. reflexivity.
    + rewrite Hsize', Hsize, length_app. simpl length. lia.
  - intros newSize Hnew'.
    destruct (resize_represents c ys newSize Hnew' Hrep) as (c' & Hres & Hrep' & Hmax').
    pose proof Hrep' as (_ & _ & _ & Hsize' & _).
    exists c'. split; [exact Hres |]. split; [exact Hmax' |].
    rewrite Hsize', Hsize, length_skipn. lia.
Qed.

End CacheTheorems.

Section ScenarioTheorems.
Context {Value : Type}.
Import Lru.
Variable alloc : gset nat -> nat.
Hypothesis alloc_fresh : forall X : gset nat, alloc X ∉ X.

(** C3: in a cache of capacity 2, after Insert(1,A); Insert(2,B);
    Lookup(1); Insert(3,C) the lookup of 2 misses and the lookups of 1
    and 3 hit with A and C: the lookup of 1 promoted it, so the insert of
    3 into the full cache evicted 2, the least recently used. *)
Theorem lru_eviction_scenario (A B C : Value) :
  exists c0 c : LruCache (Key := Z) (Value := Value),
    LruCache_new alloc 2 = Some c0 /\
    run alloc [Insert 1 A; Insert 2 B; Lookup 1; Insert 3 C] c0 = Some c /\
    lookup 2 c = Some (None, c) /\
    (exists c', lookup 1 c = Some (Some A, c')) /\
    (exists c', lookup 3 c = Some (Some C, c')).
Proof.
  destruct (LruCache_new_refines (Key := Z) (Value := Value) alloc 2)
    as (c0 & Hnew & Href0); [lia |].
  destruct (run_refines alloc alloc_fresh
              [Insert 1 A; Insert 2 B; Lookup 1; Insert 3 C]
              ltac:(repeat constructor) c0 _ Href0) as (c & Hrun & Href).
  exists c0, c. split; [exact Hnew |]. split; [exact Hrun |].
  change (LruSpec.run _ _) with (LruSpec.mkCache [(1, A); (3, C)] 2) in Href.
  split; [| split].
  - pose proof Href as (ys & Hrep & Hpairs & _).
    unfold lookup, lookupCache.
    rewrite (proj2 (represents_lookup_None c ys 2 Hrep)); [reflexivity |].
    intros Hin. apply entry_of_key in Hin as (a & v & Hin).
    assert (Hp : (2, v) ∈ pairs_of ys).
    { apply list_elem_of_fmap. exists (a, 2, v). auto. }
    rewrite Hpairs in Hp. simpl in Hp.
    apply elem_of_cons in Hp as [[= ?] | Hp].
    apply elem_of_cons in Hp as [[= ?] | Hp].
    apply elem_of_nil in Hp. exact Hp.
  - destruct (lookup_refines c _ 1 Href) as (c' & Hl & _). exists c'. exact Hl.
  - destruct (lookup_refines c _ 3 Href) as (c' & Hl & _). exists c'. exact Hl.
Qed.

End ScenarioTheorems.

Lemma entries_never_exceed_capacity_witness :
  exists c0 c : Lru.LruCache (Key := Z) (Value := ascii),
    Lru.LruCache_new fresh 2 = Some c0 /\
    Lru.run fresh
      [Lru.Insert 1 "A"%char; Lru.Insert 2 "B"%char; Lru.Insert 3 "C"%char;
       Lru.Resize 1; Lru.Lookup 3; Lru.Drop; Lru.Insert 4 "D"%char] c0 = Some c /\
    Z.of_nat (size (Lru.mCache c)) = Lru.getNumberOfEntries c /\
    Lru.getNumberOfEntries c <= Lru.mMaxCacheSize c.
Proof.
  destruct (entries_never_exceed_capacity (Key := Z) (Value := ascii)
              fresh is_fresh 2
              [Lru.Insert 1 "A"%char; Lru.Insert 2 "B"%char; Lru.Insert 3 "C"%char;
               Lru.Resize 1; Lru.Lookup 3; Lru.Drop; Lru.Insert 4 "D"%char])
    as (c0 & c & Hnew & Hrun & Hmap & Hle & _).
  - lia.
  - repeat constructor; simpl; lia.
  - exists c0, c. auto.
Defined.

Lemma lru_eviction_scenario_witness :
  exists c0 c : Lru.LruCache (Key := Z) (Value := ascii),
    Lru.LruCache_new fresh 2 = Some c0 /\
    Lru.run fresh
      [Lru.Insert 1 "A"%char; Lru.Insert 2 "B"%char; Lru.Lookup 1;
       Lru.Insert 3 "C"%char] c0 = Some c /\
    Lru.lookup 2 c = Some (None, c) /\
    (exists c', Lru.lookup 1 c = Some (Some "A"%char, c')) /\
    (exists c', Lru.lookup 3 c = Some (Some "C"%char, c')).
Proof.
  apply (lru_eviction_scenario (Value := ascii) fresh is_fresh
           "A"%char "B"%char "C"%char).
Defined.

(* ================================================================== *)
(** * Further properties of dirent.h *)
(* ================================================================== *)

Section DirentMoreFacts.
Import Dirent.

Lemma int64_uint64 z : 0 <= z < 2 ^ 64 -> uint64 (int64 z) = z.
Proof.
  intros Hz. destruct (int64_multiple z) as [q ->].
  unfold uint64. rewrite Z.mod_add by lia. apply Z.mod_small. exact Hz.
Qed.

Lemma low32_of_field h :
  0 <= h < 2 ^ 64 ->
  uint32 (Z.shiftr (uint64 (Z.shiftl h 32)) 32) = h mod 2 ^ 32.
Proof.
  intros Hh. rewrite Z.shiftl_mul_pow2 by lia. unfold uint64.
  change (2 ^ 64) with (2 ^ 32 * 2 ^ 32).
  rewrite Z.mul_mod_distr_r by lia.
  rewrite Z.shiftr_div_pow2 by lia. rewrite Z.div_mul by lia.
  apply uint32_small. apply Z.mod_pos_bound. lia.
Qed.

Lemma high32_of_field h :
  0 <= h < 2 ^ 64 -> Hardlinks2HardlinkGroup h = h / 2 ^ 32.
Proof.
  intros Hh. unfold Hardlinks2HardlinkGroup. rewrite Z.shiftr_div_pow2 by lia.
  apply uint32_small. split; [apply Z.div_pos; lia |].
  apply Z.div_lt_upper_bound; lia.
Qed.

(** X1: decoding a non-zero hardlinks field and packing the two numbers
    again gives the field back: an entry whose field is [h], set to its
    own hardlink group and link count, holds [h] again.  (For the field 0
    the decoded link count is 1, and packing gives 1.) *)
Theorem hardlinks_decode_then_encode (e : DirectoryEntry) :
  0 < hardlinks_ e < 2 ^ 64 ->
  hardlinks_ (set_hardlinks e (hardlink_group e) (linkcount e)) = hardlinks_ e.
Proof.
  intros Hh. unfold hardlink_group, linkcount. cbn [set_hardlinks hardlinks_].
  set (h := hardlinks_ e) in *.
  rewrite (high32_of_field h) by lia.
  unfold Hardlinks2Linkcount.
  replace (h =? 0) with false by (symmetry; apply Z.eqb_neq; lia).
  rewrite (low32_of_field h) by lia.
  rewrite pack_hardlinks_add.
  - pose proof (Z.div_mod h (2 ^ 32) ltac:(lia)). lia.
  - split; [apply Z.div_pos; lia | apply Z.div_lt_upper_bound; lia].
  - apply Z.mod_pos_bound. lia.
Qed.

Lemma hardlinks_decode_then_encode_witness :
  hardlinks_ (set_hardlinks (set_hardlinks zeroed_storage 7 3)
                (hardlink_group (set_hardlinks zeroed_storage 7 3))
                (linkcount (set_hardlinks zeroed_storage 7 3))) =
  hardlinks_ (set_hardlinks zeroed_storage 7 3).
Proof.
  apply (hardlinks_decode_then_encode (set_hardlinks zeroed_storage 7 3)).
  vm_compute. split; reflexivity.
Defined.

(** X2: in the stat structure of an entry whose size fits off_t, st_size
    is [size()], which for a symlink is the length of the target whatever
    [size_] holds; the block count is [1 + size / 512], so that 512-byte
    blocks cover the size with room to spare; and st_nlink is the decoded
    link count, 1 for the hardlinks field 0. *)
Theorem stat_of_entry (e : DirectoryEntry) :
  0 <= size e < 2 ^ 63 ->
  st_size (GetStatStructure e) = size e /\
  (IsLink e = true ->
   st_size (GetStatStructure e) = Z.of_nat (length (symlink_ e))) /\
  st_blocks (GetStatStructure e) = 1 + size e / 512 /\
  st_size (GetStatStructure e) < 512 * st_blocks (GetStatStructure e) /\
  st_nlink (GetStatStructure e) = Hardlinks2Linkcount (hardlinks_ e) /\
  (hardlinks_ e = 0 -> st_nlink (GetStatStructure e) = 1).
Proof.
  intros Hs. cbn [GetStatStructure st_size st_blocks st_nlink].
  assert (Hsize : int64 (size e) = size e) by (apply int64_small; lia).
  assert (Hdiv : 0 <= size e / 512 < 2 ^ 54).
  { split; [apply Z.div_pos; lia | apply Z.div_lt_upper_bound; lia]. }
  assert (Hblocks : int64 (uint64 (1 + size e / 512)) = 1 + size e / 512).
  { rewrite uint64_small by lia. apply int64_small. lia. }
  rewrite Hsize, Hblocks.
  split; [reflexivity |]. split.
  - intros Hlink. unfold size. rewrite Hlink. reflexivity.
  - split; [reflexivity |]. split.
    + pose proof (Z.div_mod (size e) 512 ltac:(lia)).
      pose proof (Z.mod_pos_bound (size e) 512 ltac:(lia)). lia.
    + split; [reflexivity |]. intros H0. unfold linkcount. rewrite H0. reflexivity.
Qed.

Lemma stat_of_entry_witness :
  st_size (GetStatStructure zeroed_storage) = 0 /\
  st_blocks (GetStatStructure zeroed_storage) = 1.
Proof.
  destruct (stat_of_entry zeroed_storage) as (Hsz & _ & Hbl & _).
  - vm_compute. split; [discriminate | reflexivity].
  - split; [exact Hsz | exact Hbl].
Defined.

End DirentMoreFacts.

(* ================================================================== *)
(** * The statements of catalog_sql.cc on the catalog table *)
(* ================================================================== *)

Section StatementFacts.
Import Dirent CatalogSql.

Implicit Types (tbl : list Row) (h p : Md5) (e : DirectoryEntry) (r : Row).

Ltac bound_param :=
  unfold int_param, text_param, blob_param, BindDirentFields, BindMd5,
    BindInt64, BindInt, BindText, BindSha1Blob;
  cbv zeta;
  repeat (rewrite lookup_insert_ne by discriminate);
  rewrite lookup_insert_eq; reflexivity.

(** ** Lists and filters *)

Lemma filter_filter_neg {A : Type} (f : A -> bool) (l : list A) :
  List.filter f (List.filter (fun x => negb (f x)) l) = [].
Proof.
  induction l as [| x l IH]; [reflexivity |]. simpl.
  destruct (f x) eqn:Hf; simpl; [exact IH |]. rewrite Hf. exact IH.
Qed.

Lemma filter_filter_weaker {A : Type} (f g : A -> bool) (l : list A) :
  (forall x, f x = true -> g x = true) ->
  List.filter f (List.filter g l) = List.filter f l.
Proof.
  intros Hfg. induction l as [| x l IH]; [reflexivity |]. simpl.
  destruct (g x) eqn:Hg; simpl.
  - rewrite IH. reflexivity.
  - destruct (f x) eqn:Hf; [| exact IH].
    apply Hfg in Hf. congruence.
Qed.

Lemma filter_map_stable {A : Type} (f : A -> bool) (u : A -> A) (l : list A) :
  (forall x, f (u x) = f x) ->
  List.filter f (map u l) = map u (List.filter f l).
Proof.
  intros Hfu. induction l as [| x l IH]; [reflexivity |]. simpl.
  rewrite Hfu. destruct (f x); simpl; rewrite IH; reflexivity.
Qed.

Lemma filter_none {A : Type} (f : A -> bool) (l : list A) :
  existsb f l = false -> List.filter f l = [].
Proof.
  induction l as [| x l IH]; [reflexivity |]. simpl.
  destruct (f x); simpl; [discriminate | exact IH].
Qed.

Lemma filter_all_neg {A : Type} (f : A -> bool) (l : list A) :
  existsb f l = false -> List.filter (fun x => negb (f x)) l = l.
Proof.
  induction l as [| x l IH]; [reflexivity |]. simpl.
  destruct (f x); simpl; [discriminate |]. intros Hl. rewrite IH; trivial.
Qed.

Lemma existsb_filter_nil {A : Type} (f : A -> bool) (l : list A) :
  List.filter f l = [] -> existsb f l = false.
Proof.
  induction l as [| x l IH]; [reflexivity |]. simpl.
  destruct (f x); simpl; [discriminate | exact IH].
Qed.

(** ** Path hashes *)

Lemma has_path_spec r (a b : Z) :
  has_path a b r = true <-> GetPathHash r = (a, b).
Proof.
  unfold has_path, GetPathHash. rewrite andb_true_iff, !Z.eqb_eq.
  split; [intros [-> ->]; reflexivity | intros [= -> ->]; auto].
Qed.

Lemma has_path_other r h h' :
  h' <> h -> has_path h'.1 h'.2 r = true -> has_path h.1 h.2 r = false.
Proof.
  intros Hne Hh'. apply has_path_spec in Hh'.
  destruct (has_path h.1 h.2 r) eqn:Hh; [| reflexivity].
  apply has_path_spec in Hh. exfalso. apply Hne.
  destruct h, h'. simpl in *. congruence.
Qed.

Lemma valid_md5_int64 h : valid_md5 h -> int64 h.1 = h.1 /\ int64 h.2 = h.2.
Proof.
  intros [H1 H2]. unfold in_int64 in *. split; apply int64_small; assumption.
Qed.

(** ** What the bound statements do *)

Lemma lookup_path_eq h tbl :
  valid_md5 h ->
  lookup_path h tbl = Some (List.filter (has_path h.1 h.2) tbl).
Proof.
  intros Hh. destruct (valid_md5_int64 h Hh) as [H1 H2].
  unfold lookup_path, SqlLookupPathHash_rows, SqlLookupPathHash_BindPathHash.
  replace (int_param (BindMd5 1 2 h ∅) 1%nat) with (Some (int64 h.1)) by (symmetry; bound_param).
  replace (int_param (BindMd5 1 2 h ∅) 2%nat) with (Some (int64 h.2)) by (symmetry; bound_param).
  simpl. rewrite H1, H2. reflexivity.
Qed.

Lemma listing_eq p tbl :
  valid_md5 p ->
  listing p tbl = Some (List.filter (has_parent p.1 p.2) tbl).
Proof.
  intros Hp. destruct (valid_md5_int64 p Hp) as [H1 H2].
  unfold listing, SqlListing_rows, SqlListing_BindPathHash.
  replace (int_param (BindMd5 1 2 p ∅) 1%nat) with (Some (int64 p.1)) by (symmetry; bound_param).
  replace (int_param (BindMd5 1 2 p ∅) 2%nat) with (Some (int64 p.2)) by (symmetry; bound_param).
  simpl. rewrite H1, H2. reflexivity.
Qed.

Lemma unlink_path_eq h tbl :
  valid_md5 h ->
  unlink_path h tbl =
    Some (List.filter (fun r => negb (has_path h.1 h.2 r)) tbl).
Proof.
  intros Hh. destruct (valid_md5_int64 h Hh) as [H1 H2].
  unfold unlink_path, SqlDirentUnlink_Execute, SqlDirentUnlink_BindPathHash.
  replace (int_param (BindMd5 1 2 h ∅) 1%nat) with (Some (int64 h.1)) by (symmetry; bound_param).
  replace (int_param (BindMd5 1 2 h ∅) 2%nat) with (Some (int64 h.2)) by (symmetry; bound_param).
  simpl. rewrite H1, H2. reflexivity.
Qed.

Lemma touch_path_eq h (t : Z) tbl :
  valid_md5 h ->
  touch_path h t tbl =
    Some (map (fun r => if has_path h.1 h.2 r then set_mtime r (int64 t) else r)
              tbl).
Proof.
  intros Hh. destruct (valid_md5_int64 h Hh) as [H1 H2].
  unfold touch_path, SqlDirentTouch_Execute, SqlDirentTouch_BindTimestamp,
    SqlDirentTouch_BindPathHash.
  set (ps := BindInt64 1 t (BindMd5 2 3 h ∅)).
  replace (int_param ps 1%nat) with (Some (int64 t)) by (symmetry; subst ps; bound_param).
  replace (int_param ps 2%nat) with (Some (int64 h.1)) by (symmetry; subst ps; bound_param).
  replace (int_param ps 3%nat) with (Some (int64 h.2)) by (symmetry; subst ps; bound_param).
  simpl. rewrite H1, H2. reflexivity.
Qed.

Lemma update_dirent_eq h e tbl :
  valid_md5 h ->
  update_dirent h e tbl =
    Some (map (fun r =>
                 if has_path h.1 h.2 r then
                   row_of_entry (GetPathHash r) (GetParentPathHash r) e (rowid r)
                 else r) tbl).
Proof.
  intros Hh. destruct (valid_md5_int64 h Hh) as [H1 H2].
  unfold update_dirent, SqlDirentUpdate_Execute, SqlDirentUpdate_BindDirent,
    SqlDirentUpdate_BindPathHash.
  set (ps := BindDirentFields 1 8 2 3 4 5 6 7 e (BindMd5 9 10 h ∅)).
  replace (blob_param ps 1%nat) with (Some (checksum_ e)) by (symmetry; subst ps; bound_param).
  replace (int_param ps 2%nat) with (Some (int64 (size_ e))) by (symmetry; subst ps; bound_param).
  replace (int_param ps 3%nat) with (Some (int32 (mode_ e))) by (symmetry; subst ps; bound_param).
  replace (int_param ps 4%nat) with (Some (int64 (mtime_ e))) by (symmetry; subst ps; bound_param).
  replace (int_param ps 5%nat) with (Some (int32 (CreateDatabaseFlags e)))
    by (symmetry; subst ps; bound_param).
  replace (text_param ps 6%nat) with (Some (name_ e)) by (symmetry; subst ps; bound_param).
  replace (text_param ps 7%nat) with (Some (symlink_ e)) by (symmetry; subst ps; bound_param).
  replace (int_param ps 8%nat) with (Some (int64 (inode_ e))) by (symmetry; subst ps; bound_param).
  replace (int_param ps 9%nat) with (Some (int64 h.1)) by (symmetry; subst ps; bound_param).
  replace (int_param ps 10%nat) with (Some (int64 h.2)) by (symmetry; subst ps; bound_param).
  simpl. rewrite H1, H2. reflexivity.
Qed.

Lemma inc_linkcount_eq h (delta : Z) tbl :
  valid_md5 h ->
  inc_linkcount h delta tbl =
    Some (SqlIncLinkcount_Execute tbl h.1 h.2 (int32 delta)).
Proof.
  intros Hh. destruct (valid_md5_int64 h Hh) as [H1 H2].
  unfold inc_linkcount, SqlIncLinkcount_run, SqlIncLinkcount_BindDelta,
    SqlIncLinkcount_BindPathHash.
  set (ps := BindInt 1 delta (BindMd5 2 3 h ∅)).
  replace (int_param ps 1%nat) with (Some (int32 delta)) by (symmetry; subst ps; bound_param).
  replace (int_param ps 2%nat) with (Some (int64 h.1)) by (symmetry; subst ps; bound_param).
  replace (int_param ps 3%nat) with (Some (int64 h.2)) by (symmetry; subst ps; bound_param).
  simpl. rewrite H1, H2. reflexivity.
Qed.

(** The parameters of SqlDirentInsert after the three Bind calls. *)
Lemma insert_parameters h p e (ps0 : params) :
  let ps := SqlDirentInsert_BindDirent e
              (SqlDirentInsert_BindParentPathHash p
                 (SqlDirentInsert_BindPathHash h ps0)) in
  int_param ps 1%nat = Some (int64 h.1) /\
  int_param ps 2%nat = Some (int64 h.2) /\
  int_param ps 3%nat = Some (int64 p.1) /\
  int_param ps 4%nat = Some (int64 p.2) /\
  blob_param ps 5%nat = Some (checksum_ e) /\
  int_param ps 6%nat = Some (int64 (inode_ e)) /\
  int_param ps 7%nat = Some (int64 (size_ e)) /\
  int_param ps 8%nat = Some (int32 (mode_ e)) /\
  int_param ps 9%nat = Some (int64 (mtime_ e)) /\
  int_param ps 10%nat = Some (int32 (CreateDatabaseFlags e)) /\
  text_param ps 11%nat = Some (name_ e) /\
  text_param ps 12%nat = Some (symlink_ e).
Proof.
  cbv zeta.
  unfold SqlDirentInsert_BindDirent, SqlDirentInsert_BindParentPathHash,
    SqlDirentInsert_BindPathHash.
  repeat split; bound_param.
Qed.

(** What SqlDirentInsert does once bound. *)
Lemma insert_dirent_eq h p e tbl :
  valid_md5 h -> valid_md5 p ->
  insert_dirent h p e tbl =
    Some (if existsb (has_path h.1 h.2) tbl then tbl
          else tbl ++ [row_of_entry h p e (new_rowid tbl)]).
Proof.
  intros Hh Hp.
  destruct (valid_md5_int64 h Hh) as [H1 H2].
  destruct (valid_md5_int64 p Hp) as [P1 P2].
  unfold insert_dirent, SqlDirentInsert_Execute.
  destruct (insert_parameters h p e ∅)
    as (-> & -> & -> & -> & -> & -> & -> & -> & -> & -> & -> & ->).
  simpl. rewrite H1, H2, P1, P2.
  destruct (existsb (has_path h.1 h.2) tbl); reflexivity.
Qed.


(** X3: SqlDirentInsert, bound with a path hash, a parent hash and an
    entry and executed, appends one row that holds every member of the
    entry in the column of its name (the parameter numbers of BindDirent
    match the statement), under a new rowid; when a row of that path hash
    is in the table already, the table is left as it is and the
    statement still succeeds. *)
Theorem insert_dirent_writes_row h p e tbl :
  valid_md5 h -> valid_md5 p ->
  insert_dirent h p e tbl =
    Some (if existsb (has_path h.1 h.2) tbl then tbl
          else tbl ++ [row_of_entry h p e (new_rowid tbl)]).
Proof. apply insert_dirent_eq. Qed.

Lemma insert_dirent_writes_row_witness :
  insert_dirent (1, 0) (0, 0) Dirent.zeroed_storage [sample_row 5 0] =
    Some [sample_row 5 0;
          row_of_entry (1, 0) (0, 0) Dirent.zeroed_storage 6].
Proof.
  rewrite (insert_dirent_writes_row (1, 0) (0, 0) Dirent.zeroed_storage
             [sample_row 5 0]).
  - reflexivity.
  - vm_compute. repeat split; discriminate.
  - vm_compute. repeat split; discriminate.
Defined.

Lemma existsb_has_path_app h tbl r :
  existsb (has_path h.1 h.2) (tbl ++ [r]) =
  existsb (has_path h.1 h.2) tbl || has_path h.1 h.2 r.
Proof. rewrite existsb_app. simpl. rewrite orb_false_r. reflexivity. Qed.

Lemma has_path_row_of_entry h h' p e (id : Z) :
  has_path h'.1 h'.2 (row_of_entry h p e id) = true <-> h = h'.
Proof.
  rewrite has_path_spec. unfold GetPathHash. simpl.
  destruct h, h'. simpl. split; congruence.
Qed.

(** X4: after the insert of an entry under a path hash that no row has,
    the lookup of that path hash fetches exactly the new row, and the
    lookup of every other path hash fetches what it fetched before. *)
Theorem insert_then_lookup h p e tbl :
  valid_md5 h -> valid_md5 p ->
  lookup_path h tbl = Some [] ->
  exists tbl',
    insert_dirent h p e tbl = Some tbl' /\
    lookup_path h tbl' = Some [row_of_entry h p e (new_rowid tbl)] /\
    (forall h', valid_md5 h' -> h' <> h ->
                lookup_path h' tbl' = lookup_path h' tbl).
Proof.
  intros Hh Hp Habsent.
  rewrite (lookup_path_eq h tbl Hh) in Habsent. injection Habsent as Habsent.
  rewrite insert_dirent_eq by assumption.
  rewrite (existsb_filter_nil _ _ Habsent).
  eexists. split; [reflexivity |]. split.
  - rewrite lookup_path_eq by assumption. rewrite List.filter_app, Habsent. simpl.
    rewrite (proj2 (has_path_row_of_entry h h p e _) eq_refl). reflexivity.
  - intros h' Hh' Hne. rewrite !lookup_path_eq by assumption.
    rewrite List.filter_app. simpl.
    destruct (has_path h'.1 h'.2 (row_of_entry h p e (new_rowid tbl))) eqn:Hrow.
    + apply has_path_row_of_entry in Hrow. congruence.
    + rewrite app_nil_r. reflexivity.
Qed.

Lemma insert_then_lookup_witness :
  exists tbl',
    insert_dirent (1, 0) (0, 0) Dirent.zeroed_storage [sample_row 5 0] = Some tbl' /\
    lookup_path (1, 0) tbl' =
      Some [row_of_entry (1, 0) (0, 0) Dirent.zeroed_storage 6].
Proof.
  destruct (insert_then_lookup (1, 0) (0, 0) Dirent.zeroed_storage [sample_row 5 0])
    as (tbl' & Hins & Hlook & _).
  - vm_compute. repeat split; discriminate.
  - vm_compute. repeat split; discriminate.
  - reflexivity.
  - exists tbl'. split; [exact Hins | exact Hlook].
Defined.

(** X5: SqlDirentUnlink removes the rows of the path hash and no other:
    afterwards the lookup of that path hash fetches nothing, every other
    lookup fetches what it fetched before, and when no row had the path
    hash the table is unchanged (the statement succeeds all the same). *)
Theorem unlink_then_lookup h tbl :
  valid_md5 h ->
  exists tbl',
    unlink_path h tbl = Some tbl' /\
    lookup_path h tbl' = Some [] /\
    (forall h', valid_md5 h' -> h' <> h ->
                lookup_path h' tbl' = lookup_path h' tbl) /\
    (lookup_path h tbl = Some [] -> tbl' = tbl).
Proof.
  intros Hh. rewrite unlink_path_eq by assumption.
  eexists. split; [reflexivity |]. split; [| split].
  - rewrite lookup_path_eq by assumption.
    rewrite (filter_filter_neg (has_path h.1 h.2)). reflexivity.
  - intros h' Hh' Hne. rewrite !lookup_path_eq by assumption. f_equal.
    apply filter_filter_weaker. intros r Hr.
    rewrite (has_path_other r h h' Hne Hr). reflexivity.
  - rewrite lookup_path_eq by assumption. intros [= Habsent].
    apply filter_all_neg. apply existsb_filter_nil. exact Habsent.
Qed.

Lemma unlink_then_lookup_witness :
  exists tbl',
    unlink_path (5, 0) [sample_row 5 0; sample_row 6 0] = Some tbl' /\
    lookup_path (5, 0) tbl' = Some [].
Proof.
  destruct (unlink_then_lookup (5, 0) [sample_row 5 0; sample_row 6 0])
    as (tbl' & Hun & Hlook & _).
  - vm_compute. repeat split; discriminate.
  - exists tbl'. split; [exact Hun | exact Hlook].
Defined.

Lemma insert_unlink_round_trip h p e tbl :
  valid_md5 h -> valid_md5 p ->
  lookup_path h tbl = Some [] ->
  exists tbl',
    insert_dirent h p e tbl = Some tbl' /\ unlink_path h tbl' = Some tbl.
Proof.
  intros Hh Hp Habsent.
  rewrite (lookup_path_eq h tbl Hh) in Habsent. injection Habsent as Habsent.
  rewrite insert_dirent_eq by assumption.
  rewrite (existsb_filter_nil _ _ Habsent).
  eexists. split; [reflexivity |].
  rewrite unlink_path_eq by assumption. rewrite List.filter_app. simpl.
  rewrite (proj2 (has_path_row_of_entry h h p e _) eq_refl). simpl.
  rewrite app_nil_r. f_equal.
  apply filter_all_neg. apply existsb_filter_nil. exact Habsent.
Qed.


(** X6: an insert under a path hash that no row has, followed by the
    unlink of that path hash, gives the table from before the insert. *)
Theorem insert_then_unlink h p e tbl :
  valid_md5 h -> valid_md5 p ->
  lookup_path h tbl = Some [] ->
  exists tbl',
    insert_dirent h p e tbl = Some tbl' /\ unlink_path h tbl' = Some tbl.
Proof. apply insert_unlink_round_trip. Qed.

Lemma insert_then_unlink_witness :
  exists tbl',
    insert_dirent (1, 0) (0, 0) Dirent.zeroed_storage [sample_row 5 0] = Some tbl' /\
    unlink_path (1, 0) tbl' = Some [sample_row 5 0].
Proof.
  apply (insert_then_unlink (1, 0) (0, 0) Dirent.zeroed_storage [sample_row 5 0]).
  - vm_compute. repeat split; discriminate.
  - vm_compute. repeat split; discriminate.
  - reflexivity.
Defined.

Lemma has_path_set_mtime r (a b t : Z) :
  has_path a b (set_mtime r t) = has_path a b r.
Proof. reflexivity. Qed.

(** X7: SqlDirentTouch gives the rows of the path hash the new mtime and
    changes no other column and no other row: the lookup of the path hash
    fetches the rows it fetched before with the mtime replaced, every
    other lookup fetches what it fetched before, and a touch of a path
    hash that no row has leaves the table as it is. *)
Theorem touch_then_lookup h (timestamp : Z) tbl :
  valid_md5 h -> in_int64 timestamp ->
  exists tbl',
    touch_path h timestamp tbl = Some tbl' /\
    lookup_path h tbl' =
      (map (fun r => set_mtime r timestamp)) <$> lookup_path h tbl /\
    (forall h', valid_md5 h' -> h' <> h ->
                lookup_path h' tbl' = lookup_path h' tbl) /\
    (lookup_path h tbl = Some [] -> tbl' = tbl).
Proof.
  intros Hh Ht. rewrite touch_path_eq by assumption.
  unfold in_int64 in Ht. rewrite (int64_small timestamp Ht).
  set (u := fun r => if has_path h.1 h.2 r then set_mtime r timestamp else r).
  assert (Hu : forall a b r, has_path a b (u r) = has_path a b r).
  { intros a b r. unfold u. destruct (has_path h.1 h.2 r); reflexivity. }
  eexists. split; [reflexivity |]. split; [| split].
  - rewrite !lookup_path_eq by assumption. simpl. f_equal.
    rewrite filter_map_stable by (intros r; apply Hu).
    apply map_ext_in. intros r Hr. apply List.filter_In in Hr as [_ Hr].
    unfold u. rewrite Hr. reflexivity.
  - intros h' Hh' Hne. rewrite !lookup_path_eq by assumption. f_equal.
    rewrite filter_map_stable by (intros r; apply Hu).
    rewrite <- (map_id (List.filter (has_path h'.1 h'.2) tbl)) at 2.
    apply map_ext_in. intros r Hr. apply List.filter_In in Hr as [_ Hr].
    unfold u. rewrite (has_path_other r h h' Hne Hr). reflexivity.
  - rewrite lookup_path_eq by assumption. intros [= Habsent].
    rewrite <- (map_id tbl) at 2. apply map_ext_in. intros r Hr. unfold u.
    destruct (has_path h.1 h.2 r) eqn:Hhr; [| reflexivity].
    assert (Hin : In r (List.filter (has_path h.1 h.2) tbl)).
    { apply List.filter_In. auto. }
    rewrite Habsent in Hin. destruct Hin.
Qed.

Lemma touch_then_lookup_witness :
  exists tbl',
    touch_path (5, 0) 1234 [sample_row 5 0; sample_row 6 0] = Some tbl' /\
    lookup_path (5, 0) tbl' = Some [set_mtime (sample_row 5 0) 1234].
Proof.
  destruct (touch_then_lookup (5, 0) 1234 [sample_row 5 0; sample_row 6 0])
    as (tbl' & Htouch & Hlook & _).
  - vm_compute. repeat split; discriminate.
  - vm_compute. split; [discriminate | reflexivity].
  - exists tbl'. split; [exact Htouch | exact Hlook].
Defined.

(** X8: SqlDirentUpdate replaces, in the rows of the path hash, the eight
    columns of the entry by the members of the new entry and keeps path
    hash, parent hash and rowid; every other lookup fetches what it
    fetched before. *)
Theorem update_then_lookup h e tbl :
  valid_md5 h ->
  exists tbl',
    update_dirent h e tbl = Some tbl' /\
    lookup_path h tbl' =
      (map (fun r => row_of_entry h (GetParentPathHash r) e (rowid r)))
        <$> lookup_path h tbl /\
    (forall h', valid_md5 h' -> h' <> h ->
                lookup_path h' tbl' = lookup_path h' tbl).
Proof.
  intros Hh. rewrite update_dirent_eq by assumption.
  set (u := fun r => if has_path h.1 h.2 r
                     then row_of_entry (GetPathHash r) (GetParentPathHash r) e (rowid r)
                     else r).
  assert (Hu : forall a b r, has_path a b (u r) = has_path a b r).
  { intros a b r. unfold u. destruct (has_path h.1 h.2 r); reflexivity. }
  eexists. split; [reflexivity |]. split.
  - rewrite !lookup_path_eq by assumption. simpl. f_equal.
    rewrite filter_map_stable by (intros r; apply Hu).
    apply map_ext_in. intros r Hr. apply List.filter_In in Hr as [_ Hr].
    unfold u. rewrite Hr. apply has_path_spec in Hr. rewrite Hr.
    destruct h. reflexivity.
  - intros h' Hh' Hne. rewrite !lookup_path_eq by assumption. f_equal.
    rewrite filter_map_stable by (intros r; apply Hu).
    rewrite <- (map_id (List.filter (has_path h'.1 h'.2) tbl)) at 2.
    apply map_ext_in. intros r Hr. apply List.filter_In in Hr as [_ Hr].
    unfold u. rewrite (has_path_other r h h' Hne Hr). reflexivity.
Qed.

Lemma update_then_lookup_witness :
  exists tbl',
    update_dirent (5, 0) Dirent.zeroed_storage [sample_row 5 7; sample_row 6 0]
      = Some tbl' /\
    lookup_path (5, 0) tbl' =
      Some [row_of_entry (5, 0) (0, 0) Dirent.zeroed_storage 5].
Proof.
  destruct (update_then_lookup (5, 0) Dirent.zeroed_storage
              [sample_row 5 7; sample_row 6 0]) as (tbl' & Hup & Hlook & _).
  - vm_compute. repeat split; discriminate.
  - exists tbl'. split; [exact Hup | exact Hlook].
Defined.


Lemma NoDup_map_filter {A B : Type} (g : A -> B) (f : A -> bool) (l : list A) :
  NoDup (map g l) -> NoDup (map g (List.filter f l)).
Proof.
  induction l as [| x l IH]; simpl; [trivial |].
  intros Hnd. apply NoDup_cons in Hnd as [Hx Hnd].
  destruct (f x); simpl; [| apply IH; exact Hnd].
  apply NoDup_cons. split; [| apply IH; exact Hnd].
  intros Hin. apply Hx. apply list_elem_of_In in Hin. apply list_elem_of_In.
  apply in_map_iff in Hin as (y & Hy & Hin). apply in_map_iff.
  exists y. split; [exact Hy |]. apply List.filter_In in Hin. tauto.
Qed.

Lemma map_key_stable (u : Row -> Row) tbl :
  (forall r, GetPathHash (u r) = GetPathHash r) ->
  map GetPathHash (map u tbl) = map GetPathHash tbl.
Proof.
  intros Hu. rewrite map_map. apply map_ext. exact Hu.
Qed.

Lemma keys_unique_one_row h tbl :
  keys_unique tbl -> (length (List.filter (has_path h.1 h.2) tbl) <= 1)%nat.
Proof.
  unfold keys_unique. induction tbl as [| r tbl IH]; simpl; [lia |].
  intros Hnd. apply NoDup_cons in Hnd as [Hr Hnd].
  destruct (has_path h.1 h.2 r) eqn:Hhr; [| apply IH; exact Hnd].
  simpl. rewrite filter_none; [simpl; lia |].
  destruct (existsb (has_path h.1 h.2) tbl) eqn:Hex; [| reflexivity].
  exfalso. apply Hr. apply existsb_exists in Hex as (r' & Hin & Hr').
  apply has_path_spec in Hhr, Hr'. rewrite Hhr, <- Hr'.
  apply list_elem_of_In. apply in_map. exact Hin.
Qed.

(** X9: the primary key of table catalog is kept by every writing
    statement: when no two rows have the same path hash, the same holds
    after an insert, an update, a touch, an unlink and a change of the
    link count, each of which succeeds; and the lookup of a path hash
    then fetches at most one row. *)
Theorem primary_key_kept h p e (timestamp delta : Z) tbl :
  valid_md5 h -> valid_md5 p ->
  keys_unique tbl ->
  (exists t, insert_dirent h p e tbl = Some t /\ keys_unique t) /\
  (exists t, update_dirent h e tbl = Some t /\ keys_unique t) /\
  (exists t, touch_path h timestamp tbl = Some t /\ keys_unique t) /\
  (exists t, unlink_path h tbl = Some t /\ keys_unique t) /\
  (exists t, inc_linkcount h delta tbl = Some t /\ keys_unique t) /\
  (exists rows, lookup_path h tbl = Some rows /\ (length rows <= 1)%nat).
Proof.
  intros Hh Hp Hkeys.
  split; [| split; [| split; [| split; [| split]]]].
  - rewrite insert_dirent_eq by assumption.
    eexists. split; [reflexivity |].
    destruct (existsb (has_path h.1 h.2) tbl) eqn:Hex; [exact Hkeys |].
    unfold keys_unique. rewrite map_app. simpl.
    apply NoDup_app. split; [exact Hkeys |]. split; [| apply NoDup_singleton].
    intros k Hk Hk'. apply list_elem_of_singleton in Hk'. subst k.
    apply list_elem_of_In in Hk. apply in_map_iff in Hk as (r & Hr & Hin).
    assert (Hex' : existsb (has_path h.1 h.2) tbl = true).
    { apply existsb_exists. exists r. split; [exact Hin |].
      apply has_path_spec. rewrite Hr. destruct h. reflexivity. }
    congruence.
  - rewrite update_dirent_eq by assumption. eexists. split; [reflexivity |].
    unfold keys_unique. rewrite map_key_stable; [exact Hkeys |].
    intros r. destruct (has_path h.1 h.2 r); [| reflexivity].
    unfold GetPathHash. simpl. reflexivity.
  - rewrite touch_path_eq by assumption. eexists. split; [reflexivity |].
    unfold keys_unique. rewrite map_key_stable; [exact Hkeys |].
    intros r. destruct (has_path h.1 h.2 r); reflexivity.
  - rewrite unlink_path_eq by assumption. eexists. split; [reflexivity |].
    apply NoDup_map_filter. exact Hkeys.
  - rewrite inc_linkcount_eq by assumption. eexists. split; [reflexivity |].
    unfold SqlIncLinkcount_Execute.
    destruct (select_inode tbl h.1 h.2) as [v |]; [| exact Hkeys].
    unfold keys_unique. rewrite map_key_stable; [exact Hkeys |].
    intros r. destruct (inode r =? v); reflexivity.
  - rewrite lookup_path_eq by assumption. eexists. split; [reflexivity |].
    apply keys_unique_one_row. exact Hkeys.
Qed.

Lemma primary_key_kept_witness :
  exists t,
    insert_dirent (1, 0) (0, 0) Dirent.zeroed_storage
      [sample_row 5 0; sample_row 6 0] = Some t /\ keys_unique t.
Proof.
  destruct (primary_key_kept (1, 0) (0, 0) Dirent.zeroed_storage 0 0
              [sample_row 5 0; sample_row 6 0]) as (Hins & _).
  - vm_compute. repeat split; discriminate.
  - vm_compute. repeat split; discriminate.
  - unfold keys_unique. simpl.
    repeat (apply NoDup_cons; split;
            [intros Hin; repeat (apply elem_of_cons in Hin as [Hin | Hin];
                                 [discriminate |]);
             apply elem_of_nil in Hin; exact Hin |]).
    apply NoDup_nil. trivial.
  - exact Hins.
Defined.

Lemma has_parent_spec r (a b : Z) :
  has_parent a b r = true <-> GetParentPathHash r = (a, b).
Proof.
  unfold has_parent, GetParentPathHash. rewrite andb_true_iff, !Z.eqb_eq.
  split; [intros [-> ->]; reflexivity | intros [= -> ->]; auto].
Qed.

(** X10: the listing of a directory after an insert and after an unlink.
    An insert under a path hash that no row has adds the new row to the
    listing of its parent hash and to no other listing; an unlink takes
    the rows of the path hash out of every listing and leaves the other
    rows of the listing. *)
Theorem listing_follows_insert_and_unlink h p p' e tbl :
  valid_md5 h -> valid_md5 p -> valid_md5 p' ->
  lookup_path h tbl = Some [] ->
  exists t1 t2,
    insert_dirent h p e tbl = Some t1 /\
    listing p' t1 =
      (fun rows =>
         rows ++ (if decide (p' = p)
                  then [row_of_entry h p e (new_rowid tbl)] else []))
        <$> listing p' tbl /\
    unlink_path h t1 = Some t2 /\
    listing p' t2 = listing p' tbl.
Proof.
  intros Hh Hp Hp' Habsent.
  destruct (insert_unlink_round_trip h p e tbl Hh Hp Habsent) as (t1 & Hins & Hun).
  exists t1, tbl. split; [exact Hins |]. split; [| split; [exact Hun | reflexivity]].
  rewrite insert_dirent_eq in Hins by assumption.
  rewrite (lookup_path_eq h tbl Hh) in Habsent. injection Habsent as Habsent.
  rewrite (existsb_filter_nil _ _ Habsent) in Hins. injection Hins as <-.
  rewrite !listing_eq by assumption. simpl. f_equal.
  rewrite List.filter_app. simpl. f_equal.
  destruct (has_parent p'.1 p'.2 (row_of_entry h p e (new_rowid tbl))) eqn:Hpar.
  - apply has_parent_spec in Hpar. unfold GetParentPathHash in Hpar. simpl in Hpar.
    rewrite decide_True; [reflexivity |]. destruct p, p'. simpl in *. congruence.
  - rewrite decide_False; [reflexivity |]. intros ->.
    assert (Ht : has_parent p.1 p.2 (row_of_entry h p e (new_rowid tbl)) = true).
    { apply has_parent_spec. destruct p. reflexivity. }
    congruence.
Qed.

Lemma listing_follows_insert_and_unlink_witness :
  exists t1 t2,
    insert_dirent (1, 0) (0, 0) Dirent.zeroed_storage [sample_row 5 0] = Some t1 /\
    listing (0, 0) t1 =
      Some [sample_row 5 0; row_of_entry (1, 0) (0, 0) Dirent.zeroed_storage 6] /\
    unlink_path (1, 0) t1 = Some t2 /\
    listing (0, 0) t2 = Some [sample_row 5 0].
Proof.
  apply (listing_follows_insert_and_unlink (1, 0) (0, 0) (0, 0)
           Dirent.zeroed_storage [sample_row 5 0]).
  - vm_compute. repeat split; discriminate.
  - vm_compute. repeat split; discriminate.
  - vm_compute. repeat split; discriminate.
  - reflexivity.
Defined.



Lemma int32_small z : - 2 ^ 31 <= z < 2 ^ 31 -> int32 z = z.
Proof. intros Hz. unfold int32. rewrite Z.mod_small by lia. lia. Qed.





(** The number stored for a packed field: the field itself, read as
    signed. *)
Lemma stored_hardlinks_value (g n : Z) :
  0 <= g < 2 ^ 32 -> 0 <= n < 2 ^ 32 ->
  stored_hardlinks g n =
    g * 2 ^ 32 + n - (if g <? 2 ^ 31 then 0 else 2 ^ 64).
Proof.
  intros Hg Hn. unfold stored_hardlinks.
  rewrite pack_hardlinks_add by assumption.
  destruct (Z.ltb_spec g (2 ^ 31)).
  - rewrite int64_small by lia. lia.
  - rewrite <- (int64_add_multiple _ (-1)). rewrite int64_small by lia. lia.
Qed.

Lemma decode_stored_hardlinks (g n : Z) (r : Row) :
  0 <= g < 2 ^ 32 -> 0 <= n < 2 ^ 32 ->
  row_hardlink_group (set_inode r (stored_hardlinks g n)) = g /\
  ((g, n) <> (0, 0) -> row_linkcount (set_inode r (stored_hardlinks g n)) = n).
Proof.
  intros Hg Hn. unfold row_hardlink_group, row_linkcount, stored_hardlinks.
  cbn [inode set_inode].
  rewrite int64_uint64 by (apply pack_hardlinks_range; assumption).
  split; [apply Hardlinks2HardlinkGroup_pack; assumption |].
  intros Hne. apply Hardlinks2Linkcount_pack; assumption.
Qed.

Lemma SqlIncLinkcount_case_adjust (g n delta : Z) :
  0 <= g < 2 ^ 32 -> 0 <= n < 2 ^ 32 -> n <> 2 ->
  0 <= n + delta < 2 ^ 32 ->
  SqlIncLinkcount_case (stored_hardlinks g n) delta = stored_hardlinks g (n + delta).
Proof.
  intros Hg Hn Hn2 Hnd.
  unfold SqlIncLinkcount_case, sql_shiftl, sql_shiftr, sql_add, sql_mul.
  rewrite !stored_hardlinks_value by assumption.
  set (k := if g <? 2 ^ 31 then 0 else 2 ^ 64).
  assert (Hk : exists q, k = q * 2 ^ 32)
    by (unfold k; destruct (g <? 2 ^ 31); [exists 0 | exists (2 ^ 32)]; lia).
  destruct Hk as [q Hq].
  rewrite Z.shiftl_mul_pow2 by lia.
  replace ((g * 2 ^ 32 + n - k) * 2 ^ 32)
    with (n * 2 ^ 32 + (g - q) * 2 ^ 64) by lia.
  rewrite int64_add_multiple.
  assert (Hlow : Z.shiftr (int64 (n * 2 ^ 32)) 32 <> 2).
  { rewrite Z.shiftr_div_pow2 by lia.
    destruct (Z.lt_ge_cases n (2 ^ 31)).
    - rewrite int64_small by lia. rewrite Z.div_mul by lia. exact Hn2.
    - rewrite <- (int64_add_multiple _ (-1)). rewrite int64_small by lia.
      replace (n * 2 ^ 32 + -1 * 2 ^ 64) with ((n - 2 ^ 32) * 2 ^ 32) by lia.
      rewrite Z.div_mul by lia. lia. }
  apply Z.eqb_neq in Hlow. rewrite Hlow. lia.
Qed.

(** X12: SqlIncLinkcount on a hardlink group whose link count is not 2.
    When the row of the path hash holds the packed field of group [g] and
    link count [n], [n] other than 2, and [n + delta] is a 32-bit number,
    the statement gives every row holding that field the field of group
    [g] and link count [n + delta], and leaves the other rows as they
    are; the rows it changes then decode to group [g] and, unless group
    and count are both 0, link count [n + delta]. *)
Theorem inc_linkcount_adjusts_group h (delta g n : Z) tbl :
  valid_md5 h ->
  0 <= g < 2 ^ 32 -> 0 <= n < 2 ^ 32 -> n <> 2 ->
  - 2 ^ 31 <= delta < 2 ^ 31 -> 0 <= n + delta < 2 ^ 32 ->
  select_inode tbl h.1 h.2 = Some (stored_hardlinks g n) ->
  inc_linkcount h delta tbl =
    Some (map (fun r =>
                 if inode r =? stored_hardlinks g n
                 then set_inode r (stored_hardlinks g (n + delta)) else r) tbl) /\
  (forall r, row_hardlink_group (set_inode r (stored_hardlinks g (n + delta))) = g) /\
  (forall r, (g, n + delta) <> (0, 0) ->
             row_linkcount (set_inode r (stored_hardlinks g (n + delta))) = n + delta).
Proof.
  intros Hh Hg Hn Hn2 Hdelta Hnd Hsel.
  split; [| split].
  - rewrite inc_linkcount_eq by assumption. rewrite int32_small by assumption.
    unfold SqlIncLinkcount_Execute. rewrite Hsel. f_equal.
    apply map_ext. intros r.
    destruct (Z.eqb_spec (inode r) (stored_hardlinks g n)) as [Heq | _]; [| reflexivity].
    rewrite Heq, SqlIncLinkcount_case_adjust by assumption. reflexivity.
  - intros r. apply decode_stored_hardlinks; assumption.
  - intros r. apply decode_stored_hardlinks; assumption.
Qed.

Lemma inc_linkcount_adjusts_group_witness :
  inc_linkcount (1, 0) (-1)
    [sample_row 1 (stored_hardlinks 5 3); sample_row 2 (stored_hardlinks 5 3);
     sample_row 3 0] =
  Some [sample_row 1 (stored_hardlinks 5 2); sample_row 2 (stored_hardlinks 5 2);
        sample_row 3 0].
Proof.
  destruct (inc_linkcount_adjusts_group (1, 0) (-1) 5 3
              [sample_row 1 (stored_hardlinks 5 3);
               sample_row 2 (stored_hardlinks 5 3); sample_row 3 0])
    as (Hrun & _); try lia.
  - vm_compute. repeat split; discriminate.
  - reflexivity.
  - rewrite Hrun. reflexivity.
Defined.

(** X13: SqlIncLinkcount for a path hash that no row has changes
    nothing, and it never adds or removes a row or touches a column other
    than inode: path hash, parent hash, rowid and the entry columns of
    every row stay. *)
Theorem inc_linkcount_frame h (delta : Z) tbl :
  valid_md5 h ->
  exists tbl',
    inc_linkcount h delta tbl = Some tbl' /\
    (lookup_path h tbl = Some [] -> tbl' = tbl) /\
    Forall2 (fun r r' => r' = set_inode r (inode r')) tbl tbl'.
Proof.
  intros Hh. rewrite inc_linkcount_eq by assumption.
  eexists. split; [reflexivity |]. split.
  - rewrite lookup_path_eq by assumption. intros [= Habsent].
    unfold SqlIncLinkcount_Execute.
    assert (Hsel : select_inode tbl h.1 h.2 = None).
    { clear -Habsent. induction tbl as [| r tbl IH]; [reflexivity |].
      simpl in *. fold (has_path h.1 h.2 r) in *.
      destruct (has_path h.1 h.2 r); [discriminate |]. apply IH. exact Habsent. }
    rewrite Hsel. reflexivity.
  - unfold SqlIncLinkcount_Execute.
    destruct (select_inode tbl h.1 h.2) as [v |].
    + induction tbl as [| r tbl IH]; simpl; constructor; [| exact IH].
      destruct (inode r =? v); [reflexivity |]. destruct r; reflexivity.
    + induction tbl as [| r tbl IH]; constructor; [| exact IH].
      destruct r; reflexivity.
Qed.

Lemma inc_linkcount_frame_witness :
  exists tbl',
    inc_linkcount (9, 9) 1 [sample_row 1 (stored_hardlinks 5 3)] = Some tbl' /\
    tbl' = [sample_row 1 (stored_hardlinks 5 3)].
Proof.
  destruct (inc_linkcount_frame (9, 9) 1 [sample_row 1 (stored_hardlinks 5 3)])
    as (tbl' & Hrun & Hsame & _).
  - vm_compute. repeat split; discriminate.
  - exists tbl'. split; [exact Hrun |]. apply Hsame. reflexivity.
Defined.

End StatementFacts.

(* ================================================================== *)
(** * Further properties of the symlink expansion *)
(* ================================================================== *)

Section ExpandSymlinkMoreFacts.
Import Dirent CatalogSql.

Lemma c_str_terminated (b : bytes) :
  List.Forall (fun ch => ch <> NUL) b -> c_str (b ++ [NUL]) = b.
Proof.
  induction 1 as [| x b Hx _ IH]; [reflexivity |]. simpl.
  replace (Ascii.eqb x NUL) with false by (symmetry; apply Ascii.eqb_neq; exact Hx).
  rewrite IH. reflexivity.
Qed.

(** X14: a symlink target in which no '$' occurs is returned as it is,
    for every environment, provided the byte stored behind the target is
    not a '$' (the first loop of ExpandSymlink looks at that byte too). *)
Theorem target_without_dollar_is_kept
    (getenv : environment) (past_end : ascii) (raw_symlink : bytes) :
  List.Forall (fun ch => ch <> "$"%char) raw_symlink ->
  past_end <> "$"%char ->
  ExpandSymlink getenv past_end raw_symlink = Some raw_symlink.
Proof. apply ExpandSymlink_plain. Qed.

Lemma target_without_dollar_is_kept_witness :
  ExpandSymlink (getenv_in sample_environ) NUL (str "../lib/libfoo.so") =
    Some (str "../lib/libfoo.so").
Proof.
  apply (target_without_dollar_is_kept (getenv_in sample_environ) NUL
           (str "../lib/libfoo.so")).
  - repeat constructor; discriminate.
  - discriminate.
Defined.

(** X15: a symlink target that consists of one variable reference,
    "$(" VAR ")" with a name without ')' and NUL, expands to the value
    getenv gives for VAR and to the empty string when VAR is not set,
    whatever byte is stored behind the target. *)
Theorem single_variable_reference_expands
    (getenv : environment) (past_end : ascii) (var : bytes) :
  List.Forall (fun ch => ch <> ")"%char) var ->
  List.Forall (fun ch => ch <> NUL) var ->
  ExpandSymlink getenv past_end (str "$(" ++ var ++ str ")") =
    Some (match getenv var with
          | Some v => v
          | None => []
          end).
Proof.
  intros Hrpar Hnul.
  rewrite (ExpandSymlink_single_variable getenv past_end var Hrpar).
  rewrite (c_str_terminated var Hnul). reflexivity.
Qed.

Lemma single_variable_reference_expands_witness :
  ExpandSymlink (getenv_in sample_environ) NUL (str "$(" ++ str "ARCH" ++ str ")") =
    Some (str "x86").
Proof.
  rewrite (single_variable_reference_expands (getenv_in sample_environ) NUL
             (str "ARCH")).
  - reflexivity.
  - repeat constructor; discriminate.
  - repeat constructor; discriminate.
Defined.

End ExpandSymlinkMoreFacts.

(* ================================================================== *)
(** * Further properties of lru_cache.h: the list *)
(* ================================================================== *)

Section ListMoreFacts.
Context {Key : Type} `{Countable Key}.
Import Lru.

Implicit Types (h : gmap nat (ListEntry (Key := Key))) (a p n head : nat).
Implicit Types (xs : list (nat * Key)).

(** Entering a lonely content entry behind the head puts it first. *)
Lemma insertAsSuccessor_ring h head xs x k :
  ring h head xs ->
  x ∉ head :: xs.*1 ->
  h !! x = Some (mkListEntry x x (Some k)) ->
  exists h', insertAsSuccessor head x h = Some h' /\
             ring h' head ((x, k) :: xs).
Proof.
  intros (Hnd & Hlinks & Hhead & Hcont) Hx Hhx.
  assert (Hhd : exists f l', xs.*1 ++ [head] = f :: l').
  { destruct (xs.*1) as [| c l]; simpl; eauto. }
  destruct Hhd as (f & l' & Hhd).
  rewrite Hhd in Hlinks.
  apply Forall2_cons_1 in Hlinks as [[Hhf Hfh] Hl'].
  assert (Hf : f ∈ xs.*1 ++ [head]) by (rewrite Hhd; left).
  assert (HxH : x <> head) by (intros ->; apply Hx; left).
  assert (Hxf : x <> f).
  { intros ->. apply elem_of_app in Hf as [Hf | Hf].
    - apply Hx. right. exact Hf.
    - apply list_elem_of_singleton in Hf. congruence. }
  assert (Hnd' : NoDup (f :: l')).
  { rewrite <- Hhd. apply NoDup_cons in Hnd as [Hh HndA].
    apply NoDup_app. split; [exact HndA |]. split; [| apply NoDup_singleton].
    intros a Ha Ha'. apply list_elem_of_singleton in Ha'. subst a. contradiction. }
  unfold insertAsSuccessor.
  rewrite (isLonely_spec h x x x) by (unfold next_of, prev_of; rewrite Hhx; reflexivity).
  rewrite !Nat.eqb_refl. simpl.
  destruct (next_of_Some _ _ _ Hhf) as (t0 & -> & Ht0). simpl. rewrite Ht0.
  destruct (set_next_spec h x f) as (h1 & -> & Hn1 & Hp1 & Hc1); [eauto |].
  simpl.
  destruct (set_prev_spec h1 x head) as (h2 & -> & Hn2 & Hp2 & Hc2).
  { apply (next_of_is_Some h1 x f). rewrite Hn1, decide_True; trivial. }
  simpl.
  assert (HnH2 : next_of h2 head = Some f).
  { rewrite Hn2, Hn1, decide_False by congruence. exact Hhf. }
  destruct (next_of_Some _ _ _ HnH2) as (t2 & -> & Ht2). simpl. rewrite Ht2.
  destruct (set_prev_spec h2 f x) as (h3 & -> & Hn3 & Hp3 & Hc3).
  { apply (prev_of_is_Some h2 f head). rewrite Hp2, decide_False by congruence.
    rewrite Hp1. exact Hfh. }
  simpl.
  destruct (set_next_spec h3 head x) as (h4 & -> & Hn4 & Hp4 & Hc4).
  { apply (next_of_is_Some h3 head f). rewrite Hn3. exact HnH2. }
  simpl.
  assert (Hnext : forall a, next_of h4 a =
            if decide (a = head) then Some x
            else if decide (a = x) then Some f else next_of h a).
  { intros a. rewrite Hn4, Hn3, Hn2, Hn1. reflexivity. }
  assert (Hprev : forall a, prev_of h4 a =
            if decide (a = f) then Some x
            else if decide (a = x) then Some head else prev_of h a).
  { intros a. rewrite Hp4, Hp3, Hp2, Hp1. reflexivity. }
  assert (Hcontent : forall a, content_of h4 a = content_of h a).
  { intros a. rewrite Hc4, Hc3, Hc2, Hc1. reflexivity. }
  rewrite (isLonely_spec h4 x f head).
  2:{ rewrite Hnext, decide_False, decide_True by congruence. reflexivity. }
  2:{ rewrite Hprev, decide_False, decide_True by congruence. reflexivity. }
  replace (f =? x)%nat with false by (symmetry; apply Nat.eqb_neq; congruence).
  simpl. eexists. split; [reflexivity |].
  split; [| split; [| split]].
  - rewrite fmap_cons. cbn [fst].
    apply NoDup_cons in Hnd as [Hh HndA].
    apply NoDup_cons. split.
    + intros Hin. apply elem_of_cons in Hin as [-> | Hin]; [congruence | contradiction].
    + apply NoDup_cons. split; [| exact HndA].
      intros Hin. apply Hx. right. exact Hin.
  - rewrite fmap_cons. cbn [fst]. simpl. rewrite Hhd.
    constructor; [| constructor].
    + split.
      * rewrite Hnext, decide_True; trivial.
      * rewrite Hprev, decide_False, decide_True by congruence. reflexivity.
    + split.
      * rewrite Hnext, decide_False, decide_True by congruence. reflexivity.
      * rewrite Hprev, decide_True; trivial.
    + eapply Forall2_impl_elem; [exact Hl' |].
      intros a a' Ha Ha' Hlk.
      assert (a <> head).
      { intros ->. apply NoDup_cons in Hnd as [Hh _]. contradiction. }
      assert (a <> x) by (intros ->; apply Hx; right; exact Ha).
      assert (a' <> f).
      { intros ->. apply NoDup_cons in Hnd' as [Hd _]. contradiction. }
      assert (a' <> x).
      { intros ->. assert (Hin : x ∈ xs.*1 ++ [head]) by (rewrite Hhd; right; exact Ha').
        apply elem_of_app in Hin as [Hin | Hin].
        - apply Hx. right. exact Hin.
        - apply list_elem_of_singleton in Hin. congruence. }
      apply (linked_preserved h); [| | exact Hlk].
      * rewrite Hnext, !decide_False by assumption. reflexivity.
      * rewrite Hprev, !decide_False by assumption. reflexivity.
  - rewrite Hcontent. exact Hhead.
  - constructor.
    + simpl. rewrite Hcontent. unfold content_of. rewrite Hhx. reflexivity.
    + eapply Forall_impl; [exact Hcont |]. intros y Hy. simpl in *.
      rewrite Hcontent. exact Hy.
Qed.

(** [moveToFront] makes the entry the first of the list. *)
Lemma moveToFront_ring h head xs1 x k xs2 :
  ring h head (xs1 ++ (x, k) :: xs2) ->
  exists h', moveToFront head x h = Some h' /\
             ring h' head ((x, k) :: xs1 ++ xs2).
Proof.
  intros Hring. unfold moveToFront.
  rewrite (content_entry_not_lonely _ _ _ _ _ _ Hring). simpl.
  destruct (removeFromList_ring _ _ _ _ _ _ Hring) as (h1 & -> & Hring1 & Hx1).
  simpl.
  apply insertAsSuccessor_ring; [exact Hring1 | | exact Hx1].
  destruct Hring as (Hnd & _). rewrite fmap_app, fmap_cons in Hnd.
  cbn [fst] in Hnd. rewrite fmap_app.
  apply NoDup_cons in Hnd as [Hhead Hnd].
  apply NoDup_app in Hnd as (_ & Hd & Hndx).
  apply NoDup_cons in Hndx as [Hx2 _].
  intros Hin. apply elem_of_cons in Hin as [-> | Hin].
  - apply Hhead. apply elem_of_app. right. left.
  - apply elem_of_app in Hin as [Hin | Hin]; [| contradiction].
    apply (Hd x Hin). left.
Qed.

(** [pop_back] returns the key of the last entry and deletes the
    entry. *)
Lemma pop_back_ring h head xs x k :
  ring h head (xs ++ [(x, k)]) ->
  exists h', pop_back head h = Some (k, h') /\ ring h' head xs.
Proof.
  intros Hring.
  pose proof Hring as (Hnd & Hlinks & Hhead & Hcont).
  rewrite fmap_app, fmap_cons in Hnd, Hlinks. cbn [fst] in Hnd, Hlinks.
  change (list_fmap (nat * Key)%type nat fst []) with (@nil nat) in Hnd, Hlinks.
  destruct (ring_links_split _ _ _ _ _ Hlinks)
    as (l1' & p & s & l2' & Hsnoc & Hhd & Hl1 & [Hpx Hxp] & [Hxs Hsx] & Hl2).
  simpl in Hhd. injection Hhd as <- <-.
  assert (Hne : x <> head).
  { intros ->. apply NoDup_cons in Hnd as [Hh _]. apply Hh.
    apply elem_of_app. right. left. }
  destruct (ring_in_store h head _ head Hring) as [e He]; [left |].
  assert (Hn : exists f, next_of h head = Some f).
  { unfold next_of. rewrite He. eauto. }
  destruct Hn as [f Hn].
  unfold pop_back, list_isEmpty.
  rewrite (isLonely_spec h head f x Hn Hsx).
  replace (x =? head)%nat with false by (symmetry; apply Nat.eqb_neq; exact Hne).
  rewrite andb_false_r. simpl.
  destruct (prev_of_Some _ _ _ Hsx) as (t & -> & Ht). simpl. rewrite Ht.
  unfold pop.
  assert (Hcx : content_of h x = Some (Some k)).
  { rewrite Forall_app, Forall_cons in Hcont. apply Hcont. }
  rewrite (isListHead_spec h x (Some k) Hcx). simpl.
  destruct (removeFromList_ring h head xs x k [] Hring) as (h1 & -> & Hring1 & Hx1).
  simpl. rewrite (getContent_spec h1 x (Some k)).
  2:{ unfold content_of. rewrite Hx1. reflexivity. }
  simpl. eexists. split; [reflexivity |].
  rewrite app_nil_r in Hring1.
  eapply ring_ext; [| exact Hring1].
  intros a Ha. apply lookup_delete_ne.
  intros Heq. subst a. apply NoDup_cons in Hnd as [Hh HndA].
  apply NoDup_app in HndA as (_ & Hd & _).
  apply elem_of_cons in Ha as [Ha | Ha]; [congruence |].
  apply (Hd x Ha). left.
Qed.

End ListMoreFacts.

Section ListAllocFacts.
Context {Key : Type} `{Countable Key}.
Import Lru.
Variable alloc : gset nat -> nat.
Hypothesis alloc_fresh : forall X : gset nat, alloc X ∉ X.

Implicit Types (h : gmap nat (ListEntry (Key := Key))).

(** [push_front] puts a new entry holding the key first. *)
Lemma push_front_ring h head (xs : list (nat * Key)) k :
  ring h head xs ->
  exists x h', push_front alloc head k h = Some (x, h') /\
               ring h' head ((x, k) :: xs).
Proof.
  intros Hring. unfold push_front, new_ListEntryContent.
  set (x := alloc (dom h)).
  assert (Hx : x ∉ head :: xs.*1).
  { intros Hin. apply (ring_in_store h head xs x Hring) in Hin.
    apply elem_of_dom in Hin. exact (alloc_fresh _ Hin). }
  destruct (insertAsSuccessor_ring
              (<[x := mkListEntry x x (Some k)]> h) head xs x k)
    as (h' & Hrun & Hring').
  - eapply ring_ext; [| exact Hring]. intros a Ha.
    apply lookup_insert_ne. intros ->. contradiction.
  - exact Hx.
  - apply lookup_insert_eq.
  - rewrite Hrun. simpl. eauto.
Qed.

End ListAllocFacts.

(* ================================================================== *)
(** * Further properties of lru_cache.h: the store of list entries *)
(* ================================================================== *)

Section StoreFacts.
Context {Key : Type} `{Countable Key}.
Import Lru.

Implicit Types (h : gmap nat (ListEntry (Key := Key))) (a p n head : nat).
Implicit Types (xs : list (nat * Key)).

(** Takes a computation that returned apart into its steps. *)
Ltac steps Hs :=
  repeat match type of Hs with
         | mbind _ _ = Some _ =>
             let x := fresh "x" in let Hx := fresh "Hx" in
             apply bind_Some in Hs as (x & Hx & Hs)
         end.

Lemma set_next_dom this n h h' : set_next this n h = Some h' -> dom h' = dom h.
Proof.
  unfold set_next. intros Hs. steps Hs. injection Hs as <-.
  apply dom_insert_lookup_L. eauto.
Qed.

Lemma set_prev_dom this p h h' : set_prev this p h = Some h' -> dom h' = dom h.
Proof.
  unfold set_prev. intros Hs. steps Hs. injection Hs as <-.
  apply dom_insert_lookup_L. eauto.
Qed.

Ltac doms :=
  repeat match goal with
         | Hx : set_next _ _ _ = Some _ |- _ => apply set_next_dom in Hx
         | Hx : set_prev _ _ _ = Some _ |- _ => apply set_prev_dom in Hx
         end;
  congruence.

(** Entering an entry into a list and taking it out allocate and free
    nothing. *)
Lemma insertAsPredecessor_dom this entry h h' :
  insertAsPredecessor this entry h = Some h' -> dom h' = dom h.
Proof.
  unfold insertAsPredecessor. intros Hs. steps Hs. injection Hs as <-. doms.
Qed.

Lemma insertAsSuccessor_dom this entry h h' :
  insertAsSuccessor this entry h = Some h' -> dom h' = dom h.
Proof.
  unfold insertAsSuccessor. intros Hs. steps Hs. injection Hs as <-. doms.
Qed.

Lemma removeFromList_dom this h h' :
  removeFromList this h = Some h' -> dom h' = dom h.
Proof.
  unfold removeFromList. intros Hs.
  apply bind_Some in Hs as (hd & Hhd & Hs).
  destruct hd; [discriminate |].
  steps Hs. injection Hs as <-. doms.
Qed.

Lemma removeFromList_keeps this h h' :
  removeFromList this h = Some h' -> is_Some (h' !! this).
Proof.
  intros Hs. pose proof (removeFromList_dom _ _ _ Hs) as Hd.
  unfold removeFromList in Hs.
  apply bind_Some in Hs as (hd & Hhd & _).
  unfold isListHead in Hhd. apply bind_Some in Hhd as (e & He & _).
  apply elem_of_dom. rewrite Hd. apply elem_of_dom. eauto.
Qed.

Lemma moveToBack_dom this entry h h' :
  moveToBack this entry h = Some h' -> dom h' = dom h.
Proof.
  unfold moveToBack. intros Hs. steps Hs.
  apply insertAsPredecessor_dom in Hs.
  match goal with Hr : removeFromList _ _ = Some _ |- _ =>
    apply removeFromList_dom in Hr; congruence end.
Qed.

Lemma moveToFront_dom this entry h h' :
  moveToFront this entry h = Some h' -> dom h' = dom h.
Proof.
  unfold moveToFront. intros Hs. steps Hs.
  apply insertAsSuccessor_dom in Hs.
  match goal with Hr : removeFromList _ _ = Some _ |- _ =>
    apply removeFromList_dom in Hr; congruence end.
Qed.

(** [pop] frees the one entry it is given. *)
Lemma pop_size x h k h' : pop x h = Some (k, h') -> S (size h') = size h.
Proof.
  unfold pop. intros Hs. steps Hs. injection Hs as <- <-.
  match goal with Hr : removeFromList _ _ = Some ?h1 |- _ =>
    pose proof (removeFromList_keeps _ _ _ Hr) as Hin;
    apply removeFromList_dom in Hr;
    assert (Hsz : size h1 = size h) by (rewrite <- !size_dom, Hr; reflexivity)
  end.
  rewrite map_size_delete_Some by exact Hin.
  rewrite <- Hsz. destruct Hin as [e He].
  assert (size x2 <> 0%nat).
  { intros Hz. apply map_size_empty_inv in Hz. rewrite Hz, lookup_empty in He.
    discriminate. }
  lia.
Qed.

Lemma pop_front_size head h k h' :
  pop_front head h = Some (k, h') -> S (size h') = size h.
Proof.
  unfold pop_front. intros Hs. steps Hs. exact (pop_size _ _ _ _ Hs).
Qed.

Lemma pop_back_size head h k h' :
  pop_back head h = Some (k, h') -> S (size h') = size h.
Proof.
  unfold pop_back. intros Hs. steps Hs. exact (pop_size _ _ _ _ Hs).
Qed.

(** The loop of [clear] frees every entry it passes. *)
Lemma clear_loop_size head :
  forall (l : list nat) b h fuel h',
    Forall2 (fun a a' => next_of h a = Some a') (b :: l) (l ++ [head]) ->
    Forall (fun a => exists k, content_of h a = Some (Some k)) (b :: l) ->
    content_of h head = Some None ->
    NoDup (head :: b :: l) ->
    clear_loop fuel b h = Some h' ->
    (size h' + S (length l) = size h)%nat.
Proof.
  induction l as [| c l IH]; intros b h fuel h' Hnext Hcont Hhead Hnd Hrun.
  - destruct fuel as [| fuel]; [discriminate |].
    apply Forall2_cons_1 in Hnext as [Hb _].
    apply Forall_cons in Hcont as [[k Hk] _].
    apply NoDup_cons in Hnd as [Hhb _].
    assert (Hne : head <> b) by (intros ->; apply Hhb; left).
    cbn [clear_loop] in Hrun. rewrite (isListHead_spec h b (Some k) Hk) in Hrun.
    simpl in Hrun.
    destruct (next_of_Some _ _ _ Hb) as (e & He & Hen). rewrite He in Hrun.
    simpl in Hrun. rewrite Hen in Hrun.
    destruct fuel as [| fuel]; [discriminate |].
    cbn [clear_loop] in Hrun.
    rewrite (isListHead_spec (delete b h) head None) in Hrun.
    2:{ rewrite content_of_delete by exact Hne. exact Hhead. }
    simpl in Hrun. injection Hrun as <-.
    rewrite map_size_delete_Some by eauto.
    assert (size h <> 0%nat).
    { intros Hz. apply map_size_empty_inv in Hz. rewrite Hz, lookup_empty in He.
      discriminate. }
    simpl. lia.
  - destruct fuel as [| fuel]; [discriminate |].
    simpl in Hnext. apply Forall2_cons_1 in Hnext as [Hb Hnext].
    apply Forall_cons in Hcont as [[k Hk] Hcont].
    apply NoDup_cons in Hnd as [Hhb Hnd].
    apply NoDup_cons in Hnd as [Hb' Hnd].
    assert (Hne : head <> b) by (intros ->; apply Hhb; left).
    cbn [clear_loop] in Hrun. rewrite (isListHead_spec h b (Some k) Hk) in Hrun.
    simpl in Hrun.
    destruct (next_of_Some _ _ _ Hb) as (e & He & Hen). rewrite He in Hrun.
    cbn -[clear_loop] in Hrun. rewrite Hen in Hrun.
    apply IH in Hrun.
    + rewrite map_size_delete_Some in Hrun by eauto.
      assert (size h <> 0%nat).
      { intros Hz. apply map_size_empty_inv in Hz. rewrite Hz, lookup_empty in He.
        discriminate. }
      simpl. lia.
    + eapply Forall2_impl_elem; [exact Hnext |].
      intros a a' Ha _ Hn. simpl in *. rewrite next_of_delete; [exact Hn |].
      intros ->. contradiction.
    + apply Forall_forall. intros a Ha. rewrite Forall_forall in Hcont.
      destruct (Hcont a Ha) as [k' Hk']. exists k'.
      rewrite content_of_delete; [exact Hk' |]. intros ->. contradiction.
    + rewrite content_of_delete by exact Hne. exact Hhead.
    + apply NoDup_cons. split; [| exact Hnd].
      intros Hin. apply Hhb. right. exact Hin.
Qed.

(** [clear] frees the content entries of the list: the head is what is
    left of a store that held the list only. *)
Lemma clear_size h head xs h' :
  ring h head xs -> clear head h = Some h' ->
  (size h' + length xs = size h)%nat.
Proof.
  intros Hring Hrun.
  pose proof Hring as (Hnd & Hlinks & Hhead & Hcont).
  unfold clear in Hrun.
  apply bind_Some in Hrun as (t & Ht & Hrun).
  apply bind_Some in Hrun as (h1 & Hloop & Hrun).
  apply bind_Some in Hrun as (h2 & Hn & Hp).
  apply set_next_dom in Hn. apply set_prev_dom in Hp.
  assert (Hsz : size h' = size h1) by (rewrite <- !size_dom; congruence).
  rewrite Hsz. clear Hsz Hn Hp.
  destruct xs as [| [b k] xs].
  - simpl in Hlinks. apply Forall2_cons_1 in Hlinks as [[Hn _] _].
    unfold next_of in Hn. rewrite Ht in Hn. injection Hn as Hn.
    rewrite Hn in Hloop. cbn [clear_loop] in Hloop.
    rewrite (isListHead_spec h head None Hhead) in Hloop.
    simpl in Hloop. injection Hloop as <-. simpl. lia.
  - rewrite fmap_cons in Hlinks, Hnd. cbn [fst] in Hlinks, Hnd.
    simpl in Hlinks. apply Forall2_cons_1 in Hlinks as [[Hn _] Hlinks].
    unfold next_of in Hn. rewrite Ht in Hn. injection Hn as Hn.
    rewrite Hn in Hloop.
    apply (clear_loop_size head (xs.*1) b h _ h1) in Hloop.
    + rewrite length_fmap in Hloop. simpl. lia.
    + eapply Forall2_impl; [exact Hlinks |]. intros a a' [Hl _]. exact Hl.
    + apply Forall_forall. intros a Ha.
      change (b :: xs.*1) with (((b, k) :: xs).*1) in Ha.
      apply list_elem_of_fmap in Ha as (y & -> & Hy).
      exists y.2. rewrite Forall_forall in Hcont. apply Hcont. exact Hy.
    + exact Hhead.
    + exact Hnd.
Qed.

End StoreFacts.

(* ================================================================== *)
(** * Further properties of lru_cache.h: the sequence model *)
(* ================================================================== *)

Section ModelFacts.
Context {Key : Type} `{EqDecision Key} {Value : Type}.

Implicit Types (l : list (Key * Value)) (k : Key) (v : Value).
Implicit Types (s : LruSpec.cache (Key := Key) (Value := Value)).

Lemma find_app l1 l2 k :
  LruSpec.find k (l1 ++ l2) =
  match LruSpec.find k l1 with
  | Some v => Some v
  | None => LruSpec.find k l2
  end.
Proof.
  induction l1 as [| [k' v'] l1 IH]; [reflexivity |].
  simpl. destruct (decide (k' = k)); [reflexivity | exact IH].
Qed.

Lemma find_None l k : LruSpec.find k l = None <-> k ∉ l.*1.
Proof.
  induction l as [| [k' v'] l IH]; simpl.
  - split; [intros _; apply not_elem_of_nil | reflexivity].
  - destruct (decide (k' = k)) as [-> | Hne].
    + split; [discriminate |]. intros Hn. exfalso. apply Hn. left.
    + rewrite IH. split.
      * intros Hn Hin. apply elem_of_cons in Hin as [-> | Hin]; [congruence | auto].
      * intros Hn Hin. apply Hn. right. exact Hin.
Qed.

Lemma find_Some_elem l k v : LruSpec.find k l = Some v -> (k, v) ∈ l.
Proof.
  induction l as [| [k' v'] l IH]; simpl; [discriminate |].
  destruct (decide (k' = k)) as [-> | Hne].
  - intros [= ->]. left.
  - intros Hf. right. auto.
Qed.

Lemma find_elem l k v : NoDup l.*1 -> (k, v) ∈ l -> LruSpec.find k l = Some v.
Proof.
  induction l as [| [k' v'] l IH]; intros Hnd Hin.
  - apply elem_of_nil in Hin. contradiction.
  - simpl in Hnd. apply NoDup_cons in Hnd as [Hk' Hnd].
    apply elem_of_cons in Hin as [[= -> ->] | Hin]; simpl.
    + rewrite decide_True; trivial.
    + rewrite decide_False; [auto |].
      intros ->. apply Hk'. apply list_elem_of_fmap. exists (k, v). auto.
Qed.

Lemma remove_keys l k a : a ∈ (LruSpec.remove k l).*1 <-> a ∈ l.*1 /\ a <> k.
Proof.
  induction l as [| [k' v'] l IH]; simpl.
  - split; [intros Hin; apply elem_of_nil in Hin; contradiction |].
    intros [Hin _]. exact Hin.
  - destruct (decide (k' = k)) as [-> | Hne].
    + rewrite IH. split.
      * intros [Hin Ha]. split; [right; exact Hin | exact Ha].
      * intros [Hin Ha]. split; [| exact Ha].
        apply elem_of_cons in Hin as [-> | Hin]; [congruence | exact Hin].
    + simpl. rewrite !elem_of_cons, IH. split.
      * intros [-> | [Hin Ha]]; [split; [left; trivial | congruence] | auto].
      * intros [[-> | Hin] Ha]; auto.
Qed.

Lemma find_remove_eq l k : LruSpec.find k (LruSpec.remove k l) = None.
Proof. apply find_None. rewrite remove_keys. intros [_ Hne]. congruence. Qed.

Lemma find_remove_ne l k k' :
  k' <> k -> LruSpec.find k' (LruSpec.remove k l) = LruSpec.find k' l.
Proof.
  intros Hne. induction l as [| [k0 v0] l IH]; [reflexivity |].
  simpl. destruct (decide (k0 = k)) as [-> | Hk0].
  - rewrite decide_False by congruence. exact IH.
  - simpl. destruct (decide (k0 = k')); [reflexivity | exact IH].
Qed.

Lemma find_promote l k v k' :
  LruSpec.find k' (LruSpec.promote k v l) =
  if decide (k' = k) then Some v else LruSpec.find k' l.
Proof.
  unfold LruSpec.promote. rewrite find_app.
  destruct (decide (k' = k)) as [-> | Hne].
  - rewrite find_remove_eq. simpl. rewrite decide_True; trivial.
  - rewrite find_remove_ne by exact Hne.
    destruct (LruSpec.find k' l); [reflexivity |].
    simpl. rewrite decide_False by congruence. reflexivity.
Qed.

Lemma find_snoc l k v k' :
  LruSpec.find k l = None ->
  LruSpec.find k' (l ++ [(k, v)]) =
  if decide (k' = k) then Some v else LruSpec.find k' l.
Proof.
  intros Hk. rewrite find_app. destruct (decide (k' = k)) as [-> | Hne].
  - rewrite Hk. simpl. rewrite decide_True; trivial.
  - destruct (LruSpec.find k' l); [reflexivity |].
    simpl. rewrite decide_False by congruence. reflexivity.
Qed.

Lemma length_remove l k :
  NoDup l.*1 ->
  length (LruSpec.remove k l) =
  match LruSpec.find k l with
  | Some _ => pred (length l)
  | None => length l
  end.
Proof.
  induction l as [| [k' v'] l IH]; intros Hnd; [reflexivity |].
  simpl in Hnd. apply NoDup_cons in Hnd as [Hk' Hnd]. simpl.
  destruct (decide (k' = k)) as [-> | Hne].
  - rewrite IH by exact Hnd.
    rewrite (proj2 (find_None l k) Hk'). reflexivity.
  - simpl. rewrite IH by exact Hnd.
    destruct (LruSpec.find k l) eqn:Hf; [| reflexivity].
    apply find_Some_elem in Hf. destruct l; [| reflexivity].
    apply elem_of_nil in Hf. contradiction.
Qed.

(** The value a lookup in the model returns, and the values it leaves. *)
Lemma model_lookup_find s k k' :
  fst (LruSpec.lookup k s) = LruSpec.find k (LruSpec.items s) /\
  LruSpec.find k' (LruSpec.items (snd (LruSpec.lookup k s))) =
    LruSpec.find k' (LruSpec.items s) /\
  LruSpec.capacity (snd (LruSpec.lookup k s)) = LruSpec.capacity s.
Proof.
  unfold LruSpec.lookup.
  destruct (LruSpec.find k (LruSpec.items s)) as [v |] eqn:Hk; simpl; [| auto].
  split; [reflexivity |]. split; [| reflexivity].
  rewrite find_promote. destruct (decide (k' = k)) as [-> | Hne]; congruence.
Qed.

(** The values an insert into the model leaves. *)
Lemma model_insert_find s k v :
  LruSpec.find k (LruSpec.items (LruSpec.insert k v s)) = Some v.
Proof.
  unfold LruSpec.insert.
  destruct (LruSpec.find k (LruSpec.items s)) as [v0 |] eqn:Hk; simpl.
  - rewrite find_promote, decide_True; trivial.
  - destruct (LruSpec.capacity s <=? Z.of_nat (length (LruSpec.items s))); simpl.
    + rewrite find_snoc, decide_True; trivial.
      apply find_None. apply find_None in Hk.
      destruct (LruSpec.items s) as [| [k0 v0] l]; [exact Hk |].
      simpl in *. intros Hin. apply Hk. right. exact Hin.
    + rewrite find_snoc, decide_True; trivial.
Qed.

End ModelFacts.

(* ================================================================== *)
(** * Further properties of lru_cache.h: the cache and its store *)
(* ================================================================== *)

Section CacheStoreFacts.
Context {Key : Type} `{Countable Key} {Value : Type}.
Import Lru.
Variable alloc : gset nat -> nat.
Hypothesis alloc_fresh : forall X : gset nat, alloc X ∉ X.

Implicit Types (c : LruCache (Key := Key) (Value := Value)).
Implicit Types (s : LruSpec.cache (Key := Key) (Value := Value)).
Implicit Types (ys : list (nat * Key * Value)) (k : Key) (v : Value) (a x : nat).

(** [push_back] and [push_front] allocate one entry. *)
Lemma push_back_size head k (h : gmap nat (ListEntry (Key := Key))) x h' :
  push_back alloc head k h = Some (x, h') -> size h' = S (size h).
Proof.
  unfold push_back, new_ListEntryContent. intros Hs.
  apply bind_Some in Hs as (h1 & Hins & [= <- <-]).
  apply insertAsPredecessor_dom in Hins.
  rewrite <- (size_dom h1), Hins, size_dom.
  apply map_size_insert_None. apply not_elem_of_dom. apply alloc_fresh.
Qed.

Lemma push_front_size head k (h : gmap nat (ListEntry (Key := Key))) x h' :
  push_front alloc head k h = Some (x, h') -> size h' = S (size h).
Proof.
  unfold push_front, new_ListEntryContent. intros Hs.
  apply bind_Some in Hs as (h1 & Hins & [= <- <-]).
  apply insertAsSuccessor_dom in Hins.
  rewrite <- (size_dom h1), Hins, size_dom.
  apply map_size_insert_None. apply not_elem_of_dom. apply alloc_fresh.
Qed.

(** What the private operations of the cache change. *)
Lemma touchEntry_inv (e : CacheEntry) c c' :
  touchEntry e c = Some c' ->
  size (entries c') = size (entries c) /\
  mCurrentCacheSize c' = mCurrentCacheSize c /\
  mMaxCacheSize c' = mMaxCacheSize c /\
  mCache c' = mCache c.
Proof.
  unfold touchEntry. intros Hs.
  apply bind_Some in Hs as (h & Hmove & [= <-]). simpl.
  apply moveToBack_dom in Hmove.
  rewrite <- !size_dom, Hmove. auto.
Qed.

Lemma insertNewEntry_inv k v c c' :
  insertNewEntry alloc k v c = Some c' ->
  isFull c = false /\
  size (entries c') = S (size (entries c)) /\
  mCurrentCacheSize c' = uint32 (mCurrentCacheSize c + 1) /\
  mMaxCacheSize c' = mMaxCacheSize c.
Proof.
  unfold insertNewEntry. intros Hs.
  apply bind_Some in Hs as ([] & Hfull & Hs).
  apply bind_Some in Hs as ([x h] & Hpush & [= <-]). simpl.
  apply push_back_size in Hpush.
  unfold assert in Hfull. destruct (isFull c); [discriminate |]. auto.
Qed.

Lemma deleteOldestEntry_inv c c' :
  deleteOldestEntry c = Some c' ->
  isEmpty c = false /\
  S (size (entries c')) = size (entries c) /\
  mCurrentCacheSize c' = uint32 (mCurrentCacheSize c - 1) /\
  mMaxCacheSize c' = mMaxCacheSize c.
Proof.
  unfold deleteOldestEntry. intros Hs.
  apply bind_Some in Hs as ([] & Hempty & Hs).
  apply bind_Some in Hs as ([k h] & Hpop & [= <-]). simpl.
  apply pop_front_size in Hpop.
  unfold assert in Hempty. destruct (isEmpty c); [discriminate |]. auto.
Qed.

(** The counter of a cache is an unsigned int. *)
Lemma represents_counter c ys :
  represents c ys -> 0 <= mCurrentCacheSize c < 2 ^ 32.
Proof. intros (_ & _ & _ & Hsize & Hle & Hmax). lia. Qed.

(** Every public operation keeps the store in step with the counter. *)
Lemma insert_store_ok c ys k v (b : bool) c' :
  represents c ys -> store_ok c ->
  insert alloc k v c = Some (b, c') -> store_ok c'.
Proof.
  intros Hrep Hok Hs. pose proof (represents_counter c ys Hrep) as Hcnt.
  pose proof Hrep as (_ & _ & _ & _ & _ & Hmax).
  unfold store_ok in *. unfold insert in Hs.
  destruct (lookupCache k c) as [e |].
  - apply bind_Some in Hs as (c1 & Htouch & [= _ <-]).
    apply touchEntry_inv in Htouch as (Hsz & Hn & _). simpl in Hsz, Hn.
    rewrite Hsz, Hn. exact Hok.
  - apply bind_Some in Hs as (c1 & Hdel & Hs).
    apply bind_Some in Hs as (c2 & Hins & [= _ <-]).
    apply insertNewEntry_inv in Hins as (Hfull1 & Hsz2 & Hn2 & Hmax2).
    unfold isFull in *. apply Z.leb_gt in Hfull1.
    destruct (mMaxCacheSize c <=? mCurrentCacheSize c) eqn:Hfull.
    + apply deleteOldestEntry_inv in Hdel as (Hempty & Hsz1 & Hn1 & Hmax1).
      unfold isEmpty in Hempty. apply Z.eqb_neq in Hempty.
      rewrite uint32_small in Hn1 by lia.
      rewrite Hn2, uint32_small by lia. lia.
    + injection Hdel as <-. apply Z.leb_gt in Hfull.
      rewrite Hn2, uint32_small by lia. lia.
Qed.

Lemma lookup_store_ok c k (r : option Value) c' :
  store_ok c -> lookup k c = Some (r, c') -> store_ok c'.
Proof.
  unfold store_ok, lookup. intros Hok Hs.
  destruct (lookupCache k c) as [e |].
  - apply bind_Some in Hs as (c1 & Htouch & [= _ <-]).
    apply touchEntry_inv in Htouch as (Hsz & Hn & _). rewrite Hsz, Hn. exact Hok.
  - injection Hs as _ <-. exact Hok.
Qed.

Lemma drop_inv c ys c' :
  represents c ys -> store_ok c -> drop c = Some c' ->
  size (entries c') = 1%nat /\ mCurrentCacheSize c' = 0 /\
  mMaxCacheSize c' = mMaxCacheSize c /\ mCache c' = ∅ /\
  mLruList c' = mLruList c.
Proof.
  intros Hrep Hok Hs. unfold store_ok in Hok.
  pose proof Hrep as (Hring & _ & _ & Hsize & _).
  unfold drop in Hs. simpl in Hs.
  apply bind_Some in Hs as (h & Hclear & [= <-]). simpl.
  apply (clear_size _ _ _ _ Hring) in Hclear.
  rewrite length_fmap in Hclear. rewrite Hsize in Hok.
  rewrite Nat2Z.id in Hok. repeat split. lia.
Qed.

Lemma resize_loop_store_ok (newSize : Z) :
  0 <= newSize ->
  forall fuel c c',
    0 <= mCurrentCacheSize c < 2 ^ 32 -> store_ok c ->
    resize_loop fuel newSize c = Some c' -> store_ok c'.
Proof.
  intros Hnew. induction fuel as [| fuel IH]; intros c c' Hcnt Hok Hs;
    [discriminate |].
  cbn [resize_loop] in Hs.
  destruct (newSize <? mCurrentCacheSize c) eqn:Hlt.
  - apply Z.ltb_lt in Hlt.
    apply bind_Some in Hs as (c1 & Hdel & Hs).
    apply deleteOldestEntry_inv in Hdel as (_ & Hsz1 & Hn1 & _).
    rewrite uint32_small in Hn1 by lia.
    apply (IH c1 c'); [lia | | exact Hs].
    unfold store_ok in *. lia.
  - injection Hs as <-. exact Hok.
Qed.

Lemma resize_store_ok c ys (newSize : Z) c' :
  represents c ys -> store_ok c -> resize newSize c = Some c' -> store_ok c'.
Proof.
  intros Hrep Hok Hs. unfold resize in Hs.
  apply bind_Some in Hs as ([] & Hpos & Hs).
  apply bind_Some in Hs as (c1 & Hloop & [= <-]).
  unfold assert in Hpos. destruct (0 <? newSize) eqn:Hlt; [| discriminate].
  apply Z.ltb_lt in Hlt.
  apply (resize_loop_store_ok newSize ltac:(lia) _ c c1) in Hloop;
    [exact Hloop | exact (represents_counter c ys Hrep) | exact Hok].
Qed.

Lemma run_call_store_ok c ys (o : call) c' :
  represents c ys -> store_ok c -> run_call alloc o c = Some c' -> store_ok c'.
Proof.
  intros Hrep Hok Hs. destruct o as [k v | k | | newSize]; simpl in Hs.
  - apply fmap_Some in Hs as ([b c1] & Hins & ->).
    exact (insert_store_ok c ys k v b c1 Hrep Hok Hins).
  - apply fmap_Some in Hs as ([r c1] & Hl & ->).
    exact (lookup_store_ok c k r c1 Hok Hl).
  - destruct (drop_inv c ys c' Hrep Hok Hs) as (Hsz & Hn & _).
    unfold store_ok. rewrite Hsz, Hn. reflexivity.
  - exact (resize_store_ok c ys newSize c' Hrep Hok Hs).
Qed.

Lemma run_store_ok (calls : list call) :
  Forall call_ok calls ->
  forall c s, refines c s -> store_ok c ->
    exists c', run alloc calls c = Some c' /\
               refines c' (LruSpec.run calls s) /\ store_ok c'.
Proof.
  induction 1 as [| o calls Ho Hcalls IH]; intros c s Href Hok.
  - exists c. auto.
  - destruct (run_call_refines alloc alloc_fresh c s o Ho Href) as (c1 & Hrun & Href1).
    assert (Hok1 : store_ok c1).
    { destruct Href as (ys & Hrep & _).
      exact (run_call_store_ok c ys o c1 Hrep Hok Hrun). }
    destruct (IH c1 _ Href1 Hok1) as (c' & Hrun' & Href' & Hok').
    exists c'. simpl. rewrite Hrun. auto.
Qed.

Lemma LruCache_new_store_ok (maxCacheSize : Z) c :
  LruCache_new alloc maxCacheSize = Some c -> store_ok c.
Proof.
  unfold LruCache_new, new_ListEntryHead. intros Hs.
  apply bind_Some in Hs as ([] & _ & [= <-]).
  unfold store_ok. simpl.
  rewrite map_size_insert_None by apply lookup_empty.
  rewrite map_size_empty. reflexivity.
Qed.

(** What holds of every cache a client can bring about. *)
Lemma reachable_inv c :
  reachable alloc c -> exists s, refines c s /\ store_ok c.
Proof.
  intros (maxCacheSize & calls & c0 & Hmax & Hcalls & Hnew & Hrun).
  destruct (LruCache_new_refines (Key := Key) (Value := Value)
              alloc maxCacheSize Hmax) as (c0' & Hnew' & Href0).
  assert (c0' = c0) by congruence. subst c0'.
  destruct (run_store_ok calls Hcalls c0 _ Href0
              (LruCache_new_store_ok _ _ Hnew)) as (c' & Hrun' & Href & Hok).
  assert (c' = c) by congruence. subst c'. eauto.
Qed.

(** A call on a cache a client can bring about returns, and a client can
    bring the result about too. *)
Lemma reachable_step c (o : call) c' :
  reachable alloc c -> call_ok o -> run_call alloc o c = Some c' ->
  reachable alloc c'.
Proof.
  intros (maxCacheSize & calls & c0 & Hmax & Hcalls & Hnew & Hrun) Ho Hs.
  exists maxCacheSize, (calls ++ [o]), c0.
  split; [exact Hmax |]. split; [| split; [exact Hnew |]].
  - apply Forall_app. split; [exact Hcalls |]. constructor; [exact Ho | constructor].
  - clear Hnew Hcalls. revert c0 Hrun.
    induction calls as [| o' calls IH]; intros c0 Hrun; simpl in *.
    + injection Hrun as ->. rewrite Hs. reflexivity.
    + destruct (run_call alloc o' c0) as [c1 |]; [| discriminate].
      simpl in *. apply IH. exact Hrun.
Qed.

(** The values of a cache are those of the entries it stands for. *)
Lemma represents_cached c ys k :
  represents c ys -> cached c k = LruSpec.find k (pairs_of ys).
Proof.
  intros Hrep. unfold cached.
  destruct (mCache c !! k) as [[a v] |] eqn:Hk.
  - destruct (represents_lookup_Some c ys k a v Hrep Hk) as (ys1 & ys2 & ->).
    pose proof Hrep as (_ & Hnd & _).
    rewrite (find_pairs_of_split _ _ _ _ _ Hnd). reflexivity.
  - apply (represents_lookup_None c ys k Hrep) in Hk.
    rewrite (find_pairs_of_notin ys k Hk). reflexivity.
Qed.

Lemma keys_pairs_of ys : (pairs_of ys).*1 = ys.*1.*2.
Proof.
  unfold pairs_of. induction ys as [| [[a k] v] ys IH]; [reflexivity |].
  simpl. f_equal. exact IH.
Qed.

Lemma refines_model c s :
  refines c s ->
  NoDup (LruSpec.items s).*1 /\
  (forall k, cached c k = LruSpec.find k (LruSpec.items s)) /\
  getNumberOfEntries c = Z.of_nat (length (LruSpec.items s)) /\
  mMaxCacheSize c = LruSpec.capacity s /\
  0 < LruSpec.capacity s < 2 ^ 32 /\
  Z.of_nat (length (LruSpec.items s)) <= LruSpec.capacity s.
Proof.
  intros (ys & Hrep & Hpairs & Hcap).
  pose proof Hrep as (_ & Hnd & _ & Hsize & Hle & Hmax).
  rewrite <- Hpairs, <- Hcap. split; [| split; [| split; [| split; [| split]]]].
  - rewrite keys_pairs_of. exact Hnd.
  - intros k. apply represents_cached. exact Hrep.
  - rewrite length_pairs_of. exact Hsize.
  - reflexivity.
  - exact Hmax.
  - rewrite length_pairs_of, <- Hsize. exact Hle.
Qed.

End CacheStoreFacts.

Section ModelRunFacts.
Context {Key : Type} `{EqDecision Key} {Value : Type}.

Implicit Types (l kvs : list (Key * Value)) (k : Key) (v : Value).
Implicit Types (s : LruSpec.cache (Key := Key) (Value := Value)).

Lemma model_run_snoc (calls : list Lru.call) (o : Lru.call) s :
  LruSpec.run (calls ++ [o]) s = LruSpec.run_call o (LruSpec.run calls s).
Proof. unfold LruSpec.run. rewrite fold_left_app. reflexivity. Qed.

(** The model after inserts of distinct keys into the empty cache holds
    the last of them, as many as the capacity. *)
Lemma model_inserts_distinct (m : Z) kvs :
  0 < m -> NoDup kvs.*1 ->
  LruSpec.run (inserts kvs) (LruSpec.empty m) =
  LruSpec.mkCache (skipn (length kvs - Z.to_nat m) kvs) m.
Proof.
  intros Hm. induction kvs as [| [k v] kvs IH] using rev_ind; intros Hnd.
  - reflexivity.
  - rewrite fmap_app in Hnd. apply NoDup_app in Hnd as (Hnd & Hk & _).
    unfold inserts. rewrite map_app. simpl map.
    rewrite model_run_snoc. fold (inserts kvs). rewrite (IH Hnd).
    simpl. unfold LruSpec.insert. simpl.
    assert (Hnone : LruSpec.find k (skipn (length kvs - Z.to_nat m) kvs) = None).
    { apply find_None. intros Hin. rewrite fmap_drop in Hin.
      apply (Hk k); [| left].
      eapply (subseteq_drop (length kvs - Z.to_nat m) (kvs.*1)). exact Hin. }
    rewrite Hnone, length_skipn, length_app. simpl length.
    destruct (Z.leb_spec m (Z.of_nat (length kvs - (length kvs - Z.to_nat m)))) as [Hfull | Hroom].
    + f_equal.
      assert (Hle : (Z.to_nat m <= length kvs)%nat) by lia.
      replace (length kvs + 1 - Z.to_nat m)%nat
        with (S (length kvs - Z.to_nat m)) by lia.
      rewrite drop_app_le by lia. f_equal.
      change (tail (skipn (length kvs - Z.to_nat m) kvs))
        with (skipn 1 (skipn (length kvs - Z.to_nat m) kvs)).
      rewrite drop_drop. f_equal. lia.
    + f_equal.
      replace (length kvs + 1 - Z.to_nat m)%nat with 0%nat by lia.
      replace (length kvs - Z.to_nat m)%nat with 0%nat by lia.
      reflexivity.
Qed.

(** Where the key of a list of distinct keys is found after the first
    [j] pairs are left out. *)
Lemma find_skipn kvs (i j : nat) k v :
  NoDup kvs.*1 -> kvs !! i = Some (k, v) ->
  LruSpec.find k (skipn j kvs) = if decide (i < j)%nat then None else Some v.
Proof.
  intros Hnd Hi.
  assert (Hki : kvs.*1 !! i = Some k) by (rewrite list_lookup_fmap, Hi; reflexivity).
  destruct (decide (i < j)%nat) as [Hlt | Hge].
  - apply find_None. intros Hin. rewrite fmap_drop in Hin.
    apply list_elem_of_lookup in Hin as [i' Hi']. rewrite lookup_drop in Hi'.
    pose proof (NoDup_lookup _ _ _ _ Hnd Hki Hi'). lia.
  - apply find_elem.
    + rewrite <- (take_drop j kvs), fmap_app in Hnd.
      apply NoDup_app in Hnd as (_ & _ & Hnd). exact Hnd.
    + apply (list_elem_of_lookup_2 _ (i - j)). rewrite lookup_drop.
      replace (j + (i - j))%nat with i by lia. exact Hi.
Qed.

(** The values the model keeps when it is resized. *)
Lemma find_skipn_Some l (j : nat) k v :
  NoDup l.*1 -> LruSpec.find k (skipn j l) = Some v -> LruSpec.find k l = Some v.
Proof.
  intros Hnd Hf. apply find_elem; [exact Hnd |].
  apply find_Some_elem in Hf. eapply (subseteq_drop j l). exact Hf.
Qed.

(** An entry that was looked up is not the one the next insert of
    another key evicts, when the cache has room for two. *)
Lemma model_promoted_survives s k v k' v' :
  NoDup (LruSpec.items s).*1 ->
  LruSpec.find k (LruSpec.items s) = Some v ->
  2 <= LruSpec.capacity s -> k' <> k ->
  LruSpec.find k
    (LruSpec.items (LruSpec.insert k' v' (snd (LruSpec.lookup k s)))) = Some v.
Proof.
  intros Hnd Hk Hcap Hne. unfold LruSpec.lookup. rewrite Hk. simpl.
  unfold LruSpec.insert. simpl.
  destruct (LruSpec.find k' (LruSpec.promote k v (LruSpec.items s))) as [v0 |]; simpl.
  - rewrite find_promote, decide_False by congruence.
    rewrite find_promote, decide_True; trivial.
  - destruct (LruSpec.capacity s <=?
              Z.of_nat (length (LruSpec.promote k v (LruSpec.items s)))) eqn:Hfull; simpl.
    + apply Z.leb_le in Hfull. unfold LruSpec.promote in *.
      rewrite length_app in Hfull. simpl length in Hfull.
      pose proof (find_remove_eq (LruSpec.items s) k) as Hrem.
      destruct (LruSpec.remove k (LruSpec.items s)) as [| [k0 v1] r];
        [simpl in Hfull; lia |].
      simpl in Hrem. destruct (decide (k0 = k)); [discriminate |].
      simpl. rewrite !find_app, Hrem. simpl. rewrite decide_True; trivial.
    + rewrite find_app, find_promote, decide_True; trivial.
Qed.

End ModelRunFacts.

(* ================================================================== *)
(** * Further properties of lru_cache.h: what a client sees *)
(* ================================================================== *)

Section CacheMoreTheorems.
Context {Key : Type} `{Countable Key} {Value : Type}.
Import Lru.
Variable alloc : gset nat -> nat.
Hypothesis alloc_fresh : forall X : gset nat, alloc X ∉ X.

Implicit Types (c : LruCache (Key := Key) (Value := Value)).
Implicit Types (k : Key) (v : Value).

(** X16: a cache made with a maximum above 0 and used through any calls
    of insert, lookup, drop and resize (to sizes above 0) returns, and
    answers as the list of key-value pairs in order of use does that is
    run through the same calls: a lookup of any key returns the value
    the list holds for it, and the counter and the maximum are the
    length and the capacity of the list. *)
Theorem cache_answers_as_the_list_in_order_of_use
    (maxCacheSize : Z) (calls : list (call (Key := Key) (Value := Value))) :
  0 < maxCacheSize < 2 ^ 32 ->
  Forall call_ok calls ->
  exists c0 c,
    LruCache_new alloc maxCacheSize = Some c0 /\
    run alloc calls c0 = Some c /\
    (forall k, exists c',
       lookup k c =
       Some (LruSpec.find k
               (LruSpec.items (LruSpec.run calls (LruSpec.empty maxCacheSize))),
             c')) /\
    getNumberOfEntries c =
      Z.of_nat (length (LruSpec.items
                          (LruSpec.run calls (LruSpec.empty maxCacheSize)))) /\
    mMaxCacheSize c =
      LruSpec.capacity (LruSpec.run calls (LruSpec.empty maxCacheSize)).
Proof.
  intros Hmax Hcalls.
  destruct (LruCache_new_refines (Key := Key) (Value := Value)
              alloc maxCacheSize Hmax) as (c0 & Hnew & Href0).
  destruct (run_refines alloc alloc_fresh calls Hcalls c0 _ Href0)
    as (c & Hrun & Href).
  exists c0, c. split; [exact Hnew |]. split; [exact Hrun |].
  destruct (refines_model c _ Href) as (_ & _ & Hn & Hcap & _).
  split; [| split; [exact Hn | exact Hcap]].
  intros k. destruct (lookup_refines c _ k Href) as (c' & Hl & _).
  exists c'. rewrite Hl. f_equal. f_equal.
  apply (model_lookup_find _ k k).
Qed.

(** X17: in every state of a cache that a client can bring about (made
    by the constructor with a maximum above 0, used through insert,
    lookup, drop and resize to sizes above 0): the insert of a key with
    a value returns true, and the lookup of the key that follows hits
    and returns that value. *)
Theorem insert_then_lookup_hits c k v :
  reachable alloc c ->
  exists c1 c2,
    insert alloc k v c = Some (true, c1) /\
    lookup k c1 = Some (Some v, c2).
Proof.
  intros Hreach. destruct (reachable_inv alloc alloc_fresh c Hreach) as (s & Href & _).
  destruct (insert_refines alloc alloc_fresh c s k v Href) as (c1 & Hins & Href1).
  destruct (lookup_refines c1 _ k Href1) as (c2 & Hl & _).
  exists c1, c2. split; [exact Hins |]. rewrite Hl. f_equal. f_equal.
  rewrite (proj1 (model_lookup_find _ k k)). apply model_insert_find.
Qed.

(** X18: in every state of a cache that a client can bring about, a
    lookup returns, and what it returns is the value the map holds for
    the key, or a miss if it holds none; it changes neither the map nor
    the counter nor the maximum (only the order of the list). *)
Theorem lookup_answers_from_the_map c k :
  reachable alloc c ->
  exists c',
    lookup k c = Some (cached c k, c') /\
    mCache c' = mCache c /\
    getNumberOfEntries c' = getNumberOfEntries c /\
    mMaxCacheSize c' = mMaxCacheSize c.
Proof.
  intros Hreach. destruct (reachable_inv alloc alloc_fresh c Hreach) as (s & Href & _).
  destruct (lookup_refines c s k Href) as (c' & Hl & _).
  destruct (refines_model c s Href) as (_ & Hcached & _).
  exists c'. rewrite Hl, (proj1 (model_lookup_find s k k)), Hcached.
  split; [reflexivity |].
  unfold lookup in Hl. destruct (lookupCache k c) as [e |].
  - apply bind_Some in Hl as (c1 & Htouch & [= _ <-]).
    apply touchEntry_inv in Htouch as (_ & Hn & Hm & Hmap).
    unfold getNumberOfEntries. auto.
  - injection Hl as _ <-. auto.
Qed.

(** X19: in every state of a cache that a client can bring about, an
    insert binds the key to the value.  If the key was bound or the
    cache is not full, every other key keeps its value.  If the key is
    new and the cache is full, one other key that was bound is bound no
    longer, and every key apart from these two keeps its value. *)
Theorem insert_changes_one_binding c k v :
  reachable alloc c ->
  exists c',
    insert alloc k v c = Some (true, c') /\
    cached c' k = Some v /\
    (cached c k <> None \/ isFull c = false ->
     forall k', k' <> k -> cached c' k' = cached c k') /\
    (cached c k = None -> isFull c = true ->
     exists k0 v0,
       k0 <> k /\ cached c k0 = Some v0 /\ cached c' k0 = None /\
       forall k', k' <> k -> k' <> k0 -> cached c' k' = cached c k').
Proof.
  intros Hreach. destruct (reachable_inv alloc alloc_fresh c Hreach) as (s & Href & _).
  destruct (insert_refines alloc alloc_fresh c s k v Href) as (c' & Hins & Href').
  destruct (refines_model c s Href) as (Hnd & Hcached & Hn & Hcap & Hpos & _).
  destruct (refines_model c' _ Href') as (_ & Hcached' & _).
  exists c'. split; [exact Hins |].
  split; [rewrite Hcached'; apply model_insert_find |].
  assert (Hfull : isFull c =
            (LruSpec.capacity s <=? Z.of_nat (length (LruSpec.items s)))).
  { unfold isFull. unfold getNumberOfEntries in Hn. rewrite Hn, Hcap. reflexivity. }
  rewrite Hfull, Hcached. clear Hfull.
  revert Hcached'. unfold LruSpec.insert.
  destruct (LruSpec.find k (LruSpec.items s)) as [v1 |] eqn:Hk; simpl; intros Hcached'.
  - split; [| discriminate]. intros _ k' Hne.
    rewrite Hcached', Hcached, find_promote, decide_False by exact Hne. reflexivity.
  - destruct (LruSpec.capacity s <=? Z.of_nat (length (LruSpec.items s))) eqn:Hfull;
      simpl in Hcached'.
    + split; [intros [Hc | Hc]; [congruence | discriminate] |]. intros _ _.
      apply Z.leb_le in Hfull.
      destruct (LruSpec.items s) as [| [k0 v0] l] eqn:Hitems;
        [simpl in Hfull; lia |].
      simpl in Hk, Hnd, Hcached'.
      destruct (decide (k0 = k)) as [| Hk0]; [discriminate |].
      apply NoDup_cons in Hnd as [Hk0l _].
      exists k0, v0. split; [exact Hk0 |].
      split; [rewrite Hcached; simpl; rewrite decide_True; trivial |].
      split.
      * rewrite Hcached', find_snoc, decide_False by assumption.
        apply find_None. exact Hk0l.
      * intros k' Hne Hne0.
        rewrite Hcached', Hcached, find_snoc, decide_False by assumption.
        simpl. rewrite decide_False by congruence. reflexivity.
    + split; [| discriminate]. intros _ k' Hne.
      rewrite Hcached', Hcached, find_snoc, decide_False by assumption.
      reflexivity.
Qed.

(** X20: in every state of a cache that a client can bring about,
    [drop] returns and leaves the cache empty: the map binds no key, the
    counter is 0, every lookup misses, the store holds the head of the
    list only, and the maximum is as before. *)
Theorem drop_empties_the_cache c :
  reachable alloc c ->
  exists c',
    drop c = Some c' /\
    mCache c' = ∅ /\
    getNumberOfEntries c' = 0 /\
    mMaxCacheSize c' = mMaxCacheSize c /\
    size (entries c') = 1%nat /\
    forall k, lookup k c' = Some (None, c').
Proof.
  intros Hreach.
  destruct (reachable_inv alloc alloc_fresh c Hreach) as (s & (ys & Hrep & _) & Hok).
  destruct (drop_represents c ys Hrep) as (c' & Hdrop & _).
  destruct (drop_inv c ys c' Hrep Hok Hdrop) as (Hsz & Hn & Hmax & Hmap & _).
  exists c'. split; [exact Hdrop |]. split; [exact Hmap |].
  split; [exact Hn |]. split; [exact Hmax |]. split; [exact Hsz |].
  intros k. unfold lookup, lookupCache. rewrite Hmap, lookup_empty. reflexivity.
Qed.

(** X21: in every state of a cache that a client can bring about, the
    store of list entries holds the head of the list and one entry for
    each key of the map, and nothing else: no entry leaks.  The list
    entry a key of the map points to is in the store and holds that key,
    and the head holds none. *)
Theorem store_holds_the_list_only c :
  reachable alloc c ->
  size (entries c) = S (size (mCache c)) /\
  content_of (entries c) (mLruList c) = Some None /\
  forall k e, mCache c !! k = Some e ->
              content_of (entries c) (listEntry e) = Some (Some k).
Proof.
  intros Hreach.
  destruct (reachable_inv alloc alloc_fresh c Hreach) as (s & Href & Hok).
  destruct (refines_size c s Href) as (Hmap & _).
  pose proof Href as (ys & Hrep & _).
  pose proof Hrep as ((_ & _ & Hhead & Hcont) & _ & Hiff & _).
  unfold store_ok in Hok. unfold getNumberOfEntries in Hmap.
  split; [rewrite Hok, <- Hmap, Nat2Z.id; reflexivity |].
  split; [exact Hhead |].
  intros k [a v] Hk. apply Hiff in Hk. simpl.
  rewrite Forall_forall in Hcont.
  apply (Hcont (a, k)). apply list_elem_of_fmap. exists (a, k, v). auto.
Qed.

(** X22: in every state of a cache that a client can bring about, the
    destructor returns and frees the head and every list entry: the
    store is empty after it. *)
Theorem destructor_frees_the_store c :
  reachable alloc c -> LruCache_delete c = Some ∅.
Proof.
  intros Hreach.
  destruct (reachable_inv alloc alloc_fresh c Hreach) as (s & (ys & Hrep & _) & Hok).
  pose proof Hrep as (Hring & _ & _ & Hsize & _).
  destruct (clear_ring _ _ _ Hring) as (h' & Hclear & Hring').
  pose proof (clear_size _ _ _ _ Hring Hclear) as Hsz.
  unfold store_ok in Hok. rewrite length_fmap in Hsz.
  unfold LruCache_delete, delete_ListEntryHead. rewrite Hclear. simpl. f_equal.
  apply map_size_empty_inv.
  destruct (ring_in_store h' (mLruList c) [] (mLruList c) Hring') as [e He]; [left |].
  rewrite map_size_delete_Some by eauto. lia.
Qed.

(** X23: after distinct keys were inserted into a new cache one after
    the other, the cache holds the last of them, as many as the maximum
    allows, with their values, and none of those before. *)
Theorem distinct_inserts_keep_the_newest
    (maxCacheSize : Z) (kvs : list (Key * Value)) :
  0 < maxCacheSize < 2 ^ 32 ->
  NoDup kvs.*1 ->
  exists c0 c,
    LruCache_new alloc maxCacheSize = Some c0 /\
    run alloc (inserts kvs) c0 = Some c /\
    forall (i : nat) k v, kvs !! i = Some (k, v) ->
      cached c k =
      if decide (i < length kvs - Z.to_nat maxCacheSize)%nat then None
      else Some v.
Proof.
  intros Hmax Hnd.
  destruct (LruCache_new_refines (Key := Key) (Value := Value)
              alloc maxCacheSize Hmax) as (c0 & Hnew & Href0).
  assert (Hcalls : Forall call_ok (inserts kvs)).
  { apply Forall_forall. intros o Ho. unfold inserts in Ho.
    apply list_elem_of_In, in_map_iff in Ho as (kv & <- & _). exact I. }
  destruct (run_refines alloc alloc_fresh _ Hcalls c0 _ Href0) as (c & Hrun & Href).
  exists c0, c. split; [exact Hnew |]. split; [exact Hrun |].
  rewrite model_inserts_distinct in Href by (lia || exact Hnd).
  destruct (refines_model c _ Href) as (_ & Hcached & _). simpl in Hcached.
  intros i k v Hi. rewrite Hcached. apply find_skipn; assumption.
Qed.

(** X24: in every state that a client can bring about of a cache of
    maximum 2 or more, a key that is bound to a value is still bound to
    it after its lookup, which hits, and the insert of another key that
    follows: the lookup made it the most recently used, so it is not
    the one evicted. *)
Theorem looked_up_entry_survives_insert c k v k' v' :
  reachable alloc c ->
  cached c k = Some v ->
  2 <= mMaxCacheSize c ->
  k' <> k ->
  exists c1 c2,
    lookup k c = Some (Some v, c1) /\
    insert alloc k' v' c1 = Some (true, c2) /\
    cached c2 k = Some v.
Proof.
  intros Hreach Hk Hcap Hne.
  destruct (reachable_inv alloc alloc_fresh c Hreach) as (s & Href & _).
  destruct (refines_model c s Href) as (Hnd & Hcached & _ & Hmax & _).
  destruct (lookup_refines c s k Href) as (c1 & Hl & Href1).
  destruct (insert_refines alloc alloc_fresh c1 _ k' v' Href1) as (c2 & Hins & Href2).
  destruct (refines_model c2 _ Href2) as (_ & Hcached2 & _).
  rewrite Hcached in Hk.
  exists c1, c2. split; [| split; [exact Hins |]].
  - rewrite Hl, (proj1 (model_lookup_find s k k)), Hk. reflexivity.
  - rewrite Hcached2. apply model_promoted_survives; [exact Hnd | exact Hk | lia | exact Hne].
Qed.

(** X25: in every state of a cache that a client can bring about, a
    resize to a size above 0 that an unsigned int holds returns; it
    drops values but changes none: a key bound after it was bound to the
    same value before; and a resize to the number of entries or more
    keeps every binding. *)
Theorem resize_keeps_values c (newSize : Z) :
  reachable alloc c ->
  0 < newSize < 2 ^ 32 ->
  exists c',
    resize newSize c = Some c' /\
    (forall k v, cached c' k = Some v -> cached c k = Some v) /\
    (getNumberOfEntries c <= newSize -> forall k, cached c' k = cached c k).
Proof.
  intros Hreach Hnew.
  destruct (reachable_inv alloc alloc_fresh c Hreach) as (s & Href & _).
  destruct (refines_model c s Href) as (Hnd & Hcached & Hn & _).
  destruct (resize_refines c s newSize Hnew Href) as (c' & Hres & Href').
  destruct (refines_model c' _ Href') as (_ & Hcached' & _). simpl in Hcached'.
  exists c'. split; [exact Hres |]. split.
  - intros k v. rewrite Hcached', Hcached. apply find_skipn_Some. exact Hnd.
  - intros Hle k. rewrite Hcached', Hcached.
    replace (length (LruSpec.items s) - Z.to_nat newSize)%nat with 0%nat by lia.
    reflexivity.
Qed.

End CacheMoreTheorems.

Lemma cache_answers_as_the_list_in_order_of_use_witness :
  exists c0 c : Lru.LruCache (Key := Z) (Value := ascii),
    Lru.LruCache_new fresh 2 = Some c0 /\
    Lru.run fresh
      [Lru.Insert 1 "A"%char; Lru.Insert 2 "B"%char; Lru.Lookup 1;
       Lru.Insert 3 "C"%char; Lru.Resize 3; Lru.Insert 1 "D"%char] c0 = Some c /\
    (exists c', Lru.lookup 1 c = Some (Some "D"%char, c')) /\
    (exists c', Lru.lookup 2 c = Some (None, c')) /\
    (exists c', Lru.lookup 3 c = Some (Some "C"%char, c')) /\
    Lru.getNumberOfEntries c = 2 /\ Lru.mMaxCacheSize c = 3.
Proof.
  destruct (cache_answers_as_the_list_in_order_of_use
              (Key := Z) (Value := ascii) fresh is_fresh 2
              [Lru.Insert 1 "A"%char; Lru.Insert 2 "B"%char; Lru.Lookup 1;
               Lru.Insert 3 "C"%char; Lru.Resize 3; Lru.Insert 1 "D"%char])
    as (c0 & c & Hnew & Hrun & Hl & Hn & Hmax).
  - lia.
  - repeat constructor; simpl; lia.
  - exists c0, c. split; [exact Hnew |]. split; [exact Hrun |].
    split; [exact (Hl 1) |]. split; [exact (Hl 2) |]. split; [exact (Hl 3) |].
    split; [exact Hn | exact Hmax].
Defined.

Lemma insert_then_lookup_hits_witness :
  exists c : Lru.LruCache (Key := Z) (Value := ascii),
    (c0 ← Lru.LruCache_new fresh 2;
     Lru.run fresh [Lru.Insert 1 "A"%char; Lru.Insert 2 "B"%char] c0) = Some c /\
    exists c1 c2,
      Lru.insert fresh 3 "C"%char c = Some (true, c1) /\
      Lru.lookup 3 c1 = Some (Some "C"%char, c2).
Proof.
  eexists. split; [vm_compute; reflexivity |].
  apply (insert_then_lookup_hits fresh is_fresh).
  eexists 2, [Lru.Insert 1 "A"%char; Lru.Insert 2 "B"%char], _.
  split; [lia |]. split; [repeat constructor |].
  split; [vm_compute; reflexivity | vm_compute; reflexivity].
Defined.

Lemma lookup_answers_from_the_map_witness :
  exists c : Lru.LruCache (Key := Z) (Value := ascii),
    (c0 ← Lru.LruCache_new fresh 2;
     Lru.run fresh [Lru.Insert 1 "A"%char; Lru.Insert 2 "B"%char] c0) = Some c /\
    exists c',
      Lru.lookup 1 c = Some (cached c 1, c') /\
      Lru.mCache c' = Lru.mCache c /\
      Lru.getNumberOfEntries c' = Lru.getNumberOfEntries c /\
      Lru.mMaxCacheSize c' = Lru.mMaxCacheSize c.
Proof.
  eexists. split; [vm_compute; reflexivity |].
  apply (lookup_answers_from_the_map fresh is_fresh).
  eexists 2, [Lru.Insert 1 "A"%char; Lru.Insert 2 "B"%char], _.
  split; [lia |]. split; [repeat constructor |].
  split; [vm_compute; reflexivity | vm_compute; reflexivity].
Defined.

Lemma insert_changes_one_binding_witness :
  exists c : Lru.LruCache (Key := Z) (Value := ascii),
    (c0 ← Lru.LruCache_new fresh 2;
     Lru.run fresh [Lru.Insert 1 "A"%char; Lru.Insert 2 "B"%char] c0) = Some c /\
    exists c',
      Lru.insert fresh 3 "C"%char c = Some (true, c') /\
      cached c' 3 = Some "C"%char /\
      (cached c 3 <> None \/ Lru.isFull c = false ->
       forall k', k' <> 3 -> cached c' k' = cached c k') /\
      (cached c 3 = None -> Lru.isFull c = true ->
       exists k0 v0,
         k0 <> 3 /\ cached c k0 = Some v0 /\ cached c' k0 = None /\
         forall k', k' <> 3 -> k' <> k0 -> cached c' k' = cached c k').
Proof.
  eexists. split; [vm_compute; reflexivity |].
  apply (insert_changes_one_binding fresh is_fresh).
  eexists 2, [Lru.Insert 1 "A"%char; Lru.Insert 2 "B"%char], _.
  split; [lia |]. split; [repeat constructor |].
  split; [vm_compute; reflexivity | vm_compute; reflexivity].
Defined.

Lemma drop_empties_the_cache_witness :
  exists c : Lru.LruCache (Key := Z) (Value := ascii),
    (c0 ← Lru.LruCache_new fresh 2;
     Lru.run fresh [Lru.Insert 1 "A"%char; Lru.Insert 2 "B"%char] c0) = Some c /\
    exists c',
      Lru.drop c = Some c' /\
      Lru.mCache c' = ∅ /\
      Lru.getNumberOfEntries c' = 0 /\
      Lru.mMaxCacheSize c' = Lru.mMaxCacheSize c /\
      size (Lru.entries c') = 1%nat /\
      forall k, Lru.lookup k c' = Some (None, c').
Proof.
  eexists. split; [vm_compute; reflexivity |].
  apply (drop_empties_the_cache fresh is_fresh).
  eexists 2, [Lru.Insert 1 "A"%char; Lru.Insert 2 "B"%char], _.
  split; [lia |]. split; [repeat constructor |].
  split; [vm_compute; reflexivity | vm_compute; reflexivity].
Defined.

Lemma store_holds_the_list_only_witness :
  exists c : Lru.LruCache (Key := Z) (Value := ascii),
    (c0 ← Lru.LruCache_new fresh 2;
     Lru.run fresh
       [Lru.Insert 1 "A"%char; Lru.Insert 2 "B"%char; Lru.Insert 3 "C"%char;
        Lru.Lookup 2; Lru.Resize 1] c0) = Some c /\
    size (Lru.entries c) = S (size (Lru.mCache c)) /\
    Lru.content_of (Lru.entries c) (Lru.mLruList c) = Some None /\
    forall k e, Lru.mCache c !! k = Some e ->
                Lru.content_of (Lru.entries c) (Lru.listEntry e) = Some (Some k).
Proof.
  eexists. split; [vm_compute; reflexivity |].
  apply (store_holds_the_list_only fresh is_fresh).
  eexists 2, [Lru.Insert 1 "A"%char; Lru.Insert 2 "B"%char; Lru.Insert 3 "C"%char;
              Lru.Lookup 2; Lru.Resize 1], _.
  split; [lia |]. split; [repeat constructor; simpl; lia |].
  split; [vm_compute; reflexivity | vm_compute; reflexivity].
Defined.

Lemma destructor_frees_the_store_witness :
  exists c : Lru.LruCache (Key := Z) (Value := ascii),
    (c0 ← Lru.LruCache_new fresh 2;
     Lru.run fresh [Lru.Insert 1 "A"%char; Lru.Insert 2 "B"%char] c0) = Some c /\
    Lru.LruCache_delete c = Some ∅.
Proof.
  eexists. split; [vm_compute; reflexivity |].
  apply (destructor_frees_the_store fresh is_fresh).
  eexists 2, [Lru.Insert 1 "A"%char; Lru.Insert 2 "B"%char], _.
  split; [lia |]. split; [repeat constructor |].
  split; [vm_compute; reflexivity | vm_compute; reflexivity].
Defined.

Lemma distinct_inserts_keep_the_newest_witness :
  exists c0 c : Lru.LruCache (Key := Z) (Value := ascii),
    Lru.LruCache_new fresh 2 = Some c0 /\
    Lru.run fresh (inserts [(1, "A"%char); (2, "B"%char); (3, "C"%char)]) c0
      = Some c /\
    cached c 1 = None /\ cached c 2 = Some "B"%char /\ cached c 3 = Some "C"%char.
Proof.
  destruct (distinct_inserts_keep_the_newest (Key := Z) (Value := ascii)
              fresh is_fresh 2 [(1, "A"%char); (2, "B"%char); (3, "C"%char)])
    as (c0 & c & Hnew & Hrun & Hc).
  - lia.
  - apply (bool_decide_unpack _). vm_compute. reflexivity.
  - exists c0, c. split; [exact Hnew |]. split; [exact Hrun |].
    split; [exact (Hc 0%nat 1 "A"%char eq_refl) |].
    split; [exact (Hc 1%nat 2 "B"%char eq_refl) |].
    exact (Hc 2%nat 3 "C"%char eq_refl).
Defined.

Lemma looked_up_entry_survives_insert_witness :
  exists c : Lru.LruCache (Key := Z) (Value := ascii),
    (c0 ← Lru.LruCache_new fresh 2;
     Lru.run fresh [Lru.Insert 1 "A"%char; Lru.Insert 2 "B"%char] c0) = Some c /\
    exists c1 c2,
      Lru.lookup 1 c = Some (Some "A"%char, c1) /\
      Lru.insert fresh 3 "C"%char c1 = Some (true, c2) /\
      cached c2 1 = Some "A"%char.
Proof.
  eexists. split; [vm_compute; reflexivity |].
  apply (looked_up_entry_survives_insert fresh is_fresh).
  - eexists 2, [Lru.Insert 1 "A"%char; Lru.Insert 2 "B"%char], _.
    split; [lia |]. split; [repeat constructor |].
    split; [vm_compute; reflexivity | vm_compute; reflexivity].
  - vm_compute. reflexivity.
  - simpl. lia.
  - lia.
Defined.

Lemma resize_keeps_values_witness :
  exists c : Lru.LruCache (Key := Z) (Value := ascii),
    (c0 ← Lru.LruCache_new fresh 2;
     Lru.run fresh [Lru.Insert 1 "A"%char; Lru.Insert 2 "B"%char] c0) = Some c /\
    exists c',
      Lru.resize 1 c = Some c' /\
      (forall k v, cached c' k = Some v -> cached c k = Some v) /\
      (Lru.getNumberOfEntries c <= 1 -> forall k, cached c' k = cached c k).
Proof.
  eexists. split; [vm_compute; reflexivity |].
  apply (resize_keeps_values fresh is_fresh).
  - eexists 2, [Lru.Insert 1 "A"%char; Lru.Insert 2 "B"%char], _.
    split; [lia |]. split; [repeat constructor |].
    split; [vm_compute; reflexivity | vm_compute; reflexivity].
  - lia.
Defined.

(* ================================================================== *)
(** * Further properties of lru_cache.h: the list as a client sees it *)
(* ================================================================== *)

Section ListTheorems.
Context {Key : Type} `{Countable Key}.
Import Lru.
Variable alloc : gset nat -> nat.
Hypothesis alloc_fresh : forall X : gset nat, alloc X ∉ X.

Implicit Types (h : gmap nat (ListEntry (Key := Key))) (head x : nat).
Implicit Types (xs : list (nat * Key)) (k : Key).

(** X26: what is pushed at one end of a list is what the pop at that
    end returns next, and the list is then as before the push, in a
    store of the same size: this holds of [push_back] with [pop_back]
    and of [push_front] with [pop_front]. *)
Theorem push_then_pop_at_the_same_end h head xs k :
  ring h head xs ->
  (exists x h1 h2,
     push_back alloc head k h = Some (x, h1) /\
     pop_back head h1 = Some (k, h2) /\
     ring h2 head xs /\ size h2 = size h) /\
  (exists x h1 h2,
     push_front alloc head k h = Some (x, h1) /\
     pop_front head h1 = Some (k, h2) /\
     ring h2 head xs /\ size h2 = size h).
Proof.
  intros Hring. split.
  - destruct (push_back_ring alloc alloc_fresh h head xs k Hring)
      as (x & h1 & Hpush & Hring1 & _).
    destruct (pop_back_ring h1 head xs x k Hring1) as (h2 & Hpop & Hring2).
    exists x, h1, h2. split; [exact Hpush |]. split; [exact Hpop |].
    split; [exact Hring2 |].
    apply (push_back_size alloc alloc_fresh) in Hpush.
    apply pop_back_size in Hpop. lia.
  - destruct (push_front_ring alloc alloc_fresh h head xs k Hring)
      as (x & h1 & Hpush & Hring1).
    destruct (pop_front_ring h1 head x k xs Hring1) as (h2 & Hpop & Hring2).
    exists x, h1, h2. split; [exact Hpush |]. split; [exact Hpop |].
    split; [exact Hring2 |].
    apply (push_front_size alloc alloc_fresh) in Hpush.
    apply pop_front_size in Hpop. lia.
Qed.

(** X27: the list is a queue from either end: after a [push_back],
    [pop_front] returns the key that was first and leaves the others
    with the new key last; after a [push_front], [pop_back] returns the
    key that was last and leaves the others with the new key first. *)
Theorem push_then_pop_at_the_other_end
    h head xs x0 (k0 : Key) xs' xs'' x1 (k1 : Key) k :
  ring h head xs ->
  xs = (x0, k0) :: xs' ->
  xs = xs'' ++ [(x1, k1)] ->
  (exists x h1 h2,
     push_back alloc head k h = Some (x, h1) /\
     pop_front head h1 = Some (k0, h2) /\
     ring h2 head (xs' ++ [(x, k)])) /\
  (exists x h1 h2,
     push_front alloc head k h = Some (x, h1) /\
     pop_back head h1 = Some (k1, h2) /\
     ring h2 head ((x, k) :: xs'')).
Proof.
  intros Hring Hfirst Hlast. split.
  - rewrite Hfirst in Hring.
    destruct (push_back_ring alloc alloc_fresh h head _ k Hring)
      as (x & h1 & Hpush & Hring1 & _).
    simpl in Hring1.
    destruct (pop_front_ring h1 head x0 k0 _ Hring1) as (h2 & Hpop & Hring2).
    exists x, h1, h2. auto.
  - rewrite Hlast in Hring.
    destruct (push_front_ring alloc alloc_fresh h head _ k Hring)
      as (x & h1 & Hpush & Hring1).
    rewrite app_comm_cons in Hring1.
    destruct (pop_back_ring h1 head _ x1 k1 Hring1) as (h2 & Hpop & Hring2).
    exists x, h1, h2. auto.
Qed.

(** X28: [moveToFront] makes an entry of the list the first one and
    [moveToBack] the last one, the others keep their order, and nothing
    is allocated or freed; the pop at that end then returns the key of
    the moved entry and leaves the others. *)
Theorem moved_entry_is_popped_next h head xs1 x k xs2 :
  ring h head (xs1 ++ (x, k) :: xs2) ->
  (exists h1 h2,
     moveToFront head x h = Some h1 /\
     ring h1 head ((x, k) :: xs1 ++ xs2) /\ dom h1 = dom h /\
     pop_front head h1 = Some (k, h2) /\ ring h2 head (xs1 ++ xs2)) /\
  (exists h1 h2,
     moveToBack head x h = Some h1 /\
     ring h1 head (xs1 ++ xs2 ++ [(x, k)]) /\ dom h1 = dom h /\
     pop_back head h1 = Some (k, h2) /\ ring h2 head (xs1 ++ xs2)).
Proof.
  intros Hring. split.
  - destruct (moveToFront_ring h head xs1 x k xs2 Hring) as (h1 & Hmove & Hring1).
    destruct (pop_front_ring h1 head x k _ Hring1) as (h2 & Hpop & Hring2).
    exists h1, h2. split; [exact Hmove |]. split; [exact Hring1 |].
    split; [exact (moveToFront_dom _ _ _ _ Hmove) |]. auto.
  - destruct (moveToBack_ring h head xs1 x k xs2 Hring) as (h1 & Hmove & Hring1).
    pose proof Hring1 as Hring1'. rewrite app_assoc in Hring1'.
    destruct (pop_back_ring h1 head _ x k Hring1') as (h2 & Hpop & Hring2).
    exists h1, h2. split; [exact Hmove |]. split; [exact Hring1 |].
    split; [exact (moveToBack_dom _ _ _ _ Hmove) |]. auto.
Qed.

End ListTheorems.

Lemma push_then_pop_at_the_same_end_witness :
  Lru.ring sample_list 0 [(1%nat, 7); (2%nat, 8)] /\
  (exists x h1 h2,
     Lru.push_back fresh 0 9 sample_list = Some (x, h1) /\
     Lru.pop_back 0 h1 = Some (9, h2) /\
     Lru.ring h2 0 [(1%nat, 7); (2%nat, 8)] /\ size h2 = size sample_list) /\
  (exists x h1 h2,
     Lru.push_front fresh 0 9 sample_list = Some (x, h1) /\
     Lru.pop_front 0 h1 = Some (9, h2) /\
     Lru.ring h2 0 [(1%nat, 7); (2%nat, 8)] /\ size h2 = size sample_list).
Proof.
  assert (Hring : Lru.ring sample_list 0 [(1%nat, 7); (2%nat, 8)]).
  { unfold Lru.ring, Lru.linked. apply (bool_decide_unpack _). vm_compute. reflexivity. }
  split; [exact Hring |].
  exact (push_then_pop_at_the_same_end fresh is_fresh sample_list 0%nat _ 9 Hring).
Defined.

Lemma push_then_pop_at_the_other_end_witness :
  Lru.ring sample_list 0 [(1%nat, 7); (2%nat, 8)] /\
  (exists x h1 h2,
     Lru.push_back fresh 0 9 sample_list = Some (x, h1) /\
     Lru.pop_front 0 h1 = Some (7, h2) /\
     Lru.ring h2 0 ([(2%nat, 8)] ++ [(x, 9)])) /\
  (exists x h1 h2,
     Lru.push_front fresh 0 9 sample_list = Some (x, h1) /\
     Lru.pop_back 0 h1 = Some (8, h2) /\
     Lru.ring h2 0 ((x, 9) :: [(1%nat, 7)])).
Proof.
  assert (Hring : Lru.ring sample_list 0 [(1%nat, 7); (2%nat, 8)]).
  { unfold Lru.ring, Lru.linked. apply (bool_decide_unpack _). vm_compute. reflexivity. }
  split; [exact Hring |].
  exact (push_then_pop_at_the_other_end fresh is_fresh sample_list 0%nat
           [(1%nat, 7); (2%nat, 8)] 1%nat 7 [(2%nat, 8)] [(1%nat, 7)] 2%nat 8 9
           Hring eq_refl eq_refl).
Defined.

Lemma moved_entry_is_popped_next_witness :
  Lru.ring sample_list 0 ([(1%nat, 7)] ++ (2%nat, 8) :: []) /\
  (exists h1 h2,
     Lru.moveToFront 0 2 sample_list = Some h1 /\
     Lru.ring h1 0 ((2%nat, 8) :: [(1%nat, 7)] ++ []) /\
     dom h1 = dom sample_list /\
     Lru.pop_front 0 h1 = Some (8, h2) /\ Lru.ring h2 0 ([(1%nat, 7)] ++ [])) /\
  (exists h1 h2,
     Lru.moveToBack 0 2 sample_list = Some h1 /\
     Lru.ring h1 0 ([(1%nat, 7)] ++ [] ++ [(2%nat, 8)]) /\
     dom h1 = dom sample_list /\
     Lru.pop_back 0 h1 = Some (8, h2) /\ Lru.ring h2 0 ([(1%nat, 7)] ++ [])).
Proof.
  assert (Hring : Lru.ring sample_list 0 ([(1%nat, 7)] ++ (2%nat, 8) :: [])).
  { unfold Lru.ring, Lru.linked. apply (bool_decide_unpack _). vm_compute. reflexivity. }
  split; [exact Hring |].
  exact (moved_entry_is_popped_next sample_list 0%nat [(1%nat, 7)] 2%nat 8 [] Hring).
Defined.

(* ================================================================== *)
(** * Properties of cvmfs_sync_recursion.h *)
(* ================================================================== *)

Section RecursionFacts.
Context {T : Type}.
Import Recursion.

Implicit Types (e : RecursionEngine (T := T)) (dip : DIR) (s : T).
Implicit Types (path parent_path dir_name : bytes).

(** Induction on a directory tree. *)
Lemma DIR_induction (P : DIR -> Prop) :
  P NULL ->
  (forall entries closedir,
     Forall (fun d => match d with mkDirent _ _ below => P below end) entries ->
     P (stream entries closedir)) ->
  forall dip, P dip.
Proof.
  intros HN HS. fix IH 1. intros [| entries closedir]; [exact HN |].
  apply HS. induction entries as [| [d_name ty below] entries IHe].
  - constructor.
  - constructor; [apply IH | exact IHe].
Qed.

Lemma substr_Some (b : bytes) (pos : nat) (len : option nat) :
  (pos <= length b)%nat -> is_Some (substr b pos len).
Proof.
  intros Hle. unfold substr.
  replace (pos <=? length b)%nat with true by (symmetry; apply Nat.leb_le; exact Hle).
  eauto.
Qed.

(** No call of [substr] in [GetRelativePath] is out of range. *)
Lemma GetRelativePath_Some e path : is_Some (GetRelativePath e path).
Proof.
  unfold GetRelativePath.
  set (n := uint32 (Z.of_nat (length (relative_to_directory_ e)))).
  assert (Hn : 0 <= n < 2 ^ 32) by (apply Z.mod_pos_bound; lia).
  destruct (Z.leb_spec (Z.of_nat (length path)) n) as [| Hlt]; [eauto |].
  destruct (Z.ltb_spec 1 n).
  - apply substr_Some. unfold uint32 at 1.
    pose proof (Z.mod_le (n + 1) (2 ^ 32) ltac:(lia) ltac:(lia)).
    pose proof (Z.mod_pos_bound (n + 1) (2 ^ 32) ltac:(lia)). lia.
  - destruct (n =? 0); [eauto |].
    destruct (bool_decide _); [| eauto].
    apply substr_Some. lia.
Qed.

Lemma Notify_Some e (callback : option VoidCallback) parent_path dir_name s :
  is_Some (Notify e callback parent_path dir_name s).
Proof.
  unfold Notify. destruct callback as [f |]; [| eauto].
  destruct (GetRelativePath_Some e parent_path) as [p ->]. simpl. eauto.
Qed.

Lemma Notify_bool_Some e (callback : option BoolCallback) parent_path dir_name s :
  is_Some (Notify_bool e callback parent_path dir_name s).
Proof.
  unfold Notify_bool. destruct callback as [f |]; [| eauto].
  destruct (GetRelativePath_Some e parent_path) as [p ->]. simpl. eauto.
Qed.

(** The loop over a directory returns if the recursion below its
    entries does. *)
Lemma readdir_loop_Some e path (recursion : DIR -> bytes -> T -> option T) :
  forall entries,
    Forall (fun d => match d with mkDirent _ _ below =>
              forall d_name s, is_Some (recursion below d_name s) end) entries ->
    forall s, is_Some (readdir_loop e path recursion entries s).
Proof.
  induction 1 as [| [d_name ty below] entries Hd _ IH]; intros s; simpl; [eauto |].
  destruct (decide (d_name ∈ ignored_files_ e)); [apply IH |].
  destruct ty; simpl.
  - destruct (Notify_bool_Some e (foundDirectory e) path d_name s) as [[go s1] ->].
    simpl.
    assert (Hrec : is_Some (if go && recurse_ e then recursion below d_name s1
                            else Some s1)).
    { destruct (go && recurse_ e); [apply Hd | eauto]. }
    destruct Hrec as [s2 ->]. simpl.
    destruct (Notify_Some e (foundDirectoryAfterRecursion e) path d_name s2) as [s3 ->].
    simpl. apply IH.
  - destruct (Notify_Some e (foundRegularFile e) path d_name s) as [s1 ->].
    simpl. apply IH.
  - destruct (Notify_Some e (foundSymlink e) path d_name s) as [s1 ->].
    simpl. apply IH.
  - apply IH.
Qed.

Lemma DoRecursion_Some e dip :
  forall parent_path dir_name s,
    is_Some (DoRecursion e dip parent_path dir_name s).
Proof.
  induction dip as [| entries closedir IH] using DIR_induction;
    intros parent_path dir_name s; cbn [DoRecursion]; [eauto |].
  destruct (Notify_Some e (enteringDirectory e) parent_path dir_name s) as [s1 ->].
  cbn [mbind option_bind].
  destruct (readdir_loop_Some e (parent_path ++ str "/" ++ dir_name)
              (fun below d_name s =>
                 DoRecursion e below (parent_path ++ str "/" ++ dir_name) d_name s)
              entries) with (s := s1) as [s2 Hs2].
  { eapply Forall_impl; [exact IH |]. intros [d_name ty below] Hb. auto. }
  rewrite Hs2. cbn [mbind option_bind].
  destruct closedir; [apply Notify_Some | eauto].
Qed.

(** The loop over a directory does not look at the entries it
    ignores. *)
Lemma readdir_loop_visited e path :
  forall entries,
    Forall (fun d => match d with mkDirent _ _ below =>
              forall parent_path dir_name s,
                DoRecursion e (visited e below) parent_path dir_name s =
                DoRecursion e below parent_path dir_name s end) entries ->
    forall s,
      readdir_loop e path
        (fun below d_name s => DoRecursion e below path d_name s)
        (visited_entries e (visited e) entries) s =
      readdir_loop e path
        (fun below d_name s => DoRecursion e below path d_name s)
        entries s.
Proof.
  induction 1 as [| [d_name ty below] entries Hd _ IH]; intros s; [reflexivity |].
  cbn [visited_entries readdir_loop].
  destruct (decide (d_name ∈ ignored_files_ e)) as [Hin | Hout]; [apply IH |].
  cbn [readdir_loop]. rewrite decide_False by exact Hout.
  destruct ty; cbn [mbind option_bind].
  - destruct (Notify_bool e (foundDirectory e) path d_name s) as [[go s1] |];
      [| reflexivity].
    cbn [mbind option_bind].
    destruct (recurse_ e) eqn:Hrec.
    + rewrite Hd.
      destruct (if go && true then DoRecursion e below path d_name s1 else Some s1)
        as [s2 |]; [| reflexivity].
      cbn [mbind option_bind].
      destruct (Notify e (foundDirectoryAfterRecursion e) path d_name s2) as [s3 |];
        [| reflexivity].
      cbn [mbind option_bind]. apply IH.
    + rewrite andb_false_r. cbn [mbind option_bind].
      destruct (Notify e (foundDirectoryAfterRecursion e) path d_name s1) as [s3 |];
        [| reflexivity].
      cbn [mbind option_bind]. apply IH.
  - destruct (Notify e (foundRegularFile e) path d_name s) as [s1 |]; [| reflexivity].
    cbn [mbind option_bind]. apply IH.
  - destruct (Notify e (foundSymlink e) path d_name s) as [s1 |]; [| reflexivity].
    cbn [mbind option_bind]. apply IH.
  - apply IH.
Qed.

Lemma DoRecursion_visited e dip :
  forall parent_path dir_name s,
    DoRecursion e (visited e dip) parent_path dir_name s =
    DoRecursion e dip parent_path dir_name s.
Proof.
  induction dip as [| entries closedir IH] using DIR_induction;
    intros parent_path dir_name s; [reflexivity |].
  cbn [visited DoRecursion].
  destruct (Notify e (enteringDirectory e) parent_path dir_name s) as [s1 |];
    [| reflexivity].
  cbn [mbind option_bind].
  rewrite (readdir_loop_visited e _ entries IH). reflexivity.
Qed.

End RecursionFacts.

Section RecursionPathFacts.
Context {T : Type}.
Import Recursion.

Implicit Types (e : RecursionEngine (T := T)) (dip : DIR) (s : T).
Implicit Types (path parent_path dir_name rel : bytes).

Lemma find_last_of_None (c : ascii) path :
  c ∉ path -> find_last_of c path = None.
Proof.
  induction path as [| x path IH]; intros Hc; [reflexivity |].
  apply not_elem_of_cons in Hc as [Hne Hc].
  simpl. rewrite (IH Hc).
  destruct (Ascii.eqb_spec x c); [congruence | reflexivity].
Qed.

Lemma find_last_of_split (c : ascii) rel dir_name :
  c ∉ dir_name -> find_last_of c (rel ++ c :: dir_name) = Some (length rel).
Proof.
  intros Hc. induction rel as [| x rel IH]; simpl.
  - rewrite (find_last_of_None c dir_name Hc), Ascii.eqb_refl. reflexivity.
  - rewrite IH. reflexivity.
Qed.

(** A path is cut behind its last slash. *)
Lemma CutPathIntoParentAndFileName_split rel dir_name :
  "/"%char ∉ dir_name ->
  CutPathIntoParentAndFileName (rel ++ str "/" ++ dir_name) = Some (rel, dir_name).
Proof.
  intros Hc. unfold CutPathIntoParentAndFileName.
  change (str "/" ++ dir_name) with ("/"%char :: dir_name).
  rewrite (find_last_of_split _ rel dir_name Hc).
  unfold substr. simpl (0 <=? _)%nat. cbn [mbind option_bind].
  replace (length rel + 1 <=? length (rel ++ "/"%char :: dir_name))%nat with true.
  2:{ symmetry. apply Nat.leb_le. rewrite length_app. simpl. lia. }
  cbn [mbind option_bind]. f_equal. f_equal.
  - simpl skipn. apply take_app_length.
  - replace (length rel + 1)%nat with (length (rel ++ ["/"%char]))
      by (rewrite length_app; reflexivity).
    change (rel ++ "/"%char :: dir_name) with (rel ++ ["/"%char] ++ dir_name).
    rewrite app_assoc. apply drop_app_length.
Qed.

Lemma GetRelativePath_base e :
  1 < Z.of_nat (length (relative_to_directory_ e)) < 2 ^ 32 - 1 ->
  GetRelativePath e (relative_to_directory_ e) = Some [] /\
  forall path,
    GetRelativePath e (relative_to_directory_ e ++ str "/" ++ path) = Some path.
Proof.
  intros Hlen. unfold GetRelativePath.
  rewrite (uint32_small (Z.of_nat (length (relative_to_directory_ e)))) by lia.
  split.
  - rewrite Z.leb_refl. reflexivity.
  - intros path.
    replace (Z.of_nat (length (relative_to_directory_ e ++ str "/" ++ path)) <=?
             Z.of_nat (length (relative_to_directory_ e))) with false.
    2:{ symmetry. apply Z.leb_gt. rewrite length_app. simpl length. lia. }
    replace (1 <? Z.of_nat (length (relative_to_directory_ e))) with true
      by (symmetry; apply Z.ltb_lt; lia).
    rewrite uint32_small by lia.
    unfold substr.
    replace (Z.to_nat (Z.of_nat (length (relative_to_directory_ e)) + 1))
      with (length (relative_to_directory_ e ++ str "/"))
      by (rewrite length_app; simpl; lia).
    rewrite app_assoc.
    replace (length (relative_to_directory_ e ++ str "/") <=?
             length ((relative_to_directory_ e ++ str "/") ++ path))%nat with true.
    2:{ symmetry. apply Nat.leb_le. rewrite (length_app (_ ++ _) path). lia. }
    f_equal. apply drop_app_length.
Qed.

(** X29: [Recurse] on a directory directly below the directory the
    engine is relative to, which is more than one and less than 2^32 - 1
    characters long, with a callback set: both assertions hold, and the
    recursion starts with that directory as the parent path and the name
    behind the last slash as the directory name.  The relative path the
    callbacks get is empty for the base directory itself and, for a path
    below it, what follows the base directory and the slash. *)
Theorem Recurse_below_the_base e dip dir_name s :
  1 < Z.of_nat (length (relative_to_directory_ e)) < 2 ^ 32 - 1 ->
  "/"%char ∉ dir_name ->
  is_set (enteringDirectory e) || is_set (leavingDirectory e) ||
    is_set (foundRegularFile e) || is_set (foundDirectory e) ||
    is_set (foundSymlink e) = true ->
  Recurse e dip (relative_to_directory_ e ++ str "/" ++ dir_name) s =
    DoRecursion e dip (relative_to_directory_ e) dir_name s /\
  GetRelativePath e (relative_to_directory_ e) = Some [] /\
  forall path,
    GetRelativePath e (relative_to_directory_ e ++ str "/" ++ path) = Some path.
Proof.
  intros Hlen Hname Hset. split; [| exact (GetRelativePath_base e Hlen)].
  unfold Recurse. rewrite Hset. cbn [Lru.assert mbind option_bind].
  rewrite (CutPathIntoParentAndFileName_split _ dir_name Hname).
  cbn [mbind option_bind].
  replace (length (relative_to_directory_ e) =? 0)%nat with false
    by (symmetry; apply Nat.eqb_neq; lia).
  unfold substr. simpl (0 <=? _)%nat. cbn [mbind option_bind skipn].
  change (drop 0 (relative_to_directory_ e ++ str "/" ++ dir_name))
    with (relative_to_directory_ e ++ str "/" ++ dir_name).
  rewrite take_app_length, bool_decide_eq_true_2 by reflexivity.
  reflexivity.
Qed.

(** X30: the traversal returns (no [substr] is out of range), and it
    does not depend on what the engine must not look at: an entry whose
    name is among the ignored files, with everything below it, what is
    below an entry that is no directory, and, if the engine is not to
    recurse, what is below a directory.  [DoRecursion] and [Recurse]
    give the same on a directory tree and on its visited part. *)
Theorem traversal_skips_ignored_entries
    e dip parent_path dir_name dir_path s :
  is_Some (DoRecursion e dip parent_path dir_name s) /\
  DoRecursion e (visited e dip) parent_path dir_name s =
    DoRecursion e dip parent_path dir_name s /\
  Recurse e (visited e dip) dir_path s = Recurse e dip dir_path s.
Proof.
  split; [apply DoRecursion_Some |]. split; [apply DoRecursion_visited |].
  unfold Recurse.
  destruct (Lru.assert _) as [[] |]; [| reflexivity]. cbn [mbind option_bind].
  destruct (CutPathIntoParentAndFileName dir_path) as [[p n] |]; [| reflexivity].
  cbn [mbind option_bind].
  match goal with |- context [mbind _ ?m] => destruct m as [below |] end;
    [| reflexivity].
  cbn [mbind option_bind].
  destruct (Lru.assert below) as [[] |]; [| reflexivity]. cbn [mbind option_bind].
  apply DoRecursion_visited.
Qed.

End RecursionPathFacts.

Lemma Recurse_below_the_base_witness :
  Recursion.Recurse sample_engine sample_tree (str "/srv/repo") 0%nat = Some 2%nat /\
  Recursion.Recurse sample_engine sample_tree
    (Recursion.relative_to_directory_ sample_engine ++ str "/" ++ str "repo") 0%nat =
    Recursion.DoRecursion sample_engine sample_tree
      (Recursion.relative_to_directory_ sample_engine) (str "repo") 0%nat /\
  Recursion.GetRelativePath sample_engine
    (Recursion.relative_to_directory_ sample_engine) = Some [] /\
  forall path,
    Recursion.GetRelativePath sample_engine
      (Recursion.relative_to_directory_ sample_engine ++ str "/" ++ path) = Some path.
Proof.
  split; [vm_compute; reflexivity |].
  apply (Recurse_below_the_base sample_engine sample_tree (str "repo") 0%nat).
  - vm_compute. split; reflexivity.
  - apply (bool_decide_unpack _). vm_compute. reflexivity.
  - vm_compute. reflexivity.
Defined.
